(** * Shape overlay reconciliation of chessground (src/svg.ts)

    A shallow embedding of [renderSvg] and the functions it drives: the
    identity hash of a shape, the arrow destination counter, the
    append-only marker catalog ([syncDefs]), the insert/remove-only
    reconciliation of a container ([syncShapes]) and the renderers.

    Conventions of the embedding.
    - A JavaScript number is a binary64 float ([PrimFloat.float]); a value
      that only ever holds a count or a 32-bit integer is a [nat] or a [Z]
      with its wrap-around written out.
    - An optional field is an [option]; truthiness tests are written with
      [truthy] on the JavaScript value, so an empty string, 0 and NaN are
      falsy as in the source.
    - A JavaScript string is a [string], whose characters are the code
      units below 256; the rolling hash of a markup is also given on any
      list of 16-bit code units ([codesHash]).
    - The catalog of brushes is a plain object: reading a brush by its name
      gives an own brush, or what [Object.prototype] holds under that name,
      or undefined ([brushNamed]).
    - The DOM is a store of elements addressed by node identifiers; a
      computation on it is a state transformer that may throw, and a throw
      keeps the mutations made before it. The store holds the elements
      that svg.ts creates; what the browser parses out of a markup
      assigned to [innerHTML] is not modelled.
    - What the engine and the other modules provide (number printing,
      [Math], [key2pos]) is a parameter, the class [Runtime]; the theorems
      hold for every runtime, and where the printing of a number decides,
      for every runtime that prints no two numbers alike
      ([prints_numbers]). *)

From Stdlib Require Import ZArith Floats String Ascii List Lia QArith Qround.
From Stdlib Require Import DecimalString DecimalZ DecimalPos DecimalFacts.
From stdpp Require Import base option list gmap strings sorting.
Import ListNotations.

Set Warnings "-inexact-float".

#[local] Open Scope string_scope.
#[local] Open Scope list_scope.

(** ** JavaScript values *)

(** The values that occur in the arrays and attribute objects of svg.ts. *)
Inductive JsValue :=
| VUndefined
| VBool (b : bool)
| VNum (x : float)
| VStr (s : string).

(** A number is falsy when it is +0, -0 or NaN. *)
Definition num_truthy (x : float) : bool :=
  negb (PrimFloat.eqb x 0%float || negb (PrimFloat.eqb x x)).

Definition truthy (v : JsValue) : bool :=
  match v with
  | VUndefined => false
  | VBool b => b
  | VNum x => num_truthy x
  | VStr s => negb (String.eqb s "")
  end.

(** An optional string or number read as a JavaScript value. *)
Definition optStr (o : option string) : JsValue :=
  match o with Some s => VStr s | None => VUndefined end.

Definition optNum (o : option float) : JsValue :=
  match o with Some x => VNum x | None => VUndefined end.

(** [a || b] *)
Definition js_or (a b : JsValue) : JsValue := if truthy a then a else b.

(** [a && b] *)
Definition js_and (a b : JsValue) : JsValue := if truthy a then b else a.

(** What the JavaScript engine and the modules outside svg.ts provide, as
    parameters of the model: the conversion of a number to a string,
    [String.prototype.toUpperCase], [Math.round], [Math.atan2], [Math.cos],
    [Math.sin], and [key2pos] of ./util, which is not among the sources. *)
Class Runtime := {
  num_toString : float -> string;
  toUpperCase : string -> string;
  Math_round : float -> float;
  Math_atan2 : float -> float -> float;
  Math_cos : float -> float;
  Math_sin : float -> float;
  key2pos : string -> float * float;
}.

(** ** 32-bit integer operators *)

Definition toUint32 (z : Z) : Z := (z mod 2 ^ 32)%Z.

Definition toInt32 (z : Z) : Z :=
  let u := toUint32 z in if (u <? 2 ^ 31)%Z then u else (u - 2 ^ 32)%Z.

(** [a << n] *)
Definition js_shl (a n : Z) : Z := toInt32 (Z.shiftl (toInt32 a) (n mod 32)).

(** [a >>> n] *)
Definition js_ushr (a n : Z) : Z := Z.shiftr (toUint32 a) (n mod 32).

(** [h.toString()] of an integer. *)
Definition int_toString (z : Z) : string := NilZero.string_of_int (Z.to_int z).

(** [s.charCodeAt(i)] for every index of [s], in order. A text of the
    model holds code units below 256; [charCodeAt] gives 16-bit code units,
    and [codesHash] below is the loop of the hash on any list of them. *)
Definition charCodes (s : string) : list Z :=
  map (fun c => Z.of_nat (nat_of_ascii c)) (list_ascii_of_string s).

Section Model.
Context {rt : Runtime}.

(** [String(v)], as template literals, [+] on a string and [setAttribute]
    apply it. *)
Definition js_toString (v : JsValue) : string :=
  match v with
  | VUndefined => "undefined"
  | VBool true => "true"
  | VBool false => "false"
  | VNum x => num_toString x
  | VStr s => s
  end.

(** [Array.prototype.join]: an undefined element is joined as the empty
    string. *)
Definition join_item (v : JsValue) : string :=
  match v with VUndefined => "" | _ => js_toString v end.

Fixpoint join (sep : string) (l : list JsValue) : string :=
  match l with
  | [] => ""
  | [v] => join_item v
  | v :: l' => join_item v +:+ sep +:+ join sep l'
  end.

(** ** The data of a drawing (./draw, ./state) *)

(** Modelled from the spec: [DrawShapePiece] of ./draw, whose declaration is
    not among the sources. The piece descriptor of the data model: color,
    role and an optional scale, the three fields [pieceHash] and
    [renderPiece] read. *)
Record DrawShapePiece := {
  piece_role : string;
  piece_color : string;
  piece_scale : option float;
}.

(** Modelled from the spec: [DrawModifiers] of ./draw, whose declaration is
    not among the sources: the optional line-width override. *)
Record DrawModifiers := {
  mod_lineWidth : option float;
}.

(** Modelled from the spec: [DrawShape] of ./draw, whose declaration is not
    among the sources. The origin square is required; the destination
    square, the brush identifier, the modifiers, the piece descriptor and
    the embedded markup are optional. These are the six fields [shapeHash]
    takes from a shape. A square is the string that names it. *)
Record DrawShape := {
  orig : string;
  dest : option string;
  brush : option string;
  modifiers : option DrawModifiers;
  piece : option DrawShapePiece;
  customSvg : option string;
}.

(** Modelled from the spec: [DrawBrush] of ./draw, whose declaration is not
    among the sources: color, opacity, line width, and the key that
    identifies its marker. *)
Record DrawBrush := {
  brush_key : string;
  brush_color : string;
  brush_opacity : float;
  brush_lineWidth : float;
}.

(** The value of an expression that the code uses as a brush, as far as the
    code reads it: its properties key, color, opacity and lineWidth, [None]
    for a property that the value does not have (it reads as undefined).
    Such a value is a brush of the catalog, a value inherited from
    [Object.prototype], or the object literal of [makeCustomBrush]. *)
Record BrushValue := {
  bv_key : option string;
  bv_color : option string;
  bv_opacity : option float;
  bv_lineWidth : option float;
}.

(** A brush of the catalog, read as a value: its four properties are
    defined. *)
Definition own (b : DrawBrush) : BrushValue :=
  {| bv_key := Some (brush_key b); bv_color := Some (brush_color b);
     bv_opacity := Some (brush_opacity b);
     bv_lineWidth := Some (brush_lineWidth b) |}.

(** A value inherited from [Object.prototype] (a method, or the prototype
    itself): it has none of the four properties. *)
Definition inherited : BrushValue :=
  {| bv_key := None; bv_color := None; bv_opacity := None; bv_lineWidth := None |}.

(** The property names that [Object.prototype] answers for every plain
    object (ECMAScript, Annex B included). *)
Definition prototypeNames : list string :=
  [ "constructor"; "hasOwnProperty"; "isPrototypeOf"; "propertyIsEnumerable";
    "toLocaleString"; "toString"; "valueOf"; "__proto__";
    "__defineGetter__"; "__defineSetter__"; "__lookupGetter__";
    "__lookupSetter__" ].

(** Modelled from the spec: the preview shape [Drawable.current] of ./draw,
    whose declaration is not among the sources. [renderSvg] reads it as a
    [DrawShape] once its [mouseSq] is set, so it is a shape together with
    the square under the pointer. *)
Record DrawCurrent := {
  cur_shape : DrawShape;
  mouseSq : option string;
}.

(** Modelled from the spec: [Drawable] of ./draw, whose declaration is not
    among the sources, with the fields svg.ts reads: the persistent shapes,
    the auto-generated shapes, the preview shape, the brush catalog (an
    object read by brush name, here a map from names to brushes), the base
    URL of the piece images, and the render snapshot. *)
Record Drawable := {
  shapes : list DrawShape;
  autoShapes : list DrawShape;
  current : option DrawCurrent;
  brushes : gmap string DrawBrush;
  pieces_baseUrl : string;
  prevSvgHash : string;
}.

(** Modelled from the spec: [State] of ./state, whose declaration is not
    among the sources, with the fields svg.ts reads: the drawable and the
    orientation of the board. *)
Record State := {
  drawable : Drawable;
  orientation : string;
}.

(** [interface Shape] *)
Record Shape := {
  sc_shape : DrawShape;
  sc_current : bool;
  sc_hash : string;
}.

(** ** Hashing *)

(** [(arrowDests.get(dest) || 0) > 1] *)
Definition manyArrows (arrowDests : gmap string nat) (d : string) : bool :=
  (1 <? default 0 (arrowDests !! d))%nat.

Definition pieceHash (p : DrawShapePiece) : string :=
  join "," (List.filter truthy
    [VStr (piece_color p); VStr (piece_role p); optNum (piece_scale p)]).

Definition modifiersHash (m : DrawModifiers) : string :=
  "" +:+ js_toString (js_or (optNum (mod_lineWidth m)) (VStr "")).

(** One turn of the loop of [customSvgHash]:
    [h = ((h << 5) - h + s.charCodeAt(i)) >>> 0]. *)
Definition hashStep (h c : Z) : Z := js_ushr (js_shl h 5 - h + c) 0.

Definition customSvgHash (s : string) : string :=
  let h := fold_left hashStep (charCodes s) 0%Z in
  "custom-" +:+ int_toString h.

(** The array of [shapeHash] before [filter] and [join]. *)
Definition shapeTokens (s : DrawShape) (arrowDests : gmap string nat)
    (current : bool) : list JsValue :=
  [ VBool current;
    VStr (orig s);
    optStr (dest s);
    optStr (brush s);
    match dest s with
    | Some d => js_and (VStr d) (VBool (manyArrows arrowDests d))
    | None => VUndefined
    end;
    match piece s with
    | Some p => VStr (pieceHash p)
    | None => VUndefined
    end;
    match modifiers s with
    | Some m => VStr (modifiersHash m)
    | None => VUndefined
    end;
    match customSvg s with
    | Some c => js_and (VStr c) (VStr (customSvgHash c))
    | None => VUndefined
    end ].

Definition shapeHash (s : DrawShape) (arrowDests : gmap string nat)
    (current : bool) : string :=
  join "," (List.filter truthy (shapeTokens s arrowDests current)).

(** ** The DOM *)

(** An element: its tag, its attributes in the order they were first set,
    the identifiers of its children in document order, and the markup that
    was last assigned to its [innerHTML]. The store holds the elements
    that svg.ts creates and links itself. The nodes that the browser parses
    out of an assigned markup are not in it: [childNodes] does not list
    them, and the field [innerHTML] is a record of the assignment, not the
    serialization that reading the property gives. *)
Record Element := {
  tagName : string;
  attributes : list (string * string);
  childNodes : list nat;
  innerHTML : string;
}.

Abbreviation Dom := (gmap nat Element).

(** A computation on the DOM: the store after it, and its result, [None]
    when it threw. *)
Definition M (A : Type) : Type := Dom -> Dom * option A.

#[global] Instance M_ret : MRet M := fun A (a : A) σ => (σ, Some a).

#[global] Instance M_bind : MBind M := fun A B (f : A -> M B) (m : M A) σ =>
  match m σ with
  | (σ', Some a) => f a σ'
  | (σ', None) => (σ', None)
  end.

Definition throw {A : Type} : M A := fun σ => (σ, None).

(** Reading through a reference: a TypeError when it is undefined. *)
Definition deref {A : Type} (o : option A) : M A :=
  match o with Some a => mret a | None => throw end.

Fixpoint foldM {A S : Type} (f : S -> A -> M S) (l : list A) (s : S) : M S :=
  match l with
  | [] => mret s
  | x :: l' => s' ← f s x; foldM f l' s'
  end.

Fixpoint forM_ {A : Type} (f : A -> M unit) (l : list A) : M unit :=
  match l with
  | [] => mret tt
  | x :: l' => f x ;; forM_ f l'
  end.

Definition newElement (tag : string) : Element :=
  {| tagName := tag; attributes := []; childNodes := []; innerHTML := "" |}.

Definition createElement (tag : string) : M nat := fun σ =>
  let id := fresh (dom σ) in (<[id := newElement tag]> σ, Some id).

Definition getElement (el : nat) : M Element := fun σ => (σ, σ !! el).

Definition readDom {A : Type} (f : Dom -> A) : M A := fun σ => (σ, Some (f σ)).

Definition putElement (el : nat) (e : Element) : M unit := fun σ =>
  (<[el := e]> σ, Some tt).

Fixpoint attr_get (k : string) (attrs : list (string * string)) : option string :=
  match attrs with
  | [] => None
  | (k', v) :: attrs' => if String.eqb k' k then Some v else attr_get k attrs'
  end.

Fixpoint attr_set (k v : string) (attrs : list (string * string))
    : list (string * string) :=
  match attrs with
  | [] => [(k, v)]
  | (k', v') :: attrs' =>
      if String.eqb k' k then (k, v) :: attrs' else (k', v') :: attr_set k v attrs'
  end.

Definition setAttribute (el : nat) (k : string) (v : JsValue) : M unit :=
  e ← getElement el;
  putElement el {| tagName := tagName e;
                   attributes := attr_set k (js_toString v) (attributes e);
                   childNodes := childNodes e;
                   innerHTML := innerHTML e |}.

(** [el.getAttribute(k)]: [None] is null. *)
Definition getAttribute (el : nat) (k : string) : M (option string) :=
  e ← getElement el; mret (attr_get k (attributes e)).

(** The children reached from [el.firstChild] by [nextSibling]. *)
Definition children (el : nat) : M (list nat) :=
  e ← getElement el; mret (childNodes e).

(** [parent.appendChild(child)], for a [child] that has no parent yet (the
    source only appends elements it has just created). *)
Definition appendChild (parent child : nat) : M unit :=
  e ← getElement parent;
  putElement parent {| tagName := tagName e;
                       attributes := attributes e;
                       childNodes := childNodes e ++ [child];
                       innerHTML := innerHTML e |}.

Fixpoint remove_first (x : nat) (l : list nat) : list nat :=
  match l with
  | [] => []
  | y :: l' => if Nat.eqb y x then l' else y :: remove_first x l'
  end.

(** [parent.removeChild(child)]: a NotFoundError when [child] is not a
    child of [parent]. *)
Definition removeChild (parent child : nat) : M unit :=
  e ← getElement parent;
  if bool_decide (child ∈ childNodes e) then
    putElement parent {| tagName := tagName e;
                         attributes := attributes e;
                         childNodes := remove_first child (childNodes e);
                         innerHTML := innerHTML e |}
  else throw.

(** [el.innerHTML = markup], recorded on the element; svg.ts assigns it to
    an element that it has just created and never reads it. In an HTML
    document the assignment accepts every text. *)
Definition setInnerHTML (el : nat) (markup : string) : M unit :=
  e ← getElement el;
  putElement el {| tagName := tagName e;
                   attributes := attributes e;
                   childNodes := childNodes e;
                   innerHTML := markup |}.

(** The first element with tag [tag] among the nodes [ids] and their
    descendants, in document order. *)
Fixpoint firstWithTag (fuel : nat) (σ : Dom) (tag : string) (ids : list nat)
    : option nat :=
  match fuel with
  | O => None
  | S fuel' =>
      match ids with
      | [] => None
      | id :: rest =>
          match σ !! id with
          | None => firstWithTag fuel' σ tag rest
          | Some e =>
              if String.eqb (tagName e) tag then Some id
              else firstWithTag fuel' σ tag (childNodes e ++ rest)
          end
      end
  end.

(** [root.querySelector(tag)] for a tag selector: null when no descendant
    matches. Every step visits one node, so the number of nodes bounds
    the search. *)
Definition querySelector (root : nat) (tag : string) : M (option nat) :=
  e ← getElement root;
  readDom (fun σ => firstWithTag (S (size σ)) σ tag (childNodes e)).

(** [setAttributes]: every entry of the object, in the order of its keys. *)
Definition setAttributes (el : nat) (attrs : list (string * JsValue)) : M nat :=
  forM_ (fun kv => setAttribute el kv.1 kv.2) attrs ;; mret el.

(** ** Rendering one shape *)

Definition orient (pos : float * float) (color : string) : float * float :=
  if String.eqb color "white" then pos else ((7 - pos.1)%float, (7 - pos.2)%float).

Definition pos2user (pos : float * float) : float * float :=
  (pos.1, (7 - pos.2)%float).

Definition circleWidth : float * float := ((3 / 64)%float, (4 / 64)%float).

Definition lineWidth (brush : BrushValue) (current : bool) : float :=
  (match js_or (optNum (bv_lineWidth brush)) (VNum 10) with
   | VNum w => w * (if current then 0.85 else 1) / 64
   | _ => nan
   end)%float.

Definition opacity (brush : BrushValue) (current : bool) : float :=
  (match js_or (optNum (bv_opacity brush)) (VNum 1) with
   | VNum o => o * (if current then 0.9 else 1)
   | _ => nan
   end)%float.

Definition arrowMargin (shorten : bool) : float :=
  ((if shorten then 20 else 10) / 64)%float.

(** [ToNumber] on a number or on undefined, the values that the
    arithmetic of [makeCustomBrush] meets: undefined is NaN. *)
Definition numberOf (v : JsValue) : float :=
  match v with VNum x => x | _ => nan end.

Definition makeCustomBrush (base : BrushValue) (m : DrawModifiers) : BrushValue :=
  {| bv_color := bv_color base;
     bv_opacity :=
       Some (Math_round (numberOf (optNum (bv_opacity base)) * 10) / 10)%float;
     bv_lineWidth :=
       Some (Math_round
               (numberOf (js_or (optNum (mod_lineWidth m))
                                (optNum (bv_lineWidth base)))));
     bv_key :=
       Some (join "" (List.filter truthy
                        [optStr (bv_key base); optNum (mod_lineWidth m)])) |}.

(** [brushes[name]] on the catalog, a plain object: an own property is a
    brush of the catalog; a name that is no own property is answered by
    [Object.prototype] when it is one of its property names, and reads as
    undefined ([None]) otherwise. An absent name reads the property called
    undefined. *)
Definition brushNamed (brushes : gmap string DrawBrush) (name : option string)
    : option BrushValue :=
  match brushes !! js_toString (optStr name) with
  | Some b => Some (own b)
  | None =>
      if bool_decide (js_toString (optStr name) ∈ prototypeNames)
      then Some inherited else None
  end.

Definition renderCustomSvg (customSvg : string) (pos : float * float) : M nat :=
  let '(x, y) := pos2user pos in
  g0 ← createElement "g";
  g ← setAttributes g0
        [("transform",
          VStr ("translate(" +:+ num_toString x +:+ "," +:+ num_toString y +:+ ")"))];
  svg0 ← createElement "svg";
  svg ← setAttributes svg0
        [("width", VNum 1); ("height", VNum 1); ("viewBox", VStr "0 0 100 100")];
  appendChild g svg ;;
  setInnerHTML svg customSvg ;;
  mret g.

Definition renderCircle (brush : option BrushValue) (pos : float * float)
    (current : bool) : M nat :=
  let o := pos2user pos in
  let widths := circleWidth in
  let radius := 0.5%float in
  el ← createElement "circle";
  b ← deref brush;
  setAttributes el
    [("stroke", optStr (bv_color b));
     ("stroke-width", VNum (if current then widths.1 else widths.2));
     ("fill", VStr "none");
     ("opacity", VNum (opacity b current));
     ("cx", VNum o.1);
     ("cy", VNum o.2);
     ("r", VNum (radius - widths.2 / 2)%float)].

(** The attribute object of the line that [renderArrow] returns. *)
Definition arrowAttributes (brush : BrushValue) (orig dest : float * float)
    (current shorten : bool) : list (string * JsValue) :=
  let m := arrowMargin (shorten && negb current) in
  let a := pos2user orig in
  let b := pos2user dest in
  let dx := (b.1 - a.1)%float in
  let dy := (b.2 - a.2)%float in
  let angle := Math_atan2 dy dx in
  let xo := (Math_cos angle * m)%float in
  let yo := (Math_sin angle * m)%float in
  [("stroke", optStr (bv_color brush));
   ("stroke-width", VNum (lineWidth brush current));
   ("stroke-linecap", VStr "round");
   ("marker-end",
    VStr ("url(#arrowhead-" +:+ js_toString (optStr (bv_key brush)) +:+ ")"));
   ("opacity", VNum (opacity brush current));
   ("x1", VNum a.1);
   ("y1", VNum a.2);
   ("x2", VNum (b.1 - xo)%float);
   ("y2", VNum (b.2 - yo)%float)].

Definition renderArrow (brush : option BrushValue) (orig dest : float * float)
    (current shorten : bool) : M nat :=
  el ← createElement "line";
  b ← deref brush;
  setAttributes el (arrowAttributes b orig dest current shorten).

(** [s[0]] *)
Definition firstChar (s : string) : JsValue :=
  match s with
  | EmptyString => VUndefined
  | String c _ => VStr (String c EmptyString)
  end.

Definition renderPiece (baseUrl : string) (pos : float * float)
    (piece : DrawShapePiece) : M nat :=
  let o := pos2user pos in
  initial ← (if String.eqb (piece_role piece) "knight" then mret "n"
             else match firstChar (piece_role piece) with
                  | VStr c => mret c
                  | _ => throw
                  end);
  let name := js_toString (firstChar (piece_color piece)) +:+ toUpperCase initial in
  el ← createElement "image";
  setAttributes el
    [("className", VStr (piece_role piece +:+ " " +:+ piece_color piece));
     ("x", VNum (o.1 - 0.5)%float);
     ("y", VNum (o.2 - 0.5)%float);
     ("width", VNum 1);
     ("height", VNum 1);
     ("href", VStr (baseUrl +:+ name +:+ ".svg"));
     ("transform",
      VStr ("scale(" +:+ js_toString (js_or (optNum (piece_scale piece)) (VNum 1))
            +:+ ")"));
     ("transform-origin", VStr (num_toString o.1 +:+ " " +:+ num_toString o.2))].

Definition renderMarker (brush : BrushValue) : M nat :=
  marker0 ← createElement "marker";
  marker ← setAttributes marker0
    [("id", VStr ("arrowhead-" +:+ js_toString (optStr (bv_key brush))));
     ("orient", VStr "auto");
     ("markerWidth", VNum 4);
     ("markerHeight", VNum 8);
     ("refX", VNum 2.05);
     ("refY", VNum 2.01)];
  path0 ← createElement "path";
  path ← setAttributes path0
    [("d", VStr "M0,0 V4 L3,2 Z"); ("fill", optStr (bv_color brush))];
  appendChild marker path ;;
  setAttribute marker "cgKey" (optStr (bv_key brush)) ;;
  mret marker.

Definition renderShape (state : State) (sc : Shape)
    (brushes : gmap string DrawBrush) (arrowDests : gmap string nat) : M nat :=
  let shape := sc_shape sc in
  let at_orig := orient (key2pos (orig shape)) (orientation state) in
  el ← (if truthy (optStr (customSvg shape)) then
          renderCustomSvg (default "" (customSvg shape)) at_orig
        else
          match piece shape with
          | Some p => renderPiece (pieces_baseUrl (drawable state)) at_orig p
          | None =>
              if truthy (optStr (dest shape)) then
                let d := default "" (dest shape) in
                brush ← match modifiers shape with
                        | Some m =>
                            base ← deref (brushNamed brushes (brush shape));
                            mret (Some (makeCustomBrush base m))
                        | None => mret (brushNamed brushes (brush shape))
                        end;
                renderArrow brush at_orig
                  (orient (key2pos d) (orientation state))
                  (sc_current sc) (manyArrows arrowDests d)
              else renderCircle (brushNamed brushes (brush shape)) at_orig (sc_current sc)
          end);
  setAttribute el "cgHash" (VStr (sc_hash sc)) ;;
  mret el.

(** ** The marker catalog *)

(** [map.set(k, v)] on a [Map], whose entries keep the order of the first
    insertion of their key. A key is the key of a brush value: a string,
    or undefined ([None]). *)
Fixpoint map_set {V : Type} (k : option string) (v : V)
    (m : list (option string * V)) : list (option string * V) :=
  match m with
  | [] => [(k, v)]
  | (k', v') :: m' =>
      if bool_decide (k' = k) then (k, v) :: m' else (k', v') :: map_set k v m'
  end.

(** [keysInDom.has(key)]: the Set holds what [getAttribute] returned, a
    string or null; an undefined key is none of its elements. *)
Definition hasKey (keysInDom : gset (option string)) (key : option string)
    : bool :=
  match key with
  | Some k => bool_decide (Some k ∈ keysInDom)
  | None => false
  end.

(** The first loop of [syncDefs]: the brush of one shape enters the map
    under its key when the shape has a destination. *)
Definition collectBrush (d : Drawable) (needed : list (option string * BrushValue))
    (s : Shape) : M (list (option string * BrushValue)) :=
  if truthy (optStr (dest (sc_shape s))) then
    base ← deref (brushNamed (brushes d) (brush (sc_shape s)));
    let b := match modifiers (sc_shape s) with
             | Some m => makeCustomBrush base m
             | None => base
             end in
    mret (map_set (bv_key b) b needed)
  else mret needed.

Definition syncDefs (d : Drawable) (shapes : list Shape) (defsEl : option nat)
    : M unit :=
  needed ← foldM (collectBrush d) shapes [];
  defs ← deref defsEl;
  els ← children defs;
  keysInDom ← foldM (fun (keys : gset (option string)) el =>
                       k ← getAttribute el "cgKey"; mret ({[ k ]} ∪ keys))
                    els ∅;
  forM_ (fun kb : option string * BrushValue =>
           if hasKey keysInDom kb.1 then mret tt
           else el ← renderMarker kb.2; appendChild defs el)
        needed.

(** ** Reconciling one container *)

(** One turn of the scan of [syncShapes] over the children of the root. *)
Definition scanChild (acc : gmap string bool * list nat) (el : nat)
    : M (gmap string bool * list nat) :=
  elHash ← getAttribute el "cgHash";
  match elHash with
  | Some h =>
      if bool_decide (is_Some (acc.1 !! h)) then mret (<[h := true]> acc.1, acc.2)
      else mret (acc.1, acc.2 ++ [el])
  | None => mret (acc.1, acc.2 ++ [el])
  end.

Definition syncShapes (state : State) (shapes : list Shape)
    (brushes : gmap string DrawBrush) (arrowDests : gmap string nat)
    (root : option nat) : M unit :=
  let targets : gmap string bool :=
    fold_left (fun m sc => <[sc_hash sc := false]> m) shapes ∅ in
  r ← deref root;
  els ← children r;
  scanned ← foldM scanChild els (targets, []);
  let hashesInDom := scanned.1 in
  let toRemove := scanned.2 in
  forM_ (removeChild r) toRemove ;;
  forM_ (fun sc =>
           if negb (default false (hashesInDom !! sc_hash sc)) then
             el ← renderShape state sc brushes arrowDests; appendChild r el
           else mret tt)
        shapes.

(** ** The orchestrator *)

(** [cur]: the shape being drawn, once the pointer is over a square. *)
Definition currentShape (d : Drawable) : option DrawShape :=
  match current d with
  | Some c => if truthy (optStr (mouseSq c)) then Some (cur_shape c) else None
  | None => None
  end.

(** One turn of the counting loop of [renderSvg]. *)
Definition countArrow (arrowDests : gmap string nat) (s : DrawShape)
    : gmap string nat :=
  match dest s with
  | Some d =>
      if truthy (VStr d) then <[d := default 0 (arrowDests !! d) + 1]> arrowDests
      else arrowDests
  | None => arrowDests
  end.

(** The shapes the counting loop of [renderSvg] runs over. *)
Definition allShapes (d : Drawable) : list DrawShape :=
  (shapes d ++ autoShapes d) ++ option_list (currentShape d).

(** [arrowDests] as [renderSvg] builds it. *)
Definition arrowDestsOf (d : Drawable) : gmap string nat :=
  fold_left countArrow (allShapes d) ∅.

(** [shapes] as [renderSvg] builds it. *)
Definition hashedShapes (d : Drawable) : list Shape :=
  let arrowDests := arrowDestsOf d in
  map (fun s => {| sc_shape := s; sc_current := false;
                   sc_hash := shapeHash s arrowDests false |})
      (shapes d ++ autoShapes d)
  ++ match currentShape d with
     | Some cur => [ {| sc_shape := cur; sc_current := true;
                        sc_hash := shapeHash cur arrowDests true |} ]
     | None => []
     end.

Definition fullHashOf (d : Drawable) : string :=
  join ";" (map (fun sc => VStr (sc_hash sc)) (hashedShapes d)).

(** [state.drawable.prevSvgHash = fullHash] *)
Definition setPrevSvgHash (state : State) (h : string) : State :=
  {| drawable := {| shapes := shapes (drawable state);
                    autoShapes := autoShapes (drawable state);
                    current := current (drawable state);
                    brushes := brushes (drawable state);
                    pieces_baseUrl := pieces_baseUrl (drawable state);
                    prevSvgHash := h |};
     orientation := orientation state |}.

(** [s.shape.customSvg], as the two filters of [renderSvg] test it. *)
Definition isCustom (sc : Shape) : bool := truthy (optStr (customSvg (sc_shape sc))).

(** What [renderSvg] does to the DOM once the snapshot has been replaced. *)
Definition reconcile (state : State) (svg customSvg : nat) : M unit :=
  let d := drawable state in
  let arrowDests := arrowDestsOf d in
  let shapes := hashedShapes d in
  defsEl ← querySelector svg "defs";
  shapesEl ← querySelector svg "g";
  customSvgsEl ← querySelector customSvg "g";
  syncDefs d shapes defsEl ;;
  syncShapes state (List.filter (fun s => negb (isCustom s)) shapes)
    (brushes d) arrowDests shapesEl ;;
  syncShapes state (List.filter isCustom shapes)
    (brushes d) arrowDests customSvgsEl.

(** [renderSvg]: the state and the DOM after the call, and whether it
    returned ([Some tt]) or threw ([None]). *)
Definition renderSvg (state : State) (svg customSvg : nat) (σ : Dom)
    : State * (Dom * option unit) :=
  let fullHash := fullHashOf (drawable state) in
  if String.eqb fullHash (prevSvgHash (drawable state)) then (state, (σ, Some tt))
  else
    let state' := setPrevSvgHash state fullHash in
    (state', reconcile state' svg customSvg σ).

End Model.

Abbreviation Dom := (gmap nat Element).

(** ** A runtime to evaluate the model on concrete inputs

    The theorems below hold for every [Runtime]. The closed examples are
    evaluated with this one, which computes the engine functions exactly
    where ECMAScript fixes their value and the examples need them:
    - [demo_toString] is [Number.prototype.toString]: the shortest decimal
      digits that round back to the number, written in positional notation
      from 1e-6 up to 1e21 and in exponent notation elsewhere;
    - [demo_round] is the floor of [x + 1/2], computed on integers;
    - [demo_atan2], [demo_cos] and [demo_sin] cover a line that runs
      along the positive x axis ([atan2(0, x) = 0] for [x > 0],
      [cos 0 = 1], [sin 0 = 0]) and answer NaN elsewhere;
    - [demo_toUpperCase] maps the letters a to z;
    - [demo_key2pos] is [key2pos] of util.ts: file and rank from the two
      character codes of the key. *)

Definition digits_of (z : Z) : string := NilZero.string_of_int (Z.to_int z).

Fixpoint zeros (n : nat) : string :=
  match n with O => "" | S n' => String "0" (zeros n') end.

(** [s] without its trailing zeros. *)
Fixpoint strip_zeros (s : string) : string :=
  match s with
  | EmptyString => EmptyString
  | String c s' =>
      match strip_zeros s' with
      | EmptyString => if Ascii.eqb c "0" then EmptyString else String c EmptyString
      | t => String c t
      end
  end.

Definition pow2Q (e : Z) : Q :=
  if (0 <=? e)%Z then inject_Z (2 ^ e) else (1 / inject_Z (2 ^ (- e)))%Q.

Definition pow10Q (e : Z) : Q :=
  if (0 <=? e)%Z then inject_Z (10 ^ e) else (1 / inject_Z (10 ^ (- e)))%Q.

Definition Qltb (x y : Q) : bool := negb (Qle_bool y x).

(** The least [n] with [x < 10 ^ n], searched upwards from [n]. *)
Fixpoint decimalExponent (fuel : nat) (x : Q) (n : Z) : Z :=
  match fuel with
  | O => n
  | S fuel' => if Qltb x (pow10Q n) then n else decimalExponent fuel' x (n + 1)
  end.

(** Whether the real number [v] rounds to the double [m * 2 ^ e]: it lies
    within half a gap of it, the bounds included when [m] is even. *)
Definition roundsTo (m : positive) (e : Z) (v : Q) : bool :=
  let x := (inject_Z (Zpos m) * pow2Q e)%Q in
  let up := (pow2Q e / 2)%Q in
  let down :=
    if (Zpos m =? 2 ^ 52)%Z && (-1074 <? e)%Z then (pow2Q e / 4)%Q else up in
  let even := Z.even (Zpos m) in
  (if even then Qle_bool (x - down) v else Qltb (x - down) v)
  && (if even then Qle_bool v (x + up) else Qltb v (x + up)).

(** The shortest digits: the least number of digits [nd] for which a
    multiple of [10 ^ (n - nd)] rounds to the double, and the multiple that
    is closest to it. *)
Fixpoint shortestDigits (fuel : nat) (m : positive) (e : Z) (n : Z) (nd : Z)
    : Z * Z :=
  let x := (inject_Z (Zpos m) * pow2Q e)%Q in
  let s := pow10Q (n - nd) in
  let c := Qfloor (x / s) in
  let ok c' := roundsTo m e (inject_Z c' * s) in
  let closer := Qle_bool (x - inject_Z c * s) (inject_Z (c + 1) * s - x) in
  match fuel with
  | O => (c, nd)
  | S fuel' =>
      if ok c && (closer || negb (ok (c + 1)%Z)) then (c, nd)
      else if ok (c + 1)%Z then ((c + 1)%Z, nd)
      else shortestDigits fuel' m e n (nd + 1)
  end.

(** The digits [ds] of a number below [10 ^ n], in positional notation
    from 1e-6 up to 1e21 and in exponent notation elsewhere. *)
Definition formatDigits (ds : string) (n : Z) : string :=
  let k := Z.of_nat (String.length ds) in
  if (k <=? n)%Z && (n <=? 21)%Z then ds +:+ zeros (Z.to_nat (n - k))
  else if (0 <? n)%Z && (n <=? 21)%Z then
    String.substring 0 (Z.to_nat n) ds +:+ "." +:+
    String.substring (Z.to_nat n) (Z.to_nat (k - n)) ds
  else if (-6 <? n)%Z && (n <=? 0)%Z then "0." +:+ zeros (Z.to_nat (- n)) +:+ ds
  else
    let ex := (n - 1)%Z in
    let mant := if (k =? 1)%Z then ds
                else String.substring 0 1 ds +:+ "." +:+
                     String.substring 1 (Z.to_nat (k - 1)) ds in
    mant +:+ "e" +:+ (if (0 <=? ex)%Z then "+" else "-") +:+ digits_of (Z.abs ex).

Definition finite_toString (m : positive) (e : Z) : string :=
  let x := (inject_Z (Zpos m) * pow2Q e)%Q in
  let bits := Z.log2 (Zpos m) in
  let n := decimalExponent 8 x ((e + bits) * 30103 / 100000 - 1) in
  let '(c, nd) := shortestDigits 17 m e n 1 in
  let ds := digits_of c in
  formatDigits (strip_zeros ds) (n + (Z.of_nat (String.length ds) - nd)).

Definition demo_toString (x : float) : string :=
  match Prim2SF x with
  | S754_zero _ => "0"
  | S754_infinity false => "Infinity"
  | S754_infinity true => "-Infinity"
  | S754_nan => "NaN"
  | S754_finite s m e => (if s then "-" else "") +:+ finite_toString m e
  end.

Definition float_of_Z (z : Z) : float :=
  match z with
  | Z0 => 0%float
  | Zpos _ => PrimFloat.of_uint63 (Uint63.of_Z z)
  | Zneg p => (- PrimFloat.of_uint63 (Uint63.of_Z (Zpos p)))%float
  end.

Definition demo_round (x : float) : float :=
  match Prim2SF x with
  | S754_finite s m e =>
      if (0 <=? e)%Z then x
      else
        let k := (- e)%Z in
        let n := if s then Zneg m else Zpos m in
        let q := ((2 * n + 2 ^ k) / 2 ^ (k + 1))%Z in
        if (q =? 0)%Z && s then (- 0)%float else float_of_Z q
  | _ => x
  end.

Definition demo_atan2 (y x : float) : float :=
  if PrimFloat.eqb y 0 && PrimFloat.ltb 0 x then y else nan.

Definition demo_cos (x : float) : float :=
  if PrimFloat.eqb x 0 then 1%float else nan.

Definition demo_sin (x : float) : float :=
  if PrimFloat.eqb x 0 then x else nan.

Definition upper_ascii (c : ascii) : ascii :=
  let n := nat_of_ascii c in
  if (97 <=? n)%nat && (n <=? 122)%nat then ascii_of_nat (n - 32) else c.

Fixpoint demo_toUpperCase (s : string) : string :=
  match s with
  | EmptyString => EmptyString
  | String c s' => String (upper_ascii c) (demo_toUpperCase s')
  end.

Definition charCodeAt (s : string) (i : nat) : float :=
  match String.get i s with
  | Some c => float_of_Z (Z.of_nat (nat_of_ascii c))
  | None => nan
  end.

Definition demo_key2pos (k : string) : float * float :=
  ((charCodeAt k 0 - 97)%float, (charCodeAt k 1 - 49)%float).

Definition demo : Runtime :=
  {| num_toString := demo_toString;
     toUpperCase := demo_toUpperCase;
     Math_round := demo_round;
     Math_atan2 := demo_atan2;
     Math_cos := demo_cos;
     Math_sin := demo_sin;
     key2pos := demo_key2pos |}.

(** ** A runtime that prints no two numbers alike

    [lawful] is [demo] with a conversion of numbers to strings for which
    the law [prints_numbers] below is proved. It prints a number as
    [demo_toString] does where that text reads back as the number with
    [readNumber], and in a binary notation of sign, mantissa and exponent
    behind a number sign elsewhere. [readNumber] reads Infinity, NaN and
    positional notation, exactly where the digits stay below 2^53 and the
    power of ten below 10^23: 0.5, 2, 10 and 0.15625 print as in
    ECMAScript. *)

(** The bits of [p], the lowest first, closed by a point. *)
Fixpoint binaryDigits (p : positive) : string :=
  match p with
  | xH => "."
  | xO q => String "0" (binaryDigits q)
  | xI q => String "1" (binaryDigits q)
  end.

(** An integer: its sign and the bits of its absolute value. *)
Definition binaryZ (z : Z) : string :=
  match z with
  | Z0 => "0"
  | Zpos p => String "+" (binaryDigits p)
  | Zneg p => String "-" (binaryDigits p)
  end.

(** A number in binary notation, behind a number sign: the sign, then the
    mantissa and the exponent of a finite number. *)
Definition binaryNumber (f : spec_float) : string :=
  match f with
  | S754_zero s => if s then "#-0" else "#+0"
  | S754_infinity s => if s then "#-i" else "#+i"
  | S754_nan => "#n"
  | S754_finite s m e =>
      String "#" (String (if s then "-" else "+") (String "f" (binaryDigits m +:+ binaryZ e)))
  end.

(** The digits of [s] as an integer, and the number of digits after the
    point. *)
Fixpoint readDigits (s : string) (n : Z) (k : option nat) : option (Z * nat) :=
  match s with
  | EmptyString => Some (n, default 0%nat k)
  | String c s' =>
      let d := nat_of_ascii c in
      if Ascii.eqb c "." then
        match k with None => readDigits s' n (Some 0%nat) | Some _ => None end
      else if (48 <=? d)%nat && (d <=? 57)%nat then
        readDigits s' (10 * n + Z.of_nat (d - 48))%Z (S <$> k)
      else None
  end.

(** The number that digits with at most one point denote: the integer of
    the digits divided by the power of ten of the digits after the
    point. *)
Definition readPositional (s : string) : option float :=
  match readDigits s 0 None with
  | Some (n, k) =>
      if (n <? 2 ^ 53)%Z && (k <=? 22)%nat
      then Some (float_of_Z n / float_of_Z (10 ^ Z.of_nat k))%float
      else None
  | None => None
  end.

Definition readUnsigned (s : string) : option float :=
  if String.eqb s "Infinity" then Some infinity
  else if String.eqb s "NaN" then Some nan
  else readPositional s.

Definition readNumber (s : string) : option float :=
  match s with
  | String "-" s' => PrimFloat.opp <$> readUnsigned s'
  | _ => readUnsigned s
  end.

#[local] Instance spec_float_eq_dec : EqDecision spec_float.
Proof. solve_decision. Defined.

(** Whether [s] is a text that does not start with a number sign and that
    [readNumber] reads as [x]. *)
Definition readsBack (s : string) (x : float) : bool :=
  match s with
  | EmptyString => false
  | String c _ =>
      negb (Ascii.eqb c "#")
      && bool_decide (Prim2SF <$> readNumber s = Some (Prim2SF x))
  end.

(** [demo_toString] where its text reads back, the binary notation
    elsewhere. *)
Definition lawful_toString (x : float) : string :=
  let s := demo_toString x in
  if readsBack s x then s else binaryNumber (Prim2SF x).

Definition lawful : Runtime :=
  {| num_toString := lawful_toString;
     toUpperCase := demo_toUpperCase;
     Math_round := demo_round;
     Math_atan2 := demo_atan2;
     Math_cos := demo_cos;
     Math_sin := demo_sin;
     key2pos := demo_key2pos |}.

(** ** Notions used in the statements *)

(** The law of Number::toString (ECMA-262) that the hash of a number
    rests on: the text of a number other than 0 and NaN is not empty, and
    reading it gives the number back, so that no two such numbers print
    alike. *)
Definition prints_numbers (rt : Runtime) : Prop :=
  (forall x, num_truthy x = true -> num_toString x <> "")
  /\ (forall x y, num_truthy x = true -> num_truthy y = true ->
        num_toString x = num_toString y -> x = y).

(** The text a token contributes to a filtered join: nothing when it is
    falsy. *)
Definition token_text {rt : Runtime} (v : JsValue) : string :=
  if truthy v then js_toString v else "".

(** [join] on the texts of the elements. *)
Fixpoint sjoin (sep : string) (l : list string) : string :=
  match l with
  | [] => ""
  | [s] => s
  | s :: l' => s +:+ sep +:+ sjoin sep l'
  end.

Fixpoint comma_free (s : string) : bool :=
  match s with
  | EmptyString => true
  | String c s' => negb (Ascii.eqb c ",") && comma_free s'
  end.

(** A shape with one field replaced. *)
Definition with_orig (o : string) (s : DrawShape) : DrawShape :=
  {| orig := o; dest := dest s; brush := brush s; modifiers := modifiers s;
     piece := piece s; customSvg := customSvg s |}.

Definition with_dest (d : option string) (s : DrawShape) : DrawShape :=
  {| orig := orig s; dest := d; brush := brush s; modifiers := modifiers s;
     piece := piece s; customSvg := customSvg s |}.

Definition with_brush (b : option string) (s : DrawShape) : DrawShape :=
  {| orig := orig s; dest := dest s; brush := b; modifiers := modifiers s;
     piece := piece s; customSvg := customSvg s |}.

Definition with_modifiers (m : option DrawModifiers) (s : DrawShape) : DrawShape :=
  {| orig := orig s; dest := dest s; brush := brush s; modifiers := m;
     piece := piece s; customSvg := customSvg s |}.

Definition with_piece (p : option DrawShapePiece) (s : DrawShape) : DrawShape :=
  {| orig := orig s; dest := dest s; brush := brush s; modifiers := modifiers s;
     piece := p; customSvg := customSvg s |}.

Definition with_customSvg (c : option string) (s : DrawShape) : DrawShape :=
  {| orig := orig s; dest := dest s; brush := brush s; modifiers := modifiers s;
     piece := piece s; customSvg := c |}.

(** The 32-bit value that [customSvgHash] prints. *)
Definition rollingHash (s : string) : Z := fold_left hashStep (charCodes s) 0%Z.

(** The loop of [customSvgHash] on the code units of a text, whatever they
    are: a text of JavaScript is a sequence of 16-bit code units. *)
Definition codesHash (codes : list Z) : string :=
  "custom-" +:+ int_toString (fold_left hashStep codes 0%Z).

(** The number a hash shows: none for an absent number, 0 and NaN, which
    [filter] drops or [||] replaces by the empty text. *)
Definition shownNumber (o : option float) : option float :=
  match o with
  | Some x => if num_truthy x then Some x else None
  | None => None
  end.

(** What a hash shows of the markup: none for an absent or empty text, and
    the rolling hash of the text otherwise. *)
Definition shownMarkup (o : option string) : option Z :=
  match o with
  | Some t => if String.eqb t "" then None else Some (rollingHash t)
  | None => None
  end.

(** The line width of optional modifiers. *)
Definition lineWidthOf (m : option DrawModifiers) : option float :=
  m ≫= mod_lineWidth.

(** The length of a join, from the lengths of its elements. *)
Definition weight (sep : string) (l : list string) : nat :=
  fold_right (fun x acc => String.length x + String.length sep + acc) 0 l.

(** The texts a token list leaves after [filter]. *)
Definition texts {rt : Runtime} (l : list JsValue) : list string :=
  map join_item (List.filter truthy l).

(** A destination that is absent or not empty. *)
Definition dest_ok (d : option string) : Prop :=
  match d with
  | Some k => k <> ""
  | None => True
  end.

(** The shapes of a list that end on the square [q]. *)
Definition arrowsInto (q : string) (l : list DrawShape) : list DrawShape :=
  List.filter (fun s => bool_decide (dest s = Some q)) l.

(** The distinct origins of the arrows that end on [q]. *)
Definition originsInto (q : string) (l : list DrawShape) : list string :=
  remove_dups (map orig (arrowsInto q l)).

(** A drawable with no shape being drawn. *)
Definition without_current (d : Drawable) : Drawable :=
  {| shapes := shapes d; autoShapes := autoShapes d; current := None;
     brushes := brushes d; pieces_baseUrl := pieces_baseUrl d;
     prevSvgHash := prevSvgHash d |}.

(** The value of an attribute of a node of the store, and the children of
    a node. *)
Definition attr_of (σ : Dom) (el : nat) (k : string) : option string :=
  match σ !! el with
  | Some e => attr_get k (attributes e)
  | None => None
  end.

Definition children_of (σ : Dom) (el : nat) : list nat :=
  match σ !! el with
  | Some e => childNodes e
  | None => []
  end.

(** The attributes an attribute object leaves on an element that had
    [attrs0]. *)
Definition set_all {rt : Runtime} (attrs : list (string * JsValue))
    (attrs0 : list (string * string)) : list (string * string) :=
  fold_left (fun a kv => attr_set kv.1 (js_toString kv.2) a) attrs attrs0.

Definition with_attributes (attrs : list (string * string)) (e : Element) : Element :=
  {| tagName := tagName e; attributes := attrs;
     childNodes := childNodes e; innerHTML := innerHTML e |}.

Definition with_childNodes (l : list nat) (e : Element) : Element :=
  {| tagName := tagName e; attributes := attributes e;
     childNodes := l; innerHTML := innerHTML e |}.

Definition with_innerHTML (t : string) (e : Element) : Element :=
  {| tagName := tagName e; attributes := attributes e;
     childNodes := childNodes e; innerHTML := t |}.

(** [keeps σ0 m Q σ]: run from [σ], the computation [m] leaves every node
    of [σ0] as it is, and when it returns [a] then [Q a] holds of the store
    it leaves. *)
Definition keeps {A : Type} (σ0 : Dom) (m : M A) (Q : A -> Dom -> Prop)
    (σ : Dom) : Prop :=
  σ0 ⊆ (m σ).1 /\ forall a, (m σ).2 = Some a -> Q a (m σ).1.

(** The cgHash tags and the cgKey tags of the children of a node. *)
Definition child_hashes (σ : Dom) (root : nat) : list (option string) :=
  map (fun c => attr_of σ c "cgHash") (children_of σ root).

Definition child_keys (σ : Dom) (defs : nat) : list (option string) :=
  map (fun c => attr_of σ c "cgKey") (children_of σ defs).

(** The hashes of a target list. *)
Definition target_hashes (shapes : list Shape) : list string := map sc_hash shapes.

(** A child stays when its tag is the hash of a target. *)
Definition stays (σ : Dom) (shapes : list Shape) (c : nat) : bool :=
  match attr_of σ c "cgHash" with
  | Some h => bool_decide (h ∈ target_hashes shapes)
  | None => false
  end.

(** The scan of [syncShapes], computed from what a store holds. *)
Definition scanStep (σ : Dom) (acc : gmap string bool * list nat) (el : nat)
    : gmap string bool * list nat :=
  match attr_of σ el "cgHash" with
  | Some h =>
      if bool_decide (is_Some (acc.1 !! h)) then (<[h := true]> acc.1, acc.2)
      else (acc.1, acc.2 ++ [el])
  | None => (acc.1, acc.2 ++ [el])
  end.

Definition targetsMap (shapes : list Shape) : gmap string bool :=
  fold_left (fun m sc => <[sc_hash sc := false]> m) shapes ∅.

(** The loop that appends what is needed, as [syncShapes] and [syncDefs]
    both end. *)
Definition appendLoop {A : Type} (render : A -> M nat) (need : A -> bool)
    (root : nat) (items : list A) : M unit :=
  forM_ (fun x => if need x then el ← render x; appendChild root el else mret tt)
        items.

(** A node of the store. *)
Definition alive (σ : Dom) (n : nat) : Prop := is_Some (σ !! n).

(** [keysInDom.has(key)] computed from what a store holds: a defined key
    that is the cgKey tag of a child of the catalog. *)
Definition keyPresent (σ : Dom) (defs : nat) (key : option string) : bool :=
  match key with
  | Some k => bool_decide (Some k ∈ child_keys σ defs)
  | None => false
  end.

(** The brush of an arrow, its modifiers applied, as [syncDefs] and
    [renderShape] both resolve it: [None] when [brushes[name]] is
    undefined. *)
Definition effectiveBrush {rt : Runtime} (d : Drawable) (s : DrawShape)
    : option BrushValue :=
  match brushNamed (brushes d) (brush s) with
  | Some base =>
      Some (match modifiers s with
            | Some m => makeCustomBrush base m
            | None => base
            end)
  | None => None
  end.

(** The keys of the derived brushes that the arrows of a shape list refer
    to; a key is a string, or undefined ([None]) for an arrow without
    modifiers whose brush is a value inherited from [Object.prototype]. *)
Definition requiredKeys {rt : Runtime} (d : Drawable) (shapes : list Shape)
    : list (option string) :=
  omap (fun sc => if truthy (optStr (dest (sc_shape sc)))
                  then bv_key <$> effectiveBrush d (sc_shape sc)
                  else None)
       shapes.

(** The first loop of [syncDefs] as a function. *)
Fixpoint collectAll {rt : Runtime} (d : Drawable) (shapes : list Shape)
    (acc : list (option string * BrushValue))
    : option (list (option string * BrushValue)) :=
  match shapes with
  | [] => Some acc
  | s :: rest =>
      if truthy (optStr (dest (sc_shape s))) then
        match effectiveBrush d (sc_shape s) with
        | Some b => collectAll d rest (map_set (bv_key b) b acc)
        | None => None
        end
      else collectAll d rest acc
  end.

(** The text that [setAttribute] makes of a key. *)
Definition keyText {rt : Runtime} (key : option string) : string :=
  js_toString (optStr key).

(** The brush of every shape with a destination is defined: the first
    loop of [syncDefs] ends without a throw. *)
Definition resolves {rt : Runtime} (d : Drawable) (shapes : list Shape) : Prop :=
  forall sc, sc ∈ shapes -> truthy (optStr (dest (sc_shape sc))) = true ->
             is_Some (brushNamed (brushes d) (brush (sc_shape sc))).

(** Cycles of [syncDefs] on one catalog, each with its drawable and its
    hashed shapes and each run from the store that the one before left,
    whether that one returned or threw: the store after the last. *)
Definition afterCycles {rt : Runtime} (cycles : list (Drawable * list Shape))
    (defs : nat) (σ : Dom) : Dom :=
  fold_left (fun σ1 c => (syncDefs c.1 c.2 (Some defs) σ1).1) cycles σ.

(** ** Inputs of the examples *)

Definition green : DrawBrush :=
  {| brush_key := "g"; brush_color := "#15781B";
     brush_opacity := 1; brush_lineWidth := 10 |}.

Definition red : DrawBrush :=
  {| brush_key := "r"; brush_color := "#882020";
     brush_opacity := 1; brush_lineWidth := 10 |}.

Definition demoBrushes : gmap string DrawBrush :=
  {[ "green" := green; "red" := red ]}.

Definition arrowShape (o d b : string) : DrawShape :=
  {| orig := o; dest := Some d; brush := Some b; modifiers := None;
     piece := None; customSvg := None |}.

Definition circleShape (o b : string) : DrawShape :=
  {| orig := o; dest := None; brush := Some b; modifiers := None;
     piece := None; customSvg := None |}.

Definition markupShape (o text : string) : DrawShape :=
  {| orig := o; dest := None; brush := None; modifiers := None;
     piece := None; customSvg := Some text |}.

(** A white knight on a1 at the scale [x]. *)
Definition knightShape (x : option float) : DrawShape :=
  {| orig := "a1"; dest := None; brush := None; modifiers := None;
     piece := Some {| piece_role := "knight"; piece_color := "white";
                      piece_scale := x |};
     customSvg := None |}.

Definition drawing (committed : list DrawShape) (cur : option DrawCurrent)
    (prev : string) : Drawable :=
  {| shapes := committed; autoShapes := []; current := cur;
     brushes := demoBrushes; pieces_baseUrl := "/pieces/"; prevSvgHash := prev |}.

(** The arrow b1-h1 being drawn, the pointer over h1. *)
Definition drawing_b1_h1 : DrawCurrent :=
  {| cur_shape := arrowShape "b1" "h1" "green"; mouseSq := Some "h1" |}.

(** An overlay with nothing drawn: the svg 0 holds the defs 1 and the
    group 2, the svg 3 of the custom markup holds the group 4. *)
Definition emptyOverlay : Dom :=
  list_to_map
    [ (0, with_childNodes [1; 2] (newElement "svg"));
      (1, newElement "defs");
      (2, newElement "g");
      (3, with_childNodes [4] (newElement "svg"));
      (4, newElement "g") ].

Definition onBoard (d : Drawable) : State :=
  {| drawable := d; orientation := "white" |}.

(** The same arrow twice; one circle, and what a first cycle makes of the
    empty overlay for it; then the same circle twice, and the circle with
    an arrow, as second cycles. *)
Definition sameArrowTwice : Drawable :=
  drawing [arrowShape "a1" "h1" "green"; arrowShape "a1" "h1" "green"] None "".

Definition oneCircle : Drawable := drawing [circleShape "a1" "green"] None "".

Definition afterOneCircle : State * (Dom * option unit) :=
  renderSvg (rt := demo) (onBoard oneCircle) 0 3 emptyOverlay.

Definition sameCircleTwice : Drawable :=
  drawing [circleShape "a1" "green"; circleShape "a1" "green"] None "a1,green".

Definition circleAndArrow : Drawable :=
  drawing [circleShape "a1" "green"; arrowShape "b1" "h1" "green"] None "a1,green".

(** Four cycles on the catalog: a green arrow; an arrow whose brush is
    undefined, so that the cycle throws; a circle alone, so that the green
    brush is no longer referred to; the green arrow again with a red arrow
    of line width 5. *)
Definition thickRedArrow : DrawShape :=
  with_modifiers (Some {| mod_lineWidth := Some 5%float |})
    (arrowShape "b1" "h1" "red").

Definition fourCycles : list (Drawable * list Shape) :=
  map (fun d => (d, hashedShapes (rt := demo) d))
    [ drawing [arrowShape "a1" "h1" "green"] None "";
      drawing [arrowShape "a1" "h1" "blue"] None "";
      drawing [circleShape "a1" "green"] None "";
      drawing [arrowShape "a1" "h1" "green"; thickRedArrow] None "" ].

(** Two cycles for one arrow whose brush name is a property of
    [Object.prototype]. *)
Definition inheritedCycles : list (Drawable * list Shape) :=
  map (fun d => (d, hashedShapes (rt := demo) d))
    [ drawing [arrowShape "a1" "h1" "constructor"] None "";
      drawing [arrowShape "a1" "h1" "constructor"] None "" ].

(** The pass of [syncShapes] for one circle on the group of the empty
    overlay, and the pass for a circle and an arrow on what it leaves. *)
Definition circlePass : Dom * option unit :=
  syncShapes (rt := demo) (onBoard oneCircle) (hashedShapes (rt := demo) oneCircle)
    demoBrushes (arrowDestsOf oneCircle) (Some 2) emptyOverlay.

Definition circleAndArrowPass : Dom * option unit :=
  syncShapes (rt := demo) (onBoard circleAndArrow)
    (hashedShapes (rt := demo) circleAndArrow)
    demoBrushes (arrowDestsOf circleAndArrow) (Some 2) circlePass.1.

(** A cycle of [syncDefs] for one green arrow on the catalog of the empty
    overlay. *)
Definition greenArrowCycle : Dom * option unit :=
  syncDefs (rt := demo) (drawing [arrowShape "a1" "h1" "green"] None "")
    (hashedShapes (rt := demo) (drawing [arrowShape "a1" "h1" "green"] None ""))
    (Some 1) emptyOverlay.

(** A drawing with an arrow whose brush, blue, is undefined. *)
Definition blueArrow : Drawable :=
  drawing [circleShape "a1" "green"; arrowShape "a1" "h1" "blue"] None "".

(** A circle, an arrow and a shape with markup. *)
Definition mixedDrawing : Drawable :=
  drawing [circleShape "a1" "green"; arrowShape "b1" "h1" "green";
           markupShape "c3" "<rect/>"] None "".

(** ** Notions used in the further properties *)

(** A text without the character [c]. *)
Fixpoint free_of (c : ascii) (s : string) : bool :=
  match s with
  | EmptyString => true
  | String x s' => negb (Ascii.eqb x c) && free_of c s'
  end.

(** The shapes [renderShape] can render: markup always; a piece when its
    role is not empty; an arrow or a circle when reading its brush from the
    catalog gives a value ([brushNamed]), an own brush or one inherited
    from [Object.prototype]. *)
Definition renderable {rt : Runtime} (bs : gmap string DrawBrush)
    (shape : DrawShape) : bool :=
  if truthy (optStr (customSvg shape)) then true
  else match piece shape with
       | Some p => negb (String.eqb (piece_role p) "")
       | None => match brushNamed bs (brush shape) with
                 | Some _ => true
                 | None => false
                 end
       end.

(** The coordinates of the files and ranks of the board. *)
Definition boardCoord (x : float) : Prop :=
  In x [0; 1; 2; 3; 4; 5; 6; 7]%float.

(** The element a renderer makes of a new element and an attribute
    object. *)
Definition elementWith {rt : Runtime} (tag : string)
    (attrs : list (string * JsValue)) : Element :=
  with_attributes (set_all attrs []) (newElement tag).

(** The tag of the element [renderShape] returns for a shape. *)
Definition shapeTag (shape : DrawShape) : string :=
  if truthy (optStr (customSvg shape)) then "g"
  else match piece shape with
       | Some _ => "image"
       | None => if truthy (optStr (dest shape)) then "line" else "circle"
       end.

(** A renderer that returns one new element of a given tag, the first
    unused node of the store. *)
Definition single {rt : Runtime} (m : M nat) (tag : string) (σ : Dom) : Prop :=
  exists attrs,
    m σ = (<[fresh (dom σ) := elementWith tag attrs]> σ, Some (fresh (dom σ))).

(** An element with the tag and the attributes of another. *)
Definition same_but_children (e e' : Element) : Prop :=
  tagName e' = tagName e /\ attributes e' = attributes e.

(** The container that [querySelector] finds under a node, if it returns
    one. *)
Definition found (σ : Dom) (root : nat) (tag : string) : option nat :=
  match (querySelector root tag σ).2 with
  | Some (Some el) => Some el
  | _ => None
  end.

(** A well-formed overlay: [querySelector] finds the three containers, the
    two groups are different nodes, and the children of the groups are
    nodes of the store that carry distinct cgHash tags. *)
Definition overlay (σ : Dom) (svg customSvg defsEl shapesEl customSvgsEl : nat)
    : Prop :=
  found σ svg "defs" = Some defsEl
  /\ found σ svg "g" = Some shapesEl
  /\ found σ customSvg "g" = Some customSvgsEl
  /\ shapesEl <> customSvgsEl
  /\ Forall (alive σ) (children_of σ shapesEl)
  /\ Forall (alive σ) (children_of σ customSvgsEl)
  /\ NoDup (child_hashes σ shapesEl)
  /\ NoDup (child_hashes σ customSvgsEl).

(** * Properties *)

(** ** Strings and joins *)

Lemma app_nil_l (b : string) : "" +:+ b = b.
Proof. reflexivity. Qed.

Lemma app_cons (c : ascii) (a b : string) :
  String c a +:+ b = String c (a +:+ b).
Proof. reflexivity. Qed.

Ltac string_ind a :=
  induction a as [|? a ?IH]; rewrite ?app_nil_l, ?app_cons; simpl.

Lemma string_length_app (a b : string) :
  String.length (a +:+ b) = String.length a + String.length b.
Proof. string_ind a; [reflexivity | now rewrite IH]. Qed.

Lemma app_empty_r (a : string) : a +:+ "" = a.
Proof. string_ind a; [reflexivity | now rewrite IH]. Qed.

Lemma app_assoc_s (a b c : string) : (a +:+ b) +:+ c = a +:+ (b +:+ c).
Proof. string_ind a; [reflexivity | now rewrite IH]. Qed.

Lemma app_cancel_l (p a b : string) : p +:+ a = p +:+ b -> a = b.
Proof.
  induction p as [|c p IH]; rewrite ?app_nil_l, ?app_cons; intros H;
    [exact H | injection H; auto].
Qed.

Lemma ascii_list_app (a b : string) :
  list_ascii_of_string (a +:+ b)
  = list_ascii_of_string a ++ list_ascii_of_string b.
Proof. string_ind a; [reflexivity | now rewrite IH]. Qed.

Lemma ascii_list_inj (a b : string) :
  list_ascii_of_string a = list_ascii_of_string b -> a = b.
Proof.
  intros H. rewrite <- (string_of_list_ascii_of_string a),
    <- (string_of_list_ascii_of_string b). now rewrite H.
Qed.

Lemma app_cancel_r (a b q : string) : a +:+ q = b +:+ q -> a = b.
Proof.
  intros H. apply ascii_list_inj.
  apply (f_equal list_ascii_of_string) in H.
  rewrite !ascii_list_app in H. now apply app_inv_tail in H.
Qed.

(** What stands before and after an element of a join. *)
Lemma sjoin_cons (sep s : string) (Y : list string) :
  sjoin sep (s :: Y) = s +:+ fold_right (fun y acc => sep +:+ y +:+ acc) "" Y.
Proof.
  revert s. induction Y as [|y Y IH]; intros s.
  - simpl. now rewrite app_empty_r.
  - change (sjoin sep (s :: y :: Y)) with (s +:+ sep +:+ sjoin sep (y :: Y)).
    now rewrite IH.
Qed.

Lemma sjoin_middle (sep s : string) (X Y : list string) :
  sjoin sep (X ++ s :: Y)
  = fold_right (fun x acc => x +:+ sep +:+ acc) "" X
    +:+ s +:+ fold_right (fun y acc => sep +:+ y +:+ acc) "" Y.
Proof.
  induction X as [|x X IH].
  - simpl. apply sjoin_cons.
  - simpl. destruct (X ++ s :: Y) as [|z Z] eqn:E.
    + destruct X; discriminate.
    + rewrite IH. now rewrite !app_assoc_s.
Qed.

Lemma weight_app (sep : string) (X Y : list string) :
  weight sep (X ++ Y) = weight sep X + weight sep Y.
Proof. induction X as [|x X IH]; simpl; [reflexivity | rewrite IH; lia]. Qed.

Lemma length_sjoin (sep : string) (l : list string) :
  String.length (sjoin sep l) = weight sep l - String.length sep.
Proof.
  destruct l as [|s Y]; [reflexivity|].
  rewrite sjoin_cons, string_length_app. simpl.
  assert (H : String.length (fold_right (fun y acc => sep +:+ y +:+ acc) "" Y)
              = weight sep Y).
  { induction Y as [|y Y IH]; simpl; [reflexivity|].
    rewrite !string_length_app, IH. lia. }
  rewrite H. lia.
Qed.

Section Hashing.
Context {rt : Runtime}.

Lemma join_sjoin (sep : string) (l : list JsValue) :
  join sep l = sjoin sep (map join_item l).
Proof.
  induction l as [|v l IH]; [reflexivity|].
  destruct l as [|w l]; [reflexivity|].
  change (join sep (v :: w :: l)) with (join_item v +:+ sep +:+ join sep (w :: l)).
  now rewrite IH.
Qed.

Lemma texts_app (A B : list JsValue) : texts (A ++ B) = texts A ++ texts B.
Proof. unfold texts. now rewrite List.filter_app, map_app. Qed.

Lemma texts_one (t : JsValue) :
  texts [t] = if truthy t then [token_text t] else [].
Proof.
  unfold texts, token_text. simpl. destruct (truthy t) eqn:E; [|reflexivity].
  destruct t; try reflexivity. discriminate.
Qed.

Lemma hash_texts (sep : string) (l : list JsValue) :
  join sep (List.filter truthy l) = sjoin sep (texts l).
Proof. apply join_sjoin. Qed.

(** Inserting a non-empty text into a join makes it longer. *)
Lemma sjoin_insert_longer (sep s : string) (X Y Z : list string) :
  s <> "" ->
  String.length (sjoin sep (X ++ Y))
  < String.length (sjoin sep (X ++ s :: Z ++ Y)).
Proof.
  intros Hs. rewrite !length_sjoin.
  rewrite !weight_app. simpl. rewrite weight_app.
  assert (0 < String.length s) by (destruct s; simpl; [congruence | lia]).
  lia.
Qed.

(** Changing one token of the array changes the joined hash as soon as
    the text of the token changes. *)
Lemma join_change (sep : string) (A B : list JsValue) (t t' : JsValue) :
  token_text t <> token_text t' ->
  join sep (List.filter truthy (A ++ t :: B))
  <> join sep (List.filter truthy (A ++ t' :: B)).
Proof.
  intros Hne. rewrite !hash_texts.
  change (A ++ t :: B) with (A ++ [t] ++ B).
  change (A ++ t' :: B) with (A ++ [t'] ++ B).
  rewrite !texts_app, !texts_one.
  destruct (truthy t) eqn:Et, (truthy t') eqn:Et'.
  - simpl. rewrite !sjoin_middle. intros H.
    apply app_cancel_l, app_cancel_r in H. contradiction.
  - intros H. apply (f_equal String.length) in H.
    assert (Hs : token_text t <> "").
    { intros E. apply Hne. rewrite E. unfold token_text. now rewrite Et'. }
    pose proof (sjoin_insert_longer sep _ (texts A) (texts B) [] Hs) as L.
    simpl in *. lia.
  - intros H. apply (f_equal String.length) in H.
    assert (Hs : token_text t' <> "").
    { intros E. apply Hne. rewrite E. unfold token_text. now rewrite Et. }
    pose proof (sjoin_insert_longer sep _ (texts A) (texts B) [] Hs) as L.
    simpl in *. lia.
  - exfalso. apply Hne. unfold token_text. now rewrite Et, Et'.
Qed.

(** Conversely, a token whose text does not change leaves the hash as it
    is, provided it stays on the same side of [filter]. *)
Lemma join_same (sep : string) (A B : list JsValue) (t t' : JsValue) :
  truthy t = truthy t' -> token_text t = token_text t' ->
  join sep (List.filter truthy (A ++ t :: B))
  = join sep (List.filter truthy (A ++ t' :: B)).
Proof.
  intros Ht Htxt. rewrite !hash_texts.
  change (A ++ t :: B) with (A ++ [t] ++ B).
  change (A ++ t' :: B) with (A ++ [t'] ++ B).
  rewrite !texts_app, !texts_one. now rewrite Ht, Htxt.
Qed.

End Hashing.

(** ** The rolling hash of embedded markup *)

Lemma toInt32_congr (z : Z) : exists k : Z, toInt32 z = (z + k * 2 ^ 32)%Z.
Proof.
  unfold toInt32, toUint32.
  pose proof (Z.div_mod z (2 ^ 32) ltac:(lia)) as D.
  destruct (z mod 2 ^ 32 <? 2 ^ 31)%Z.
  - exists (- (z / 2 ^ 32))%Z. lia.
  - exists (- (z / 2 ^ 32) - 1)%Z. lia.
Qed.

Lemma hashStep_shift (h c : Z) :
  hashStep h c = ((Z.shiftl h 5 - h + c) mod 2 ^ 32)%Z.
Proof.
  unfold hashStep, js_ushr, js_shl.
  change (0 mod 32)%Z with 0%Z. change (5 mod 32)%Z with 5%Z.
  rewrite Z.shiftr_0_r. unfold toUint32.
  rewrite !Z.shiftl_mul_pow2 by lia.
  destruct (toInt32_congr h) as [k1 ->].
  destruct (toInt32_congr ((h + k1 * 2 ^ 32) * 2 ^ 5)) as [k2 ->].
  replace ((h + k1 * 2 ^ 32) * 2 ^ 5 + k2 * 2 ^ 32 - h + c)%Z
    with (h * 2 ^ 5 - h + c + (k1 * 2 ^ 5 + k2) * 2 ^ 32)%Z by lia.
  apply Z_mod_plus_full.
Qed.

Lemma hashStep_31 (h c : Z) : hashStep h c = ((31 * h + c) mod 2 ^ 32)%Z.
Proof.
  rewrite hashStep_shift, Z.shiftl_mul_pow2 by lia. f_equal. lia.
Qed.

Lemma fold_left_ext_eq {A B : Type} (f g : A -> B -> A) (l : list B) (a : A) :
  (forall x y, f x y = g x y) -> fold_left f l a = fold_left g l a.
Proof.
  intros E. revert a. induction l as [|b l IH]; intros a; simpl;
    [reflexivity | now rewrite E, IH].
Qed.

Lemma rollingHash_range (s : string) : (0 <= rollingHash s < 2 ^ 32)%Z.
Proof.
  unfold rollingHash. generalize (charCodes s). intros l.
  assert (G : forall a, (0 <= a < 2 ^ 32)%Z ->
                        (0 <= fold_left hashStep l a < 2 ^ 32)%Z).
  { induction l as [|c l IH]; intros a Ha; simpl; [exact Ha|].
    apply IH. rewrite hashStep_31. apply Z.mod_pos_bound. lia. }
  apply G. lia.
Qed.

Lemma to_int_nonnil (z : Z) :
  Z.to_int z <> Decimal.Pos Decimal.Nil /\ Z.to_int z <> Decimal.Neg Decimal.Nil.
Proof.
  destruct z as [|p|p]; simpl; split; try discriminate;
    intros [= E]; exact (DecimalPos.Unsigned.to_uint_nonnil p E).
Qed.

(** [int_toString] prints the decimal numeral of its argument. *)
Lemma int_toString_decimal (z : Z) :
  Z.of_int <$> NilZero.int_of_string (int_toString z) = Some z.
Proof.
  unfold int_toString. destruct (to_int_nonnil z) as [H1 H2].
  rewrite NilZero.isi by assumption. simpl. f_equal. apply DecimalZ.of_to.
Qed.

Lemma int_toString_inj (a b : Z) : int_toString a = int_toString b -> a = b.
Proof.
  intros E. pose proof (int_toString_decimal a) as Ha.
  rewrite E, int_toString_decimal in Ha. congruence.
Qed.

(** C7. [customSvgHash] prints, after the tag custom-, the decimal numeral
    of the 32-bit polynomial rolling hash of its argument: the state starts
    at 0 and every character code [c] replaces it by
    [((h << 5) - h + c) mod 2^32], which is [(31 * h + c) mod 2^32]. The
    function is a closed term of the model, so a text has one hash:
    for the text <rect/> it is custom-775707151. *)
Theorem customSvgHash_rolling_hash (s : string) :
  customSvgHash s = "custom-" +:+ int_toString (rollingHash s)
  /\ Z.of_int <$> NilZero.int_of_string (int_toString (rollingHash s))
     = Some (rollingHash s)
  /\ rollingHash s
     = fold_left (fun h c => ((Z.shiftl h 5 - h + c) mod 2 ^ 32)%Z) (charCodes s) 0%Z
  /\ rollingHash s
     = fold_left (fun h c => ((31 * h + c) mod 2 ^ 32)%Z) (charCodes s) 0%Z
  /\ (0 <= rollingHash s < 2 ^ 32)%Z
  /\ customSvgHash "<rect/>" = "custom-775707151".
Proof.
  split; [reflexivity|].
  split; [apply int_toString_decimal|].
  split; [apply fold_left_ext_eq, hashStep_shift|].
  split; [apply fold_left_ext_eq, hashStep_31|].
  split; [apply rollingHash_range|].
  vm_compute. reflexivity.
Qed.

(** ** The identity hash *)

Ltac fields :=
  unfold with_orig, with_dest, with_brush, with_modifiers, with_piece,
    with_customSvg;
  cbn [orig dest brush modifiers piece customSvg piece_color piece_role
       piece_scale mod_lineWidth].

Section HashProperties.
Context {rt : Runtime}.

Lemma token_text_str (a : string) : token_text (VStr a) = a.
Proof.
  unfold token_text. simpl. destruct (String.eqb_spec a ""); simpl; congruence.
Qed.

Lemma token_text_optStr (o : option string) :
  token_text (optStr o) = default "" o.
Proof. destruct o; [apply token_text_str | reflexivity]. Qed.

Lemma truthy_str (a : string) : truthy (VStr a) = true <-> a <> "".
Proof.
  simpl. destruct (String.eqb_spec a ""); simpl; split; congruence.
Qed.

Lemma modifiersHash_text (m : DrawModifiers) :
  modifiersHash m = token_text (optNum (mod_lineWidth m)).
Proof.
  unfold modifiersHash, js_or, token_text.
  destruct (truthy (optNum (mod_lineWidth m))); reflexivity.
Qed.

Lemma customSvgHash_inj (a b : string) :
  customSvgHash a = customSvgHash b <-> rollingHash a = rollingHash b.
Proof.
  unfold customSvgHash. fold (rollingHash a) (rollingHash b). split.
  - intros H. apply app_cancel_l in H. now apply int_toString_inj.
  - now intros ->.
Qed.

Lemma markup_token_text (c : string) :
  c <> "" -> token_text (js_and (VStr c) (VStr (customSvgHash c))) = customSvgHash c.
Proof.
  intros H. unfold js_and. apply truthy_str in H. rewrite H.
  apply token_text_str.
Qed.

(** The preview flag. *)
Lemma hash_preview (s : DrawShape) (ad : gmap string nat) :
  shapeHash s ad true <> shapeHash s ad false.
Proof.
  unfold shapeHash, shapeTokens. apply (join_change "," []).
  unfold token_text. simpl. discriminate.
Qed.

(** The origin. *)
Lemma hash_orig (s : DrawShape) (o : string) (ad : gmap string nat) (c : bool) :
  o <> orig s -> shapeHash (with_orig o s) ad c <> shapeHash s ad c.
Proof.
  intros H. unfold shapeHash, shapeTokens. fields.
  apply (join_change "," [_]). now rewrite !token_text_str.
Qed.

(** The shorten flag of a shape that has a destination. *)
Lemma hash_shorten (s : DrawShape) (d : string) (ad1 ad2 : gmap string nat)
    (c : bool) :
  dest s = Some d -> d <> "" -> manyArrows ad1 d <> manyArrows ad2 d ->
  shapeHash s ad1 c <> shapeHash s ad2 c.
Proof.
  intros Hd Hne H. unfold shapeHash, shapeTokens. rewrite Hd.
  apply (join_change "," [_; _; _; _]).
  unfold js_and. apply truthy_str in Hne. rewrite Hne.
  unfold token_text. simpl.
  destruct (manyArrows ad1 d), (manyArrows ad2 d); simpl; congruence.
Qed.

(** The piece: its sub-hash enters the hash as it is. *)
Lemma hash_piece (s : DrawShape) (p1 p2 : DrawShapePiece) (ad : gmap string nat)
    (c : bool) :
  pieceHash p1 <> pieceHash p2 ->
  shapeHash (with_piece (Some p1) s) ad c <> shapeHash (with_piece (Some p2) s) ad c.
Proof.
  intros H. unfold shapeHash, shapeTokens. fields.
  apply (join_change "," [_; _; _; _; _]). now rewrite !token_text_str.
Qed.

Lemma pieceHash_color (r c1 c2 : string) (sc : option float) :
  c1 <> c2 ->
  pieceHash {| piece_role := r; piece_color := c1; piece_scale := sc |}
  <> pieceHash {| piece_role := r; piece_color := c2; piece_scale := sc |}.
Proof.
  intros H. unfold pieceHash. fields. apply (join_change "," []).
  now rewrite !token_text_str.
Qed.

Lemma pieceHash_role (r1 r2 c : string) (sc : option float) :
  r1 <> r2 ->
  pieceHash {| piece_role := r1; piece_color := c; piece_scale := sc |}
  <> pieceHash {| piece_role := r2; piece_color := c; piece_scale := sc |}.
Proof.
  intros H. unfold pieceHash. fields. apply (join_change "," [_]).
  now rewrite !token_text_str.
Qed.

Lemma pieceHash_scale (r c : string) (x1 x2 : option float) :
  token_text (optNum x1) <> token_text (optNum x2) ->
  pieceHash {| piece_role := r; piece_color := c; piece_scale := x1 |}
  <> pieceHash {| piece_role := r; piece_color := c; piece_scale := x2 |}.
Proof.
  intros H. unfold pieceHash. fields. now apply (join_change "," [_; _]).
Qed.

(** The markup text: the hash follows the rolling hash of the text. *)
Lemma hash_customSvg (s : DrawShape) (t1 t2 : string) (ad : gmap string nat)
    (c : bool) :
  t1 <> "" -> t2 <> "" ->
  (shapeHash (with_customSvg (Some t1) s) ad c
   = shapeHash (with_customSvg (Some t2) s) ad c
   <-> rollingHash t1 = rollingHash t2).
Proof.
  intros H1 H2. split.
  - intros E. destruct (Z.eq_dec (rollingHash t1) (rollingHash t2)) as [|N];
      [assumption | exfalso].
    revert E. unfold shapeHash, shapeTokens. fields.
    apply (join_change "," [_; _; _; _; _; _; _]).
    rewrite !markup_token_text by assumption.
    now rewrite customSvgHash_inj.
  - intros E. apply customSvgHash_inj in E.
    unfold shapeHash, shapeTokens. fields.
    apply (join_same "," [_; _; _; _; _; _; _]).
    + unfold js_and. apply truthy_str in H1, H2. rewrite H1, H2.
      rewrite E. reflexivity.
    + rewrite !markup_token_text by assumption. exact E.
Qed.

(** The destination, which also decides the shorten flag. *)
Lemma comma_split (a b p q : string) :
  comma_free a = true -> comma_free b = true ->
  (p = "" \/ exists p', p = String "," p') ->
  (q = "" \/ exists q', q = String "," q') ->
  a +:+ p = b +:+ q -> a = b.
Proof.
  revert b. induction a as [|x a IH]; intros b Ha Hb Hp Hq E.
  - destruct b as [|y b]; [reflexivity|].
    rewrite app_nil_l, app_cons in E. simpl in Hb.
    destruct Hp as [-> | [p' ->]]; [discriminate|].
    injection E as E1 E2. subst y. discriminate.
  - destruct b as [|y b].
    + rewrite app_nil_l, app_cons in E. simpl in Ha.
      destruct Hq as [-> | [q' ->]]; [discriminate|].
      injection E as E1 E2. subst x. discriminate.
    + rewrite !app_cons in E. injection E as E1 E2. subst y.
      simpl in Ha, Hb. apply andb_prop in Ha as [_ Ha], Hb as [_ Hb].
      f_equal. eapply IH; eauto.
Qed.

Lemma post_shape (Y : list string) :
  let post := fold_right (fun y acc => "," +:+ y +:+ acc) "" Y in
  post = "" \/ exists p', post = String "," p'.
Proof. destruct Y as [|y Y]; simpl; [now left | right; eexists; reflexivity]. Qed.

Lemma hash_dest (s : DrawShape) (d1 d2 : option string) (ad : gmap string nat)
    (c : bool) :
  d1 <> d2 -> dest_ok d1 -> dest_ok d2 ->
  (forall k1 k2, d1 = Some k1 -> d2 = Some k2 ->
     manyArrows ad k1 = manyArrows ad k2
     \/ (comma_free k1 = true /\ comma_free k2 = true)) ->
  shapeHash (with_dest d1 s) ad c <> shapeHash (with_dest d2 s) ad c.
Proof.
  intros Hne H1 H2 HC. unfold shapeHash, shapeTokens. fields.
  rewrite !hash_texts.
  set (X := [VBool c; VStr (orig s)]).
  set (B := [optStr (brush s)]).
  set (R := [match piece s with Some p => VStr (pieceHash p) | None => VUndefined end;
             match modifiers s with Some m => VStr (modifiersHash m) | None => VUndefined end;
             match customSvg s with
             | Some c0 => js_and (VStr c0) (VStr (customSvgHash c0))
             | None => VUndefined end]).
  assert (G : forall d, dest_ok d ->
            texts (VBool c :: VStr (orig s) :: optStr d :: optStr (brush s)
                   :: match d with
                      | Some k => js_and (VStr k) (VBool (manyArrows ad k))
                      | None => VUndefined end :: R)
            = texts X ++ match d with
                         | Some k => k :: texts B
                                     ++ texts [VBool (manyArrows ad k)] ++ texts R
                         | None => texts B ++ texts R
                         end).
  { intros d Hd.
    change (VBool c :: VStr (orig s) :: optStr d :: optStr (brush s) :: ?t :: R)
      with (X ++ [optStr d] ++ B ++ [t] ++ R).
    rewrite !texts_app. f_equal. destruct d as [k|]; simpl in *.
    - rewrite (texts_one (VStr k)), token_text_str.
      apply truthy_str in Hd. rewrite Hd. unfold js_and. now rewrite Hd.
    - reflexivity. }
  rewrite (G d1 H1), (G d2 H2).
  destruct d1 as [k1|], d2 as [k2|]; simpl in H1, H2.
  - destruct (HC k1 k2 eq_refl eq_refl) as [F | [C1 C2]].
    + rewrite F, !sjoin_middle. intros E.
      apply app_cancel_l, app_cancel_r in E. congruence.
    + rewrite !sjoin_middle. intros E. apply app_cancel_l in E.
      apply Hne. f_equal.
      eapply comma_split; [apply C1 | apply C2 | apply post_shape | apply post_shape | exact E].
  - intros E. apply (f_equal String.length) in E. rewrite !length_sjoin in E.
    rewrite !weight_app in E. simpl in E. rewrite !weight_app in E.
    assert (0 < String.length k1)
      by (destruct k1; simpl; [congruence | lia]).
    simpl in E. lia.
  - intros E. apply (f_equal String.length) in E. rewrite !length_sjoin in E.
    rewrite !weight_app in E. simpl in E. rewrite !weight_app in E.
    assert (0 < String.length k2)
      by (destruct k2; simpl; [congruence | lia]).
    simpl in E. lia.
  - congruence.
Qed.

End HashProperties.

(** ** The runtime [lawful] *)

Lemma binaryDigits_split (p q : positive) (s t : string) :
  binaryDigits p +:+ s = binaryDigits q +:+ t -> p = q /\ s = t.
Proof.
  revert q. induction p as [p IH|p IH|]; intros [q|q|] E; simpl in E;
    rewrite ?app_cons in E; try discriminate; injection E as E.
  - apply IH in E as [-> ->]. done.
  - apply IH in E as [-> ->]. done.
  - rewrite !app_nil_l in E. done.
Qed.

Lemma binaryDigits_inj (p q : positive) :
  binaryDigits p = binaryDigits q -> p = q.
Proof.
  revert q. induction p as [p IH|p IH|]; intros [q|q|] E; simpl in E;
    try discriminate; try reflexivity; injection E as E; f_equal; now apply IH.
Qed.

Lemma binaryZ_inj (z z' : Z) : binaryZ z = binaryZ z' -> z = z'.
Proof.
  destruct z as [|p|p], z' as [|q|q]; simpl; intros E; try discriminate;
    try reflexivity; injection E as E; f_equal; now apply binaryDigits_inj.
Qed.

Lemma binaryNumber_inj (f g : spec_float) : binaryNumber f = binaryNumber g -> f = g.
Proof.
  destruct f as [[]|[]| |[] m e], g as [[]|[]| |[] m' e']; simpl; intros E;
    try discriminate; try reflexivity; injection E as E;
    apply binaryDigits_split in E as [-> E]; apply binaryZ_inj in E as ->;
    reflexivity.
Qed.

Lemma Prim2SF_eq (x y : float) : Prim2SF x = Prim2SF y -> x = y.
Proof. intros E. rewrite <- (SF2Prim_Prim2SF x), <- (SF2Prim_Prim2SF y). now rewrite E. Qed.

Lemma binaryNumber_hash (f : spec_float) : exists t, binaryNumber f = String "#" t.
Proof. destruct f as [[]|[]| |s m e]; simpl; eexists; reflexivity. Qed.

Lemma readsBack_spec (s : string) (x : float) :
  readsBack s x = true ->
  (exists c t, s = String c t /\ c <> "#"%char)
  /\ Prim2SF <$> readNumber s = Some (Prim2SF x).
Proof.
  unfold readsBack. destruct s as [|c t]; [discriminate|].
  intros H. apply andb_prop in H as [H1 H2]. split.
  - exists c, t. split; [reflexivity|]. intros ->. discriminate.
  - now apply bool_decide_eq_true in H2.
Qed.

Lemma lawful_prints_numbers : prints_numbers lawful.
Proof.
  split.
  - intros x _. cbn. unfold lawful_toString.
    destruct (readsBack (demo_toString x) x) eqn:R.
    + apply readsBack_spec in R as [(c & t & -> & _) _]. discriminate.
    + destruct (binaryNumber_hash (Prim2SF x)) as [t ->]. discriminate.
  - intros x y _ _. cbn. unfold lawful_toString.
    destruct (readsBack (demo_toString x) x) eqn:Rx,
             (readsBack (demo_toString y) y) eqn:Ry; intros E.
    + apply readsBack_spec in Rx as [_ Rx], Ry as [_ Ry].
      rewrite E in Rx. rewrite Rx in Ry. injection Ry as Ry. now apply Prim2SF_eq.
    + apply readsBack_spec in Rx as [(c & t & Ec & Hc) _].
      destruct (binaryNumber_hash (Prim2SF y)) as [t' Et]. congruence.
    + apply readsBack_spec in Ry as [(c & t & Ec & Hc) _].
      destruct (binaryNumber_hash (Prim2SF x)) as [t' Et]. congruence.
    + now apply Prim2SF_eq, binaryNumber_inj.
Qed.

(** ** What the hash shows of an input *)

Section HashLaws.
Context {rt : Runtime}.

Lemma truthy_optStr (o : option string) :
  truthy (optStr o) = negb (String.eqb (default "" o) "").
Proof. now destruct o. Qed.

(** The brush identifier: the hash follows its text. *)
Lemma hash_brush_iff (s : DrawShape) (b1 b2 : option string)
    (ad : gmap string nat) (c : bool) :
  shapeHash (with_brush b1 s) ad c = shapeHash (with_brush b2 s) ad c
  <-> default "" b1 = default "" b2.
Proof.
  split.
  - intros E. destruct (decide (default "" b1 = default "" b2)) as [|N];
      [assumption | exfalso].
    revert E. unfold shapeHash, shapeTokens. fields.
    apply (join_change "," [_; _; _]). now rewrite !token_text_optStr.
  - intros E. unfold shapeHash, shapeTokens. fields.
    apply (join_same "," [_; _; _]).
    + now rewrite !truthy_optStr, E.
    + now rewrite !token_text_optStr.
Qed.

(** An empty destination is hashed as an absent one. *)
Lemma hash_dest_empty (s : DrawShape) (ad : gmap string nat) (c : bool) :
  shapeHash (with_dest (Some "") s) ad c = shapeHash (with_dest None s) ad c.
Proof. reflexivity. Qed.

Lemma hash_dest_iff (s : DrawShape) (d1 d2 : option string)
    (ad : gmap string nat) (c : bool) :
  default "" d1 = "" \/ default "" d2 = ""
  \/ manyArrows ad (default "" d1) = manyArrows ad (default "" d2)
  \/ (comma_free (default "" d1) = true /\ comma_free (default "" d2) = true) ->
  (shapeHash (with_dest d1 s) ad c = shapeHash (with_dest d2 s) ad c
   <-> default "" d1 = default "" d2).
Proof.
  intros HC.
  set (norm := fun d : option string =>
                 match d with Some "" => None | _ => d end).
  assert (N : forall d, shapeHash (with_dest d s) ad c
                        = shapeHash (with_dest (norm d) s) ad c).
  { intros [[|x k]|]; reflexivity. }
  assert (K : forall d, dest_ok (norm d)).
  { intros [[|x k]|]; simpl; try exact I. discriminate. }
  assert (D : norm d1 = norm d2 <-> default "" d1 = default "" d2).
  { destruct d1 as [[|x k]|], d2 as [[|y l]|]; simpl; split; congruence. }
  rewrite (N d1), (N d2), <- D. split.
  - intros E. destruct (decide (norm d1 = norm d2)) as [|Hne];
      [assumption | exfalso].
    revert E. apply hash_dest; auto.
    intros k1 k2 E1 E2.
    assert (X1 : d1 = Some k1 /\ k1 <> "").
    { destruct d1 as [[|x k]|]; simpl in E1; try discriminate.
      injection E1 as <-. split; [reflexivity | discriminate]. }
    assert (X2 : d2 = Some k2 /\ k2 <> "").
    { destruct d2 as [[|x k]|]; simpl in E2; try discriminate.
      injection E2 as <-. split; [reflexivity | discriminate]. }
    destruct X1 as [-> N1], X2 as [-> N2]. simpl in HC.
    destruct HC as [? | [? | [F | C]]]; [contradiction | contradiction | |];
      [now left | now right].
  - now intros ->.
Qed.

(** The markup text. *)
Lemma customSvgHash_nonempty (t : string) : customSvgHash t <> "".
Proof. unfold customSvgHash. discriminate. Qed.

Lemma markup_token (o : option string) :
  let t := match o with
           | Some c0 => js_and (VStr c0) (VStr (customSvgHash c0))
           | None => VUndefined
           end in
  truthy t = bool_decide (is_Some (shownMarkup o))
  /\ token_text t = match o with
                    | Some c0 => if String.eqb c0 "" then "" else customSvgHash c0
                    | None => ""
                    end.
Proof.
  destruct o as [c0|]; simpl; [|done].
  unfold js_and, token_text. simpl.
  destruct (String.eqb_spec c0 ""); simpl.
  - subst. done.
  - destruct (String.eqb_spec (customSvgHash c0) ""); simpl.
    + now destruct (customSvgHash_nonempty c0).
    + done.
Qed.

Lemma hash_markup_iff (s : DrawShape) (o1 o2 : option string)
    (ad : gmap string nat) (c : bool) :
  shapeHash (with_customSvg o1 s) ad c = shapeHash (with_customSvg o2 s) ad c
  <-> shownMarkup o1 = shownMarkup o2.
Proof.
  destruct (markup_token o1) as [T1 X1], (markup_token o2) as [T2 X2].
  split.
  - intros E. destruct (decide (shownMarkup o1 = shownMarkup o2)) as [|N];
      [assumption | exfalso].
    revert E. unfold shapeHash, shapeTokens. fields.
    apply (join_change "," [_; _; _; _; _; _; _]). rewrite X1, X2.
    intros E. apply N. unfold shownMarkup.
    destruct o1 as [t1|], o2 as [t2|]; try reflexivity;
      repeat match goal with
             | |- context [String.eqb ?t ""] => destruct (String.eqb_spec t "")
             | H : context [String.eqb ?t ""] |- _ => destruct (String.eqb_spec t "")
             end; try reflexivity;
      try (now destruct (customSvgHash_nonempty t1));
      try (now destruct (customSvgHash_nonempty t2)).
    f_equal. now apply customSvgHash_inj.
  - intros E. unfold shapeHash, shapeTokens. fields.
    apply (join_same "," [_; _; _; _; _; _; _]).
    + now rewrite T1, T2, E.
    + rewrite X1, X2. unfold shownMarkup in E.
      destruct o1 as [t1|], o2 as [t2|]; try reflexivity;
      repeat match goal with
             | |- context [String.eqb ?t ""] => destruct (String.eqb_spec t "")
             | H : context [String.eqb ?t ""] |- _ => destruct (String.eqb_spec t "")
             end; try reflexivity; try discriminate.
      injection E as E. now apply customSvgHash_inj.
Qed.

(** Numbers, for a runtime that prints them as ECMAScript requires. *)
Hypothesis law : prints_numbers rt.

Lemma number_token (x : option float) :
  truthy (optNum x) = bool_decide (is_Some (shownNumber x))
  /\ (token_text (optNum x) = "" <-> shownNumber x = None).
Proof.
  destruct x as [x|]; simpl; [|done]. unfold token_text. simpl.
  destruct (num_truthy x) eqn:T; simpl; [|done].
  split; [done|]. split; [|discriminate].
  intros E. now destruct (proj1 law x T).
Qed.

Lemma number_text (x1 x2 : option float) :
  token_text (optNum x1) = token_text (optNum x2)
  <-> shownNumber x1 = shownNumber x2.
Proof.
  destruct (number_token x1) as [_ E1], (number_token x2) as [_ E2].
  destruct (shownNumber x1) as [y1|] eqn:S1, (shownNumber x2) as [y2|] eqn:S2.
  - destruct x1 as [x1|], x2 as [x2|]; simpl in S1, S2; try discriminate.
    destruct (num_truthy x1) eqn:T1, (num_truthy x2) eqn:T2; try discriminate.
    injection S1 as <-. injection S2 as <-.
    unfold token_text. simpl. rewrite T1, T2. split.
    + intros E. f_equal. now apply (proj2 law).
    + now intros [= ->].
  - rewrite (proj2 E2 eq_refl). split; [|discriminate].
    intros E. apply E1 in E. discriminate.
  - rewrite (proj2 E1 eq_refl). split; [|discriminate].
    intros E. symmetry in E. apply E2 in E. discriminate.
  - rewrite (proj2 E1 eq_refl), (proj2 E2 eq_refl). done.
Qed.

Lemma pieceHash_scale_iff (r c : string) (x1 x2 : option float) :
  pieceHash {| piece_role := r; piece_color := c; piece_scale := x1 |}
  = pieceHash {| piece_role := r; piece_color := c; piece_scale := x2 |}
  <-> shownNumber x1 = shownNumber x2.
Proof.
  rewrite <- number_text. split.
  - intros E.
    destruct (decide (token_text (optNum x1) = token_text (optNum x2))) as [|N];
      [assumption | exfalso].
    revert E. now apply pieceHash_scale.
  - intros E. unfold pieceHash. fields. apply (join_same "," [_; _]); [|exact E].
    apply number_text in E.
    now rewrite (proj1 (number_token x1)), (proj1 (number_token x2)), E.
Qed.

Lemma hash_piece_iff (s : DrawShape) (p1 p2 : DrawShapePiece)
    (ad : gmap string nat) (c : bool) :
  shapeHash (with_piece (Some p1) s) ad c = shapeHash (with_piece (Some p2) s) ad c
  <-> pieceHash p1 = pieceHash p2.
Proof.
  split.
  - intros E. destruct (decide (pieceHash p1 = pieceHash p2)) as [|N];
      [assumption | exfalso].
    revert E. now apply hash_piece.
  - intros E. unfold shapeHash, shapeTokens. fields. now rewrite E.
Qed.

Lemma modifiers_token (m : option DrawModifiers) :
  let t := match m with
           | Some m0 => VStr (modifiersHash m0)
           | None => VUndefined
           end in
  token_text t = token_text (optNum (lineWidthOf m)).
Proof.
  destruct m as [m0|]; simpl; [|reflexivity].
  rewrite token_text_str. apply modifiersHash_text.
Qed.

Lemma token_truthy (v : JsValue) :
  match v with VStr _ | VUndefined => True | _ => False end ->
  truthy v = negb (String.eqb (token_text v) "").
Proof.
  destruct v as [| | |a]; try done. intros _.
  unfold token_text. simpl. destruct (String.eqb_spec a ""); simpl; [done|].
  destruct (String.eqb_spec a ""); done.
Qed.

Lemma hash_modifiers_iff (s : DrawShape) (m1 m2 : option DrawModifiers)
    (ad : gmap string nat) (c : bool) :
  shapeHash (with_modifiers m1 s) ad c = shapeHash (with_modifiers m2 s) ad c
  <-> shownNumber (lineWidthOf m1) = shownNumber (lineWidthOf m2).
Proof.
  rewrite <- number_text, <- !modifiers_token. split.
  - intros E.
    match goal with |- ?a = ?b => destruct (decide (a = b)) as [|N] end;
      [assumption | exfalso].
    revert E. unfold shapeHash, shapeTokens. fields.
    now apply (join_change "," [_; _; _; _; _; _]).
  - intros E. unfold shapeHash, shapeTokens. fields.
    apply (join_same "," [_; _; _; _; _; _]); [|exact E].
    rewrite !token_truthy by (destruct m1, m2; exact I). now rewrite E.
Qed.

End HashLaws.

(** C6, as the code has it. Changing the preview flag, the origin, the
    colour or the role of the piece always changes the hash, and so does
    changing the shorten flag of a shape with a non-empty destination. For
    the other inputs two shapes that differ in the input alone have the
    same hash exactly when the hash shows the same of it: the text of the
    brush identifier and of the destination, an absent one showing as the
    empty text (for the destination when the change keeps the shorten
    flag, or one of the two is absent or empty, or neither contains a
    comma, as no name of a square does); the scale of the piece and the
    line width of the modifiers, where an absent number, 0 and NaN show
    nothing (for a runtime that prints numbers as ECMAScript requires);
    the 32-bit rolling hash of the markup text, where an absent and an
    empty text show nothing. *)
Theorem shapeHash_discriminates {rt : Runtime} (s : DrawShape)
    (ad : gmap string nat) (c : bool) :
  shapeHash s ad true <> shapeHash s ad false
  /\ (forall o, o <> orig s -> shapeHash (with_orig o s) ad c <> shapeHash s ad c)
  /\ (forall d1 d2,
        default "" d1 = "" \/ default "" d2 = ""
        \/ manyArrows ad (default "" d1) = manyArrows ad (default "" d2)
        \/ (comma_free (default "" d1) = true
            /\ comma_free (default "" d2) = true) ->
        (shapeHash (with_dest d1 s) ad c = shapeHash (with_dest d2 s) ad c
         <-> default "" d1 = default "" d2))
  /\ (forall b1 b2,
        shapeHash (with_brush b1 s) ad c = shapeHash (with_brush b2 s) ad c
        <-> default "" b1 = default "" b2)
  /\ (forall d ad', dest s = Some d -> d <> "" ->
        manyArrows ad d <> manyArrows ad' d ->
        shapeHash s ad c <> shapeHash s ad' c)
  /\ (forall r c1 c2 x, c1 <> c2 ->
        shapeHash (with_piece (Some {| piece_role := r; piece_color := c1;
                                       piece_scale := x |}) s) ad c
        <> shapeHash (with_piece (Some {| piece_role := r; piece_color := c2;
                                          piece_scale := x |}) s) ad c)
  /\ (forall r1 r2 col x, r1 <> r2 ->
        shapeHash (with_piece (Some {| piece_role := r1; piece_color := col;
                                       piece_scale := x |}) s) ad c
        <> shapeHash (with_piece (Some {| piece_role := r2; piece_color := col;
                                          piece_scale := x |}) s) ad c)
  /\ (prints_numbers rt -> forall r col x1 x2,
        shapeHash (with_piece (Some {| piece_role := r; piece_color := col;
                                       piece_scale := x1 |}) s) ad c
        = shapeHash (with_piece (Some {| piece_role := r; piece_color := col;
                                         piece_scale := x2 |}) s) ad c
        <-> shownNumber x1 = shownNumber x2)
  /\ (prints_numbers rt -> forall m1 m2,
        shapeHash (with_modifiers m1 s) ad c = shapeHash (with_modifiers m2 s) ad c
        <-> shownNumber (lineWidthOf m1) = shownNumber (lineWidthOf m2))
  /\ (forall t1 t2,
        shapeHash (with_customSvg t1 s) ad c = shapeHash (with_customSvg t2 s) ad c
        <-> shownMarkup t1 = shownMarkup t2).
Proof.
  split; [apply hash_preview|].
  split; [intros; now apply hash_orig|].
  split; [intros; now apply hash_dest_iff|].
  split; [intros; apply hash_brush_iff|].
  split; [intros; now apply (hash_shorten s d)|].
  split; [intros; now apply hash_piece, pieceHash_color|].
  split; [intros; now apply hash_piece, pieceHash_role|].
  split; [intros L r col x1 x2; rewrite hash_piece_iff; now apply pieceHash_scale_iff|].
  split; [intros L m1 m2; now apply hash_modifiers_iff|].
  intros; apply hash_markup_iff.
Qed.

(** With the runtime [lawful]: the arrow a1-h1 and the same arrow to g1,
    with an empty destination or with an empty brush identifier have
    different hashes, and so have the knight at the scales 0.5 and 2, the
    red arrow with and without the line width 5, and the markup Aa and the
    empty markup. *)
Lemma shapeHash_discriminates_witness :
  prints_numbers lawful
  /\ shapeHash (rt := lawful) (arrowShape "a1" "h1" "green") ∅ false
     <> shapeHash (rt := lawful) (arrowShape "a1" "g1" "green") ∅ false
  /\ shapeHash (rt := lawful) (arrowShape "a1" "h1" "green") ∅ false
     <> shapeHash (rt := lawful) (arrowShape "a1" "" "green") ∅ false
  /\ shapeHash (rt := lawful) (arrowShape "a1" "h1" "green") ∅ false
     <> shapeHash (rt := lawful) (arrowShape "a1" "h1" "") ∅ false
  /\ shapeHash (rt := lawful) (knightShape (Some 0.5%float)) ∅ false
     <> shapeHash (rt := lawful) (knightShape (Some 2%float)) ∅ false
  /\ shapeHash (rt := lawful) thickRedArrow ∅ false
     <> shapeHash (rt := lawful) (arrowShape "b1" "h1" "red") ∅ false
  /\ shapeHash (rt := lawful) (markupShape "a1" "Aa") ∅ false
     <> shapeHash (rt := lawful) (markupShape "a1" "") ∅ false.
Proof.
  split; [exact lawful_prints_numbers|].
  destruct (@shapeHash_discriminates lawful (arrowShape "a1" "h1" "green") ∅ false)
    as (_ & _ & Hd & Hb & _).
  destruct (@shapeHash_discriminates lawful (knightShape None) ∅ false)
    as (_ & _ & _ & _ & _ & _ & _ & Hs & _).
  destruct (@shapeHash_discriminates lawful (arrowShape "b1" "h1" "red") ∅ false)
    as (_ & _ & _ & _ & _ & _ & _ & _ & Hw & _).
  destruct (@shapeHash_discriminates lawful (markupShape "a1" "Aa") ∅ false)
    as (_ & _ & _ & _ & _ & _ & _ & _ & _ & Hm).
  repeat split.
  - intros E. apply (Hd (Some "h1") (Some "g1")) in E;
      [discriminate | now right; right; left].
  - intros E. apply (Hd (Some "h1") (Some "")) in E; [discriminate | now right; left].
  - intros E. apply (Hb (Some "green") (Some "")) in E. discriminate.
  - intros E.
    apply (Hs lawful_prints_numbers "knight" "white" (Some 0.5%float) (Some 2%float)) in E.
    vm_compute in E. discriminate.
  - intros E.
    apply (Hw lawful_prints_numbers (Some {| mod_lineWidth := Some 5%float |}) None) in E.
    vm_compute in E. discriminate.
  - intros E. apply (Hm (Some "Aa") (Some "")) in E. vm_compute in E. discriminate.
Defined.

(** C6 fails as stated. The markups Aa and BB differ and nothing else
    does, yet the two shapes have the same hash, because the two texts
    have the same rolling hash 2112. An empty and an absent brush
    identifier give the same hash; so do the destination h1, on which two
    arrows land, and the destination h1,true, on which none does; and so
    do an absent scale, the scale 0 and the scale NaN. *)
Lemma shapeHash_collisions :
  customSvg (markupShape "a1" "Aa") <> customSvg (markupShape "a1" "BB")
  /\ with_customSvg (Some "BB") (markupShape "a1" "Aa") = markupShape "a1" "BB"
  /\ shapeHash (rt := demo) (markupShape "a1" "Aa") ∅ false = "a1,custom-2112"
  /\ shapeHash (rt := demo) (markupShape "a1" "BB") ∅ false = "a1,custom-2112"
  /\ shapeHash (rt := demo) (circleShape "a1" "") ∅ false = "a1"
  /\ shapeHash (rt := demo) (with_brush None (circleShape "a1" "")) ∅ false = "a1"
  /\ shapeHash (rt := demo) (with_dest (Some "h1") (markupShape "a1" "")) {[ "h1" := 2 ]} false
     = "a1,h1,true"
  /\ shapeHash (rt := demo) (with_dest (Some "h1,true") (markupShape "a1" "")) {[ "h1" := 2 ]} false
     = "a1,h1,true"
  /\ shapeHash (rt := demo) (knightShape None) ∅ false = "a1,white,knight"
  /\ shapeHash (rt := demo) (knightShape (Some 0%float)) ∅ false = "a1,white,knight"
  /\ shapeHash (rt := demo) (knightShape (Some nan)) ∅ false = "a1,white,knight".
Proof. repeat split; [discriminate | vm_compute; reflexivity ..]. Qed.

(** C10. A shape whose modifiers are present with an absent or zero line
    width has the hash of the same shape without modifiers, whatever the
    destination counts and the preview flag. *)
Theorem shapeHash_falsy_lineWidth {rt : Runtime} (s : DrawShape)
    (m : DrawModifiers) (ad : gmap string nat) (c : bool) :
  modifiers s = Some m ->
  (mod_lineWidth m = None
   \/ exists x, mod_lineWidth m = Some x /\ PrimFloat.eqb x 0 = true) ->
  shapeHash s ad c = shapeHash (with_modifiers None s) ad c.
Proof.
  intros Hm Hw. unfold shapeHash, shapeTokens. fields. rewrite Hm.
  assert (E : modifiersHash m = "").
  { rewrite modifiersHash_text. unfold token_text.
    destruct Hw as [-> | (x & -> & Hx)]; [reflexivity|].
    simpl. unfold num_truthy. now rewrite Hx. }
  rewrite E. apply (join_same "," [_; _; _; _; _; _]); reflexivity.
Qed.

Lemma shapeHash_falsy_lineWidth_witness :
  shapeHash (rt := demo)
    (with_modifiers (Some {| mod_lineWidth := Some 0%float |})
       (arrowShape "a1" "h1" "green"))
    {[ "h1" := 2 ]} true
  = shapeHash (rt := demo) (arrowShape "a1" "h1" "green") {[ "h1" := 2 ]} true.
Proof.
  apply (@shapeHash_falsy_lineWidth demo
           (with_modifiers (Some {| mod_lineWidth := Some 0%float |})
              (arrowShape "a1" "h1" "green"))
           {| mod_lineWidth := Some 0%float |}).
  - reflexivity.
  - right. exists 0%float. split; reflexivity.
Defined.

(** ** The arrow destination counter *)

Lemma countArrow_lookup (l : list DrawShape) (m : gmap string nat) (q : string) :
  q <> "" ->
  default 0 (fold_left countArrow l m !! q)
  = default 0 (m !! q) + length (arrowsInto q l).
Proof.
  intros Hq. revert m. induction l as [|s l IH]; intros m; simpl; [lia|].
  rewrite IH. unfold countArrow.
  destruct (dest s) as [d'|] eqn:Ed.
  - destruct (decide (d' = q)) as [->|Hne].
    + rewrite bool_decide_eq_true_2 by reflexivity.
      apply truthy_str in Hq. rewrite Hq, lookup_insert_eq. simpl. lia.
    + rewrite bool_decide_eq_false_2 by congruence.
      destruct (truthy (VStr d')); [rewrite lookup_insert_ne by assumption|];
        reflexivity.
  - rewrite bool_decide_eq_false_2 by congruence. reflexivity.
Qed.

Lemma arrowDestsOf_count (d : Drawable) (q : string) :
  q <> "" ->
  default 0 (arrowDestsOf d !! q) = length (arrowsInto q (allShapes d)).
Proof.
  intros Hq. unfold arrowDestsOf. rewrite countArrow_lookup by assumption.
  now rewrite lookup_empty.
Qed.

Lemma manyArrows_count (d : Drawable) (q : string) :
  q <> "" ->
  manyArrows (arrowDestsOf d) q = (2 <=? length (arrowsInto q (allShapes d)))%nat.
Proof.
  intros Hq. unfold manyArrows. rewrite arrowDestsOf_count by assumption.
  destruct (length (arrowsInto q (allShapes d))) as [|[|n]]; reflexivity.
Qed.

Lemma arrowsInto_app (q : string) (l1 l2 : list DrawShape) :
  arrowsInto q (l1 ++ l2) = arrowsInto q l1 ++ arrowsInto q l2.
Proof. apply List.filter_app. Qed.

Lemma remove_dups_NoDup {A : Type} `{EqDecision A} (l : list A) :
  NoDup l -> remove_dups l = l.
Proof.
  induction 1 as [|x l Hx Hl IH]; cbn [remove_dups]; [reflexivity|].
  destruct (decide_rel elem_of x l) as [I|I]; [contradiction | now rewrite IH].
Qed.

(** C5, as the code has it. The count of a square is the number of shapes
    that end on it, among the static shapes, the auto shapes and the shape
    being drawn, whatever their origins; it is the number of their distinct
    origins when no two of them share an origin. The shorten flag of every
    one of them, in the token array of [shapeHash] and in the call of
    [renderArrow], is true when that number is at least 2 and false
    otherwise. *)
Theorem shorten_flag_counts_arrows {rt : Runtime} (d : Drawable) (q : string) :
  q <> "" ->
  let k := length (arrowsInto q (allShapes d)) in
  default 0 (arrowDestsOf d !! q) = k
  /\ (NoDup (map orig (arrowsInto q (allShapes d))) ->
      length (originsInto q (allShapes d)) = k)
  /\ (forall s c, dest s = Some q ->
        shapeTokens s (arrowDestsOf d) c !! 4 = Some (VBool (2 <=? k)%nat))
  /\ (forall state sc,
        dest (sc_shape sc) = Some q ->
        truthy (optStr (customSvg (sc_shape sc))) = false ->
        piece (sc_shape sc) = None ->
        renderShape state sc (brushes d) (arrowDestsOf d)
        = (el ← (brush ← match modifiers (sc_shape sc) with
                         | Some m =>
                             base ← deref (brushNamed (brushes d)
                                             (brush (sc_shape sc)));
                             mret (Some (makeCustomBrush base m))
                         | None => mret (brushNamed (brushes d)
                                           (brush (sc_shape sc)))
                         end;
                 renderArrow brush
                   (orient (key2pos (orig (sc_shape sc))) (orientation state))
                   (orient (key2pos q) (orientation state))
                   (sc_current sc) (2 <=? k)%nat);
           setAttribute el "cgHash" (VStr (sc_hash sc)) ;; mret el)).
Proof.
  intros Hq k. split; [now apply arrowDestsOf_count|]. split; [|split].
  - intros ND. unfold originsInto. rewrite remove_dups_NoDup by assumption.
    apply length_map.
  - intros s c Hd. unfold shapeTokens. rewrite Hd. simpl.
    unfold js_and. apply truthy_str in Hq as Ht. rewrite Ht.
    now rewrite manyArrows_count.
  - intros state sc Hd Hc Hp. unfold renderShape. rewrite Hc, Hp, Hd.
    cbn [optStr default]. apply truthy_str in Hq as Ht. rewrite Ht.
    now rewrite manyArrows_count.
Qed.

Lemma shorten_flag_counts_arrows_witness :
  default 0 (arrowDestsOf
              (drawing [arrowShape "a1" "h1" "green"] (Some drawing_b1_h1) "")
             !! "h1") = 2.
Proof.
  destruct (@shorten_flag_counts_arrows demo
              (drawing [arrowShape "a1" "h1" "green"] (Some drawing_b1_h1) "") "h1")
    as [H _]; [discriminate | exact H].
Defined.

(** C5 fails as stated: two arrows from a1 end on h1, one green and one
    red. They come from one origin, and both have the shorten flag. *)
Lemma shorten_flag_one_origin :
  originsInto "h1"
    (allShapes (drawing [arrowShape "a1" "h1" "green"; arrowShape "a1" "h1" "red"] None ""))
  = ["a1"]
  /\ map sc_hash
       (hashedShapes (rt := demo)
          (drawing [arrowShape "a1" "h1" "green"; arrowShape "a1" "h1" "red"] None ""))
     = ["a1,h1,green,true"; "a1,h1,red,true"]
  /\ manyArrows
       (arrowDestsOf (drawing [arrowShape "a1" "h1" "green"; arrowShape "a1" "h1" "red"] None ""))
       "h1" = true.
Proof. repeat split; vm_compute; reflexivity. Qed.

(** C8. The counting loop runs over the static shapes, the auto shapes and
    the shape being drawn. A shape being drawn that ends on [q] adds one to
    the count of [q]; when one committed arrow ends there, this makes its
    shorten flag true and changes its hash, though no field of it changed. *)
Theorem preview_counts_as_arrow {rt : Runtime} (d : Drawable) (c : DrawCurrent)
    (q : string) :
  current d = Some c -> truthy (optStr (mouseSq c)) = true ->
  dest (cur_shape c) = Some q -> q <> "" ->
  let committed := shapes d ++ autoShapes d in
  arrowDestsOf d = fold_left countArrow (committed ++ [cur_shape c]) ∅
  /\ arrowDestsOf (without_current d) = fold_left countArrow committed ∅
  /\ default 0 (arrowDestsOf d !! q)
     = S (default 0 (arrowDestsOf (without_current d) !! q))
  /\ (length (arrowsInto q committed) = 1 ->
      manyArrows (arrowDestsOf (without_current d)) q = false
      /\ manyArrows (arrowDestsOf d) q = true
      /\ forall s, dest s = Some q ->
           shapeHash s (arrowDestsOf (without_current d)) false
           <> shapeHash s (arrowDestsOf d) false).
Proof.
  intros Hc Hm Hd Hq committed.
  assert (A1 : allShapes d = committed ++ [cur_shape c]).
  { unfold allShapes, currentShape. now rewrite Hc, Hm. }
  assert (A0 : allShapes (without_current d) = committed).
  { unfold allShapes, currentShape. simpl. apply app_nil_r. }
  assert (K : length (arrowsInto q (allShapes d))
              = S (length (arrowsInto q (allShapes (without_current d))))).
  { rewrite A1, A0, arrowsInto_app, length_app. simpl.
    rewrite Hd, bool_decide_eq_true_2 by reflexivity. simpl. lia. }
  split; [unfold arrowDestsOf; now rewrite A1|].
  split; [unfold arrowDestsOf; now rewrite A0|].
  split; [rewrite !arrowDestsOf_count by assumption; exact K|].
  intros H1.
  assert (F0 : manyArrows (arrowDestsOf (without_current d)) q = false).
  { rewrite manyArrows_count, A0, H1 by assumption. reflexivity. }
  assert (F1 : manyArrows (arrowDestsOf d) q = true).
  { rewrite manyArrows_count, K, A0, H1 by assumption. reflexivity. }
  split; [exact F0|]. split; [exact F1|].
  intros s Hs. apply (hash_shorten s q); [assumption | assumption | congruence].
Qed.

Lemma preview_counts_as_arrow_witness :
  shapeHash (rt := demo) (arrowShape "a1" "h1" "green")
    (arrowDestsOf (without_current
                     (drawing [arrowShape "a1" "h1" "green"] (Some drawing_b1_h1) "")))
    false
  <> shapeHash (rt := demo) (arrowShape "a1" "h1" "green")
       (arrowDestsOf (drawing [arrowShape "a1" "h1" "green"] (Some drawing_b1_h1) ""))
       false.
Proof.
  destruct (@preview_counts_as_arrow demo
              (drawing [arrowShape "a1" "h1" "green"] (Some drawing_b1_h1) "")
              drawing_b1_h1 "h1")
    as (_ & _ & _ & H); [reflexivity | reflexivity | reflexivity | discriminate |].
  destruct H as (_ & _ & H); [reflexivity|].
  apply H. reflexivity.
Defined.

(** ** The short circuit of [renderSvg] *)

Lemma fullHashOf_setPrevSvgHash {rt : Runtime} (state : State) (h : string) :
  fullHashOf (drawable (setPrevSvgHash state h)) = fullHashOf (drawable state).
Proof. reflexivity. Qed.

(** C3. When the full hash equals the snapshot, [renderSvg] returns at once
    and leaves the state and the DOM as they are. Otherwise the state it
    leaves has the full hash as snapshot, and the DOM is what the
    reconciliation, run on that state, makes of it; the snapshot is the
    full hash even when the reconciliation throws. In both cases a second
    call on the state and the DOM that the first call left changes
    nothing. *)
Theorem renderSvg_short_circuit {rt : Runtime} (state : State)
    (svg customSvg : nat) (σ : Dom) :
  let fullHash := fullHashOf (drawable state) in
  (fullHash = prevSvgHash (drawable state) ->
     renderSvg state svg customSvg σ = (state, (σ, Some tt)))
  /\ (fullHash <> prevSvgHash (drawable state) ->
        renderSvg state svg customSvg σ
        = (setPrevSvgHash state fullHash,
           reconcile (setPrevSvgHash state fullHash) svg customSvg σ))
  /\ prevSvgHash (drawable (renderSvg state svg customSvg σ).1) = fullHash
  /\ (forall svg' customSvg',
        renderSvg (renderSvg state svg customSvg σ).1 svg' customSvg'
                  (renderSvg state svg customSvg σ).2.1
        = ((renderSvg state svg customSvg σ).1,
           ((renderSvg state svg customSvg σ).2.1, Some tt))).
Proof.
  intros fullHash. unfold renderSvg. fold fullHash.
  destruct (String.eqb_spec fullHash (prevSvgHash (drawable state))) as [E|N].
  - split; [reflexivity|]. split; [congruence|]. split; [now symmetry|].
    intros svg' customSvg'. simpl. fold fullHash.
    now rewrite (proj2 (String.eqb_eq _ _) E).
  - split; [congruence|]. split; [reflexivity|]. split; [reflexivity|].
    intros svg' customSvg'. cbn [fst snd].
    rewrite fullHashOf_setPrevSvgHash. fold fullHash.
    cbn [setPrevSvgHash drawable prevSvgHash].
    now rewrite String.eqb_refl.
Qed.

(** ** Computations on the DOM *)

Section DomLemmas.
Context {rt : Runtime}.

Lemma bind_run {A B : Type} (m : M A) (k : A -> M B) (σ : Dom) :
  (m ≫= k) σ = match m σ with
               | (σ', Some a) => k a σ'
               | (σ', None) => (σ', None)
               end.
Proof. reflexivity. Qed.

Lemma with_attributes_id (e : Element) : with_attributes (attributes e) e = e.
Proof. now destruct e. Qed.

Lemma with_childNodes_id (e : Element) : with_childNodes (childNodes e) e = e.
Proof. now destruct e. Qed.

Lemma setAttribute_run (el : nat) (k : string) (v : JsValue) (σ : Dom) :
  setAttribute el k v σ
  = match σ !! el with
    | Some e => (<[el := with_attributes (attr_set k (js_toString v) (attributes e)) e]> σ,
                 Some tt)
    | None => (σ, None)
    end.
Proof.
  unfold setAttribute. rewrite bind_run. unfold getElement.
  destruct (σ !! el); reflexivity.
Qed.

Lemma getAttribute_run (el : nat) (k : string) (σ : Dom) :
  getAttribute el k σ
  = (σ, match σ !! el with
        | Some e => Some (attr_get k (attributes e))
        | None => None
        end).
Proof.
  unfold getAttribute. rewrite bind_run. unfold getElement.
  destruct (σ !! el); reflexivity.
Qed.

Lemma children_run (el : nat) (σ : Dom) :
  children el σ = (σ, childNodes <$> σ !! el).
Proof.
  unfold children. rewrite bind_run. unfold getElement.
  destruct (σ !! el); reflexivity.
Qed.

Lemma appendChild_run (parent child : nat) (σ : Dom) :
  appendChild parent child σ
  = match σ !! parent with
    | Some e => (<[parent := with_childNodes (childNodes e ++ [child]) e]> σ, Some tt)
    | None => (σ, None)
    end.
Proof.
  unfold appendChild. rewrite bind_run. unfold getElement.
  destruct (σ !! parent); reflexivity.
Qed.

Lemma removeChild_run (parent child : nat) (σ : Dom) :
  removeChild parent child σ
  = match σ !! parent with
    | Some e =>
        if bool_decide (child ∈ childNodes e) then
          (<[parent := with_childNodes (remove_first child (childNodes e)) e]> σ,
           Some tt)
        else (σ, None)
    | None => (σ, None)
    end.
Proof.
  unfold removeChild. rewrite bind_run. unfold getElement.
  destruct (σ !! parent) as [e|]; [|reflexivity].
  destruct (bool_decide (child ∈ childNodes e)); reflexivity.
Qed.

Lemma setInnerHTML_run (el : nat) (t : string) (σ : Dom) :
  setInnerHTML el t σ
  = match σ !! el with
    | Some e => (<[el := with_innerHTML t e]> σ, Some tt)
    | None => (σ, None)
    end.
Proof.
  unfold setInnerHTML. rewrite bind_run. unfold getElement.
  destruct (σ !! el); reflexivity.
Qed.

Lemma attr_get_set_eq (k v : string) (attrs : list (string * string)) :
  attr_get k (attr_set k v attrs) = Some v.
Proof.
  induction attrs as [|[k' v'] attrs IH]; simpl.
  - now rewrite String.eqb_refl.
  - destruct (String.eqb k' k) eqn:E; simpl; rewrite ?E, ?String.eqb_refl; auto.
Qed.

(** *** The frame calculus *)

Lemma keeps_ret {A : Type} (σ0 σ : Dom) (a : A) (Q : A -> Dom -> Prop) :
  σ0 ⊆ σ -> Q a σ -> keeps σ0 (mret a) Q σ.
Proof. intros H HQ. split; [exact H | now intros ? [= <-]]. Qed.

Lemma keeps_throw {A : Type} (σ0 σ : Dom) (Q : A -> Dom -> Prop) :
  σ0 ⊆ σ -> keeps σ0 throw Q σ.
Proof. intros H. split; [exact H | discriminate]. Qed.

Lemma keeps_deref {A : Type} (σ0 σ : Dom) (o : option A) (Q : A -> Dom -> Prop) :
  σ0 ⊆ σ -> (forall a, o = Some a -> Q a σ) -> keeps σ0 (deref o) Q σ.
Proof.
  intros H HQ. destruct o as [a|]; [apply keeps_ret; auto | now apply keeps_throw].
Qed.

Lemma keeps_bind {A B : Type} (σ0 σ : Dom) (m : M A) (k : A -> M B)
    (P : A -> Dom -> Prop) (Q : B -> Dom -> Prop) :
  keeps σ0 m P σ ->
  (forall a σ1, σ0 ⊆ σ1 -> P a σ1 -> keeps σ0 (k a) Q σ1) ->
  keeps σ0 (m ≫= k) Q σ.
Proof.
  unfold keeps. intros [H1 H2] Hk. rewrite bind_run.
  destruct (m σ) as [σ1 [a|]]; simpl in *.
  - apply Hk; auto.
  - split; [exact H1 | discriminate].
Qed.

Lemma keeps_mono {A : Type} (σ0 σ : Dom) (m : M A) (P Q : A -> Dom -> Prop) :
  keeps σ0 m P σ -> (forall a σ1, σ0 ⊆ σ1 -> P a σ1 -> Q a σ1) -> keeps σ0 m Q σ.
Proof. unfold keeps. intros [H1 H2] HPQ. split; auto. Qed.

Lemma fresh_unused (σ : Dom) : σ !! fresh (dom σ) = None.
Proof. apply not_elem_of_dom, is_fresh. Qed.

Lemma keeps_createElement (σ0 σ : Dom) (t : string) :
  σ0 ⊆ σ -> keeps σ0 (createElement t) (fun el _ => σ0 !! el = None) σ.
Proof.
  intros H. pose proof (fresh_unused σ) as F. unfold keeps, createElement. simpl.
  split.
  - etrans; [exact H|]. now apply insert_subseteq.
  - intros a [= <-]. eapply lookup_weaken_None; eauto.
Qed.

Lemma insert_keeps (σ0 σ : Dom) (el : nat) (e : Element) :
  σ0 ⊆ σ -> σ0 !! el = None -> σ0 ⊆ <[el := e]> σ.
Proof.
  intros H N. apply map_subseteq_spec. intros i x Hi.
  rewrite lookup_insert_ne by congruence.
  eapply lookup_weaken; eauto.
Qed.

Lemma keeps_setAttribute (σ0 σ : Dom) (el : nat) (k : string) (v : JsValue) :
  σ0 ⊆ σ -> σ0 !! el = None ->
  keeps σ0 (setAttribute el k v)
    (fun _ σ1 => attr_of σ1 el k = Some (js_toString v)) σ.
Proof.
  intros H N. unfold keeps. rewrite setAttribute_run.
  destruct (σ !! el) as [e|]; simpl.
  - split; [now apply insert_keeps|]. intros _ _.
    unfold attr_of. rewrite lookup_insert_eq. apply attr_get_set_eq.
  - split; [exact H | discriminate].
Qed.

Lemma keeps_forM_ {A : Type} (σ0 σ : Dom) (f : A -> M unit) (l : list A) :
  σ0 ⊆ σ ->
  (forall x σ1, σ0 ⊆ σ1 -> keeps σ0 (f x) (fun _ _ => True) σ1) ->
  keeps σ0 (forM_ f l) (fun _ _ => True) σ.
Proof.
  intros H Hf. revert σ H. induction l as [|x l IH]; intros σ H; simpl.
  - now apply keeps_ret.
  - eapply keeps_bind; [now apply Hf|]. intros _ σ1 H1 _. now apply IH.
Qed.

Lemma keeps_setAttributes (σ0 σ : Dom) (el : nat)
    (attrs : list (string * JsValue)) :
  σ0 ⊆ σ -> σ0 !! el = None ->
  keeps σ0 (setAttributes el attrs) (fun r _ => r = el) σ.
Proof.
  intros H N. unfold setAttributes.
  eapply keeps_bind.
  - apply keeps_forM_; [exact H|]. intros [k v] σ1 H1.
    eapply keeps_mono; [now apply keeps_setAttribute | auto].
  - intros _ σ1 H1 _. now apply keeps_ret.
Qed.

Lemma keeps_appendChild (σ0 σ : Dom) (parent child : nat) :
  σ0 ⊆ σ -> σ0 !! parent = None ->
  keeps σ0 (appendChild parent child) (fun _ _ => True) σ.
Proof.
  intros H N. unfold keeps. rewrite appendChild_run.
  destruct (σ !! parent) as [e|]; simpl; split; auto using insert_keeps.
Qed.

Lemma keeps_setInnerHTML (σ0 σ : Dom) (el : nat) (t : string) :
  σ0 ⊆ σ -> σ0 !! el = None ->
  keeps σ0 (setInnerHTML el t) (fun _ _ => True) σ.
Proof.
  intros H N. unfold keeps. rewrite setInnerHTML_run.
  destruct (σ !! el) as [e|]; simpl; split; auto using insert_keeps.
Qed.

End DomLemmas.

(** ** The renderers create nodes and touch nothing else *)

Section Renderers.
Context {rt : Runtime}.

Ltac bind_with lem :=
  eapply keeps_bind; [apply lem; assumption |]; cbv beta.

Lemma keeps_renderCustomSvg (σ0 σ : Dom) (t : string) (pos : float * float) :
  σ0 ⊆ σ -> keeps σ0 (renderCustomSvg t pos) (fun el _ => σ0 !! el = None) σ.
Proof.
  intros H. unfold renderCustomSvg. destruct (pos2user pos) as [x y].
  bind_with keeps_createElement. intros g0 σ1 H1 Hg0.
  bind_with keeps_setAttributes. intros g σ2 H2 ->.
  bind_with keeps_createElement. intros s0 σ3 H3 Hs0.
  bind_with keeps_setAttributes. intros s1 σ4 H4 ->.
  bind_with keeps_appendChild. intros _ σ5 H5 _.
  bind_with keeps_setInnerHTML. intros _ σ6 H6 _.
  now apply keeps_ret.
Qed.

Lemma keeps_renderCircle (σ0 σ : Dom) (b : option BrushValue)
    (pos : float * float) (cur : bool) :
  σ0 ⊆ σ -> keeps σ0 (renderCircle b pos cur) (fun el _ => σ0 !! el = None) σ.
Proof.
  intros H. unfold renderCircle.
  bind_with keeps_createElement. intros el σ1 H1 Hel.
  eapply keeps_bind; [apply keeps_deref; [assumption | intros; exact I]|].
  intros br σ2 H2 _.
  eapply keeps_mono; [now apply keeps_setAttributes|].
  now intros a σ3 _ ->.
Qed.

Lemma keeps_renderArrow (σ0 σ : Dom) (b : option BrushValue)
    (o d : float * float) (cur shorten : bool) :
  σ0 ⊆ σ -> keeps σ0 (renderArrow b o d cur shorten) (fun el _ => σ0 !! el = None) σ.
Proof.
  intros H. unfold renderArrow.
  bind_with keeps_createElement. intros el σ1 H1 Hel.
  eapply keeps_bind; [apply keeps_deref; [assumption | intros; exact I]|].
  intros br σ2 H2 _.
  eapply keeps_mono; [now apply keeps_setAttributes|].
  now intros a σ3 _ ->.
Qed.

Lemma keeps_renderPiece (σ0 σ : Dom) (baseUrl : string) (pos : float * float)
    (p : DrawShapePiece) :
  σ0 ⊆ σ -> keeps σ0 (renderPiece baseUrl pos p) (fun el _ => σ0 !! el = None) σ.
Proof.
  intros H. unfold renderPiece.
  eapply keeps_bind with (P := fun _ _ => True).
  { destruct (String.eqb (piece_role p) "knight"); [now apply keeps_ret|].
    destruct (firstChar (piece_role p));
      solve [now apply keeps_throw | now apply keeps_ret]. }
  intros initial σ1 H1 _.
  bind_with keeps_createElement. intros el σ2 H2 Hel.
  eapply keeps_mono; [now apply keeps_setAttributes|].
  now intros a σ3 _ ->.
Qed.

Lemma keeps_renderMarker (σ0 σ : Dom) (b : BrushValue) :
  σ0 ⊆ σ ->
  keeps σ0 (renderMarker b)
    (fun el σ1 => σ0 !! el = None
                  /\ attr_of σ1 el "cgKey" = Some (keyText (bv_key b))) σ.
Proof.
  intros H. unfold renderMarker.
  bind_with keeps_createElement. intros m0 σ1 H1 Hm0.
  bind_with keeps_setAttributes. intros m σ2 H2 ->.
  bind_with keeps_createElement. intros p0 σ3 H3 Hp0.
  bind_with keeps_setAttributes. intros p σ4 H4 ->.
  bind_with keeps_appendChild. intros _ σ5 H5 _.
  bind_with keeps_setAttribute. intros _ σ6 H6 Hk.
  apply keeps_ret; auto.
Qed.

Lemma keeps_renderShape (σ0 σ : Dom) (state : State) (sc : Shape)
    (bs : gmap string DrawBrush) (ad : gmap string nat) :
  σ0 ⊆ σ ->
  keeps σ0 (renderShape state sc bs ad)
    (fun el σ1 => σ0 !! el = None /\ attr_of σ1 el "cgHash" = Some (sc_hash sc)) σ.
Proof.
  intros H. unfold renderShape.
  eapply keeps_bind with (P := fun el _ => σ0 !! el = None).
  { destruct (truthy (optStr (customSvg (sc_shape sc))));
      [now apply keeps_renderCustomSvg|].
    destruct (piece (sc_shape sc)); [now apply keeps_renderPiece|].
    destruct (truthy (optStr (dest (sc_shape sc))));
      [|now apply keeps_renderCircle].
    eapply keeps_bind with (P := fun _ _ => True).
    - destruct (modifiers (sc_shape sc)).
      + eapply keeps_bind; [apply keeps_deref; [assumption | intros; exact I]|].
        intros base σ1 H1 _. now apply keeps_ret.
      + now apply keeps_ret.
    - intros br σ1 H1 _. now apply keeps_renderArrow. }
  intros el σ1 H1 Hel.
  bind_with keeps_setAttribute. intros _ σ2 H2 Hh.
  apply keeps_ret; auto.
Qed.

End Renderers.

(** ** The loops of the synchronizers *)

Section Loops.
Context {rt : Runtime}.

Lemma forM_ext {A : Type} (f g : A -> M unit) (l : list A) :
  (forall x, x ∈ l -> f x = g x) -> forM_ f l = forM_ g l.
Proof.
  induction l as [|x l IH]; intros E; simpl; [reflexivity|].
  rewrite (E x) by constructor.
  rewrite IH; [reflexivity|]. intros y Hy. apply E. now constructor.
Qed.

(** The scan reads and does not write. *)
Lemma scanChild_run (σ : Dom) (acc : gmap string bool * list nat) (el : nat) :
  scanChild acc el σ
  = (σ, match σ !! el with
        | Some _ => Some (scanStep σ acc el)
        | None => None
        end).
Proof.
  unfold scanChild, scanStep, attr_of. rewrite bind_run, getAttribute_run.
  destruct (σ !! el) as [e|]; [|reflexivity].
  destruct (attr_get "cgHash" (attributes e)) as [h|]; [|reflexivity].
  destruct (bool_decide (is_Some (acc.1 !! h))); reflexivity.
Qed.

Lemma scan_run (σ : Dom) (els : list nat) (acc : gmap string bool * list nat) :
  foldM scanChild els acc σ
  = (σ, if bool_decide (Forall (fun c => is_Some (σ !! c)) els)
        then Some (fold_left (scanStep σ) els acc) else None).
Proof.
  revert acc. induction els as [|c els IH]; intros acc; cbn [foldM fold_left].
  - now rewrite bool_decide_eq_true_2 by constructor.
  - rewrite bind_run, scanChild_run. destruct (σ !! c) as [e|] eqn:Ec.
    + rewrite IH. f_equal.
      destruct (decide (Forall (fun c => is_Some (σ !! c)) els)) as [F|F].
      * rewrite (bool_decide_eq_true_2 _ F).
        rewrite bool_decide_eq_true_2; [reflexivity|]. constructor; eauto.
      * rewrite (bool_decide_eq_false_2 _ F).
        rewrite bool_decide_eq_false_2; [reflexivity|].
        intros G. apply F. now inversion G.
    + rewrite bool_decide_eq_false_2; [reflexivity|].
      intros G. inversion G as [|? ? [x Hx] ?]. congruence.
Qed.

Lemma targetsMap_lookup (shapes : list Shape) (h : string) :
  targetsMap shapes !! h
  = if bool_decide (h ∈ target_hashes shapes) then Some false else None.
Proof.
  unfold targetsMap, target_hashes.
  assert (G : forall (m : gmap string bool),
            fold_left (fun m sc => <[sc_hash sc := false]> m) shapes m !! h
            = if bool_decide (h ∈ map sc_hash shapes) then Some false else m !! h).
  { induction shapes as [|sc shapes IH]; intros m; cbn [fold_left map].
    - rewrite bool_decide_eq_false_2; [reflexivity | apply not_elem_of_nil].
    - rewrite IH. destruct (decide (h ∈ map sc_hash shapes)) as [I|I].
      + rewrite !bool_decide_eq_true_2; auto. now constructor.
      + rewrite (bool_decide_eq_false_2 _ I).
        destruct (decide (h = sc_hash sc)) as [->|N].
        * rewrite lookup_insert_eq. rewrite bool_decide_eq_true_2; auto.
          constructor.
        * rewrite lookup_insert_ne by congruence.
          rewrite bool_decide_eq_false_2; auto.
          intros G. inversion G; subst; contradiction. }
  rewrite G, lookup_empty. reflexivity.
Qed.

(** What the scan finds: the children to remove are those that do not
    stay, and a target hash is marked when a child carries it. *)
Lemma scan_fold (σ : Dom) (shapes : list Shape) (els : list nat)
    (H : gmap string bool) (rm : list nat) :
  (forall h, is_Some (H !! h) <-> h ∈ target_hashes shapes) ->
  (fold_left (scanStep σ) els (H, rm)).2
  = rm ++ List.filter (fun c => negb (stays σ shapes c)) els
  /\ forall h,
       (fold_left (scanStep σ) els (H, rm)).1 !! h
       = if decide (h ∈ target_hashes shapes
                    /\ Some h ∈ map (fun c => attr_of σ c "cgHash") els)
         then Some true else H !! h.
Proof.
  revert H rm. induction els as [|c els IH]; intros H rm HD.
  - simpl. split; [now rewrite app_nil_r|]. intros h.
    destruct (decide _) as [[_ I]|]; [|reflexivity].
    now apply not_elem_of_nil in I.
  - cbn [fold_left map List.filter].
    assert (Estep : scanStep σ (H, rm) c
                    = if stays σ shapes c then (<[default "" (attr_of σ c "cgHash") := true]> H, rm)
                      else (H, rm ++ [c])).
    { unfold scanStep, stays. cbn [fst snd].
      destruct (attr_of σ c "cgHash") as [h0|]; [|reflexivity]. cbn [default].
      destruct (decide (is_Some (H !! h0))) as [S|S].
      - rewrite (bool_decide_eq_true_2 _ S).
        now rewrite bool_decide_eq_true_2 by now apply HD.
      - rewrite (bool_decide_eq_false_2 _ S).
        rewrite bool_decide_eq_false_2; [reflexivity|]. intros T. now apply S, HD. }
    rewrite Estep.
    destruct (stays σ shapes c) eqn:Est; cbn [negb].
    + unfold stays in Est. destruct (attr_of σ c "cgHash") as [h0|] eqn:Ea;
        [|discriminate]. apply bool_decide_eq_true_1 in Est. cbn [default].
      destruct (IH (<[h0 := true]> H) rm) as [I1 I2].
      { intros h. rewrite <- HD. destruct (decide (h = h0)) as [->|N].
        - rewrite lookup_insert_eq. split; [intros _; now apply HD | eauto].
        - now rewrite lookup_insert_ne by congruence. }
      split; [exact I1|]. intros h. rewrite I2.
      destruct (decide (h = h0)) as [->|N].
      * rewrite lookup_insert_eq.
        rewrite (decide_True (P := _ /\ Some h0 ∈ Some h0 :: _));
          [|split; [assumption | constructor]].
        now destruct (decide _).
      * rewrite lookup_insert_ne by congruence.
        destruct (decide (h ∈ target_hashes shapes
                          /\ Some h ∈ map (fun c => attr_of σ c "cgHash") els))
          as [[D1 D2]|D].
        -- rewrite decide_True; [reflexivity|]. split; [assumption|].
           now constructor.
        -- rewrite decide_False; [reflexivity|]. intros [D1 D2].
           apply D. split; [assumption|].
           inversion D2; subst; [congruence | assumption].
    + destruct (IH H (rm ++ [c]) HD) as [I1 I2].
      split; [rewrite I1; now rewrite <- app_assoc|].
      intros h. rewrite I2.
      destruct (decide (h ∈ target_hashes shapes
                        /\ Some h ∈ map (fun c => attr_of σ c "cgHash") els))
        as [[D1 D2]|D].
      * rewrite decide_True; [reflexivity|]. split; [assumption|].
        now constructor.
      * rewrite decide_False; [reflexivity|]. intros [D1 D2].
        apply D. split; [assumption|].
        apply elem_of_cons in D2 as [E|D2]; [|assumption].
        unfold stays in Est. rewrite <- E in Est.
        now rewrite bool_decide_eq_true_2 in Est.
Qed.

End Loops.

Section Reconciliation.
Context {rt : Runtime}.

Lemma with_childNodes_twice (l1 l2 : list nat) (e : Element) :
  with_childNodes l2 (with_childNodes l1 e) = with_childNodes l2 e.
Proof. reflexivity. Qed.

Lemma remove_first_middle (x : nat) (pre l : list nat) :
  x ∉ pre -> remove_first x (pre ++ x :: l) = pre ++ l.
Proof.
  induction pre as [|y pre IH]; intros N; simpl.
  - now rewrite Nat.eqb_refl.
  - apply not_elem_of_cons in N as [N1 N2].
    destruct (Nat.eqb_spec y x); [congruence|]. now rewrite IH.
Qed.

(** The removals leave the children that were not marked, in their
    order, and never throw. *)
Lemma removal_run (root : nat) (P : nat -> bool) (l pre : list nat)
    (e : Element) (σ : Dom) :
  σ !! root = Some e -> childNodes e = pre ++ l ->
  Forall (fun c => P c = false) pre ->
  forM_ (removeChild root) (List.filter P l) σ
  = (<[root := with_childNodes (pre ++ List.filter (fun c => negb (P c)) l) e]> σ,
     Some tt).
Proof.
  revert pre e σ. induction l as [|x l IH]; intros pre e σ Hr Hc Hpre.
  - cbn [List.filter forM_]. rewrite <- Hc, with_childNodes_id.
    now rewrite insert_id.
  - cbn [List.filter]. destruct (P x) eqn:Px; cbn [negb].
    + cbn [forM_]. rewrite bind_run, removeChild_run, Hr.
      assert (Nx : x ∉ pre).
      { intros I. rewrite Forall_forall in Hpre. specialize (Hpre x I). congruence. }
      rewrite bool_decide_eq_true_2
        by (rewrite Hc; apply elem_of_app; right; constructor).
      rewrite Hc, remove_first_middle by assumption.
      rewrite (IH pre (with_childNodes (pre ++ l) e)); try assumption.
      * now rewrite insert_insert_eq, with_childNodes_twice.
      * apply lookup_insert_eq.
      * reflexivity.
    + rewrite (IH (pre ++ [x]) e σ); try assumption.
      * now rewrite <- app_assoc.
      * now rewrite <- app_assoc.
      * apply Forall_app. split; [assumption | now constructor].
Qed.

(** The appending loop: the root gains new nodes at its end, tagged as the
    items that were needed, and no other node of the store changes. *)
Lemma appendLoop_spec {A : Type} (render : A -> M nat) (need : A -> bool)
    (tagname : string) (tag : A -> string) :
  (forall x σ0 σ, σ0 ⊆ σ ->
     keeps σ0 (render x)
       (fun el σ1 => σ0 !! el = None /\ attr_of σ1 el tagname = Some (tag x)) σ) ->
  forall (items : list A) (root : nat) (σ1 : Dom) (e1 : Element) σ' r,
    σ1 !! root = Some e1 ->
    appendLoop render need root items σ1 = (σ', r) ->
    exists news,
      σ' !! root = Some (with_childNodes (childNodes e1 ++ news) e1)
      /\ (forall n e, n <> root -> σ1 !! n = Some e -> σ' !! n = Some e)
      /\ Forall (fun el => σ1 !! el = None) news
      /\ NoDup news
      /\ (r = Some tt ->
          map (fun el => attr_of σ' el tagname) news
          = map (fun x => Some (tag x)) (List.filter need items)).
Proof.
  intros Hrender items root. induction items as [|x items IH];
    intros σ1 e1 σ' r Hroot Hrun.
  - injection Hrun as <- <-. exists []. rewrite app_nil_r, with_childNodes_id.
    repeat split; auto; constructor.
  - unfold appendLoop in Hrun. cbn [forM_] in Hrun.
    fold (appendLoop render need root items) in Hrun.
    rewrite bind_run in Hrun. cbn [List.filter].
    destruct (need x) eqn:Nx.
    + rewrite bind_run in Hrun.
      destruct (Hrender x σ1 σ1 (reflexivity _)) as [K1 K2].
      destruct (render x σ1) as [σa [el|]] eqn:Er; cbn [fst snd] in *.
      * destruct (K2 el eq_refl) as [Fel Tel].
        rewrite appendChild_run in Hrun.
        rewrite (lookup_weaken _ _ _ _ Hroot K1) in Hrun.
        set (e2 := with_childNodes (childNodes e1 ++ [el]) e1) in Hrun.
        assert (Nel : el <> root) by congruence.
        destruct (IH (<[root := e2]> σa) e2 σ' r) as (news & R1 & R2 & R3 & R4 & R5);
          [apply lookup_insert_eq | exact Hrun |].
        assert (Sel : is_Some (σa !! el)).
        { unfold attr_of in Tel. destruct (σa !! el); [eauto | discriminate]. }
        exists (el :: news). split; [|split; [|split; [|split]]].
        -- rewrite R1. unfold e2. cbn [childNodes with_childNodes].
           now rewrite <- app_assoc.
        -- intros n e Hn Hl. apply R2; [assumption|].
           rewrite lookup_insert_ne by congruence.
           eapply lookup_weaken; eauto.
        -- constructor; [assumption|].
           eapply Forall_impl; [exact R3|]. cbv beta. intros y Hy.
           destruct (σ1 !! y) as [ey|] eqn:Ey; [|reflexivity].
           destruct (decide (y = root)) as [->|Ny].
           ++ now rewrite lookup_insert_eq in Hy.
           ++ rewrite lookup_insert_ne in Hy by congruence.
              now rewrite (lookup_weaken _ _ _ _ Ey K1) in Hy.
        -- constructor; [|assumption]. intros I.
           rewrite Forall_forall in R3. specialize (R3 el I).
           rewrite lookup_insert_ne in R3 by congruence.
           destruct Sel as [? Sel]. congruence.
        -- intros ->. cbn [map]. f_equal; [|now apply R5].
           destruct Sel as [ee Sel].
           assert (Hk : σ' !! el = Some ee).
           { apply R2; [assumption|]. now rewrite lookup_insert_ne by congruence. }
           unfold attr_of in Tel |- *. rewrite Sel in Tel. now rewrite Hk.
      * injection Hrun as <- <-. exists [].
        rewrite app_nil_r, with_childNodes_id.
        split; [eapply lookup_weaken; eauto|].
        split; [intros; eapply lookup_weaken; eauto|].
        repeat split; try constructor. discriminate.
    + change ((mret tt : M unit) σ1) with (σ1, Some tt) in Hrun.
      now apply (IH σ1 e1 σ' r).
Qed.

Lemma filter_map_comm {A B : Type} (f : A -> B) (P : B -> bool) (l : list A) :
  map f (List.filter (fun x => P (f x)) l) = List.filter P (map f l).
Proof.
  induction l as [|x l IH]; simpl; [reflexivity|].
  destruct (P (f x)); simpl; now rewrite IH.
Qed.

Lemma children_of_root (σ : Dom) (root : nat) (e : Element) :
  σ !! root = Some e -> children_of σ root = childNodes e.
Proof. unfold children_of. now intros ->. Qed.

(** What one pass of [syncShapes] does. Either a child of the root is not
    a node of the store, and the pass throws before it changes anything;
    or the root keeps the children that stay, in their order, and gains new
    nodes after them, while every other node of the store is left as it
    was. When the pass returns, the new nodes carry the target hashes that
    no child carried, in the order of the targets. *)
Lemma syncShapes_spec (state : State) (shapes : list Shape)
    (bs : gmap string DrawBrush) (ad : gmap string nat) (root : nat)
    (σ σ' : Dom) (e0 : Element) (r : option unit) :
  σ !! root = Some e0 ->
  syncShapes state shapes bs ad (Some root) σ = (σ', r) ->
  (σ' = σ /\ r = None)
  \/ exists news,
       σ' !! root
       = Some (with_childNodes
                 (List.filter (stays σ shapes) (childNodes e0) ++ news) e0)
       /\ (forall n e, n <> root -> σ !! n = Some e -> σ' !! n = Some e)
       /\ Forall (fun el => σ !! el = None) news
       /\ NoDup news
       /\ (r = Some tt ->
           map (fun el => attr_of σ' el "cgHash") news
           = map Some
               (List.filter (fun h => bool_decide (Some h ∉ child_hashes σ root))
                  (target_hashes shapes))).
Proof.
  intros Hroot Hrun. unfold syncShapes in Hrun.
  fold (targetsMap shapes) in Hrun. cbn [deref] in Hrun.
  rewrite bind_run in Hrun. change ((mret root : M nat) σ) with (σ, Some root) in Hrun.
  cbv iota in Hrun. rewrite bind_run, children_run, Hroot in Hrun.
  cbn [fmap option_fmap option_map] in Hrun.
  rewrite bind_run, scan_run in Hrun.
  destruct (bool_decide (Forall (fun c => is_Some (σ !! c)) (childNodes e0)));
    [|left; now injection Hrun as <- <-].
  right.
  destruct (scan_fold σ shapes (childNodes e0) (targetsMap shapes) []) as [S1 S2].
  { intros h. rewrite targetsMap_lookup.
    destruct (decide (h ∈ target_hashes shapes)) as [I|I].
    - rewrite bool_decide_eq_true_2 by assumption. split; eauto.
    - rewrite bool_decide_eq_false_2 by assumption. split; [intros [? ?]|]; easy. }
  set (scanned := fold_left (scanStep σ) (childNodes e0) (targetsMap shapes, [])) in *.
  rewrite bind_run in Hrun. cbn [app] in S1. rewrite S1 in Hrun.
  rewrite (removal_run root (fun c => negb (stays σ shapes c)) (childNodes e0) [] e0 σ)
    in Hrun; [|assumption | reflexivity | constructor].
  cbn [app] in Hrun.
  assert (Ef : List.filter (fun c => negb (negb (stays σ shapes c))) (childNodes e0)
               = List.filter (stays σ shapes) (childNodes e0)).
  { apply List.filter_ext. intros c. apply negb_involutive. }
  rewrite Ef in Hrun. clear Ef.
  set (e2 := with_childNodes (List.filter (stays σ shapes) (childNodes e0)) e0) in *.
  change (forM_ ?f shapes) with
    (appendLoop (fun sc => renderShape state sc bs ad)
       (fun sc => negb (default false (scanned.1 !! sc_hash sc))) root shapes) in Hrun.
  destruct (appendLoop_spec (fun sc => renderShape state sc bs ad)
              (fun sc => negb (default false (scanned.1 !! sc_hash sc)))
              "cgHash" sc_hash
              (fun sc σ0 σ1 H => keeps_renderShape σ0 σ1 state sc bs ad H)
              shapes root (<[root := e2]> σ) e2 σ' r)
    as (news & R1 & R2 & R3 & R4 & R5); [apply lookup_insert_eq | exact Hrun |].
  exists news. split; [exact R1|]. split; [|split; [|split; [exact R4|]]].
  - intros n e Hn Hl. apply R2; [assumption|]. now rewrite lookup_insert_ne by congruence.
  - eapply Forall_impl; [exact R3|]. cbv beta. intros y Hy.
    destruct (decide (y = root)) as [->|Ny].
    + now rewrite lookup_insert_eq in Hy.
    + now rewrite lookup_insert_ne in Hy by congruence.
  - intros Hr. rewrite (R5 Hr). unfold target_hashes.
    rewrite <- (filter_map_comm sc_hash
                  (fun h => bool_decide (Some h ∉ child_hashes σ root))).
    rewrite <- map_map. f_equal. f_equal.
    apply List.filter_ext_in. intros sc Hsc.
    rewrite S2. unfold child_hashes. rewrite (children_of_root _ _ _ Hroot).
    assert (T : sc_hash sc ∈ target_hashes shapes).
    { unfold target_hashes. apply list_elem_of_In, in_map, Hsc. }
    destruct (decide (Some (sc_hash sc)
                      ∈ map (fun c => attr_of σ c "cgHash") (childNodes e0))) as [I|I].
    + rewrite decide_True by (split; assumption).
      rewrite bool_decide_eq_false_2; [reflexivity | tauto].
    + rewrite decide_False by tauto.
      rewrite targetsMap_lookup, (bool_decide_eq_true_2 _ T).
      now rewrite bool_decide_eq_true_2.
Qed.

Lemma elem_of_Lfilter {A : Type} (f : A -> bool) (l : list A) (x : A) :
  x ∈ List.filter f l <-> x ∈ l /\ f x = true.
Proof. rewrite !list_elem_of_In. apply filter_In. Qed.

Lemma stays_spec (σ : Dom) (shapes : list Shape) (c : nat) :
  stays σ shapes c = true
  <-> exists h, attr_of σ c "cgHash" = Some h /\ h ∈ target_hashes shapes.
Proof.
  unfold stays. destruct (attr_of σ c "cgHash") as [h|].
  - rewrite bool_decide_eq_true. split; [eauto | now intros (h' & [= <-] & I)].
  - split; [discriminate | now intros (h' & [=] & _)].
Qed.

(** The pass leaves the attributes of every node of the store as they
    were, the root included. *)
Lemma syncShapes_attrs (state : State) (shapes : list Shape)
    (bs : gmap string DrawBrush) (ad : gmap string nat) (root : nat)
    (σ σ' : Dom) (e0 : Element) (r : option unit) (n : nat) (k : string) :
  σ !! root = Some e0 ->
  syncShapes state shapes bs ad (Some root) σ = (σ', r) ->
  is_Some (σ !! n) -> attr_of σ' n k = attr_of σ n k.
Proof.
  intros Hroot Hrun [e He].
  destruct (syncShapes_spec _ _ _ _ _ _ _ _ _ Hroot Hrun)
    as [[-> _] | (news & R1 & R2 & _)]; [reflexivity|].
  unfold attr_of. destruct (decide (n = root)) as [->|N].
  - now rewrite R1, Hroot.
  - now rewrite (R2 n e N He), He.
Qed.

End Reconciliation.

(** C4. A pass of [syncShapes] on a container leaves every child whose
    cgHash tag is a target hash where it is: the child is still a child of
    the container, and the node is the node it was, as is every node of the
    store other than the container itself. A child that is no longer a
    child after the pass carried no target hash. When the pass returns, the
    children are the children that were kept, in their order, followed by
    nodes that did not exist before. *)
Theorem syncShapes_keeps_matched {rt : Runtime} (state : State)
    (shapes : list Shape) (bs : gmap string DrawBrush) (ad : gmap string nat)
    (root : nat) (σ σ' : Dom) (e0 : Element) (r : option unit) :
  σ !! root = Some e0 ->
  root ∉ childNodes e0 ->
  syncShapes state shapes bs ad (Some root) σ = (σ', r) ->
  (forall c h, c ∈ childNodes e0 -> attr_of σ c "cgHash" = Some h ->
     h ∈ target_hashes shapes ->
     c ∈ children_of σ' root /\ σ' !! c = σ !! c)
  /\ (forall n e, n <> root -> σ !! n = Some e -> σ' !! n = Some e)
  /\ (forall c h, c ∈ childNodes e0 -> c ∉ children_of σ' root ->
        attr_of σ c "cgHash" = Some h -> h ∉ target_hashes shapes)
  /\ (r = Some tt ->
      exists news,
        children_of σ' root
        = List.filter (stays σ shapes) (childNodes e0) ++ news
        /\ Forall (fun el => σ !! el = None) news).
Proof.
  intros Hroot Hself Hrun.
  destruct (syncShapes_spec _ _ _ _ _ _ _ _ _ Hroot Hrun)
    as [[-> ->] | (news & R1 & R2 & R3 & _)].
  - rewrite (children_of_root _ _ _ Hroot).
    split; [now intros|]. split; [now intros|]. split; [now intros|]. discriminate.
  - assert (Hch : children_of σ' root
                  = List.filter (stays σ shapes) (childNodes e0) ++ news).
    { now rewrite (children_of_root _ _ _ R1). }
    assert (Hkeep : forall c h, c ∈ childNodes e0 ->
              attr_of σ c "cgHash" = Some h -> h ∈ target_hashes shapes ->
              c ∈ children_of σ' root).
    { intros c h Hc Ha Ht. rewrite Hch. apply elem_of_app. left.
      apply elem_of_Lfilter. split; [assumption|]. apply stays_spec. eauto. }
    split; [|split; [exact R2 | split]].
    + intros c h Hc Ha Ht. split; [eauto|].
      assert (N : c <> root) by (intros ->; contradiction).
      unfold attr_of in Ha. destruct (σ !! c) as [e|] eqn:Ec; [|discriminate].
      now apply R2.
    + intros c h Hc Hgone Ha Ht. apply Hgone. eauto.
    + intros _. eauto.
Qed.

(** C1, as the code has it. When the target hashes are pairwise distinct
    and the children that stay carry pairwise distinct tags, a pass of
    [syncShapes] that returns leaves the container with exactly the target
    hashes as the tags of its children, each on one child. *)
Theorem syncShapes_exact_when_distinct {rt : Runtime} (state : State)
    (shapes : list Shape) (bs : gmap string DrawBrush) (ad : gmap string nat)
    (root : nat) (σ σ' : Dom) (e0 : Element) :
  σ !! root = Some e0 ->
  NoDup (target_hashes shapes) ->
  NoDup (map (fun c => attr_of σ c "cgHash")
           (List.filter (stays σ shapes) (childNodes e0))) ->
  syncShapes state shapes bs ad (Some root) σ = (σ', Some tt) ->
  child_hashes σ' root ≡ₚ map Some (target_hashes shapes)
  /\ NoDup (child_hashes σ' root).
Proof.
  intros Hroot HT HK Hrun.
  destruct (syncShapes_spec _ _ _ _ _ _ _ _ _ Hroot Hrun)
    as [[_ [=]] | (news & R1 & R2 & R3 & R4 & R5)].
  specialize (R5 eq_refl).
  set (kept := List.filter (stays σ shapes) (childNodes e0)) in *.
  set (inserted := List.filter
                     (fun h => bool_decide (Some h ∉ child_hashes σ root))
                     (target_hashes shapes)) in *.
  assert (Htags : child_hashes σ' root
                  = map (fun c => attr_of σ c "cgHash") kept ++ map Some inserted).
  { unfold child_hashes. rewrite (children_of_root _ _ _ R1).
    cbn [childNodes with_childNodes]. rewrite map_app, R5. f_equal.
    apply map_ext_in. intros c Hc. apply list_elem_of_In in Hc.
    apply elem_of_Lfilter in Hc as [_ Hs]. apply stays_spec in Hs as (h & Ha & _).
    eapply syncShapes_attrs; eauto.
    unfold attr_of in Ha. destruct (σ !! c); [eauto | discriminate]. }
  assert (Hkept_in : forall x, x ∈ map (fun c => attr_of σ c "cgHash") kept ->
            x ∈ child_hashes σ root /\ x ∈ map Some (target_hashes shapes)).
  { intros x Hx. apply list_elem_of_fmap in Hx as (c & -> & Hc).
    apply elem_of_Lfilter in Hc as [Hc Hs]. split.
    - unfold child_hashes. rewrite (children_of_root _ _ _ Hroot).
      apply list_elem_of_fmap. eauto.
    - apply stays_spec in Hs as (h & -> & Ht). apply list_elem_of_fmap. eauto. }
  assert (Hins : forall h, h ∈ inserted
            <-> h ∈ target_hashes shapes /\ Some h ∉ child_hashes σ root).
  { intros h. unfold inserted. rewrite elem_of_Lfilter, bool_decide_eq_true.
    reflexivity. }
  assert (ND : NoDup (child_hashes σ' root)).
  { rewrite Htags. apply NoDup_app. split; [exact HK|]. split.
    - intros x Hx Hi. apply Hkept_in in Hx as [Hx _].
      apply list_elem_of_fmap in Hi as (h & -> & Hi).
      apply Hins in Hi as [_ Hi]. contradiction.
    - apply (NoDup_fmap_2 Some). unfold inserted.
      now apply NoDup_ListNoDup, List.NoDup_filter, NoDup_ListNoDup. }
  split; [|exact ND].
  apply NoDup_Permutation; [exact ND | now apply (NoDup_fmap_2 Some) |].
  intros x. rewrite Htags, elem_of_app. split.
  - intros [Hx | Hx]; [now apply Hkept_in|].
    apply list_elem_of_fmap in Hx as (h & -> & Hi).
    apply Hins in Hi as [Hi _]. apply list_elem_of_fmap. eauto.
  - intros Hx. apply list_elem_of_fmap in Hx as (h & -> & Ht).
    destruct (decide (Some h ∈ child_hashes σ root)) as [I|I].
    + left. unfold child_hashes in I. rewrite (children_of_root _ _ _ Hroot) in I.
      apply list_elem_of_fmap in I as (c & Ea & Hc).
      apply list_elem_of_fmap. exists c. split; [assumption|].
      apply elem_of_Lfilter. split; [assumption|]. apply stays_spec. eauto.
    + right. apply list_elem_of_fmap. exists h. split; [reflexivity|].
      apply Hins. auto.
Qed.

Lemma syncShapes_keeps_matched_witness :
  5 ∈ children_of
        (syncShapes (rt := demo) (onBoard circleAndArrow)
           (hashedShapes (rt := demo) circleAndArrow) demoBrushes
           (arrowDestsOf circleAndArrow) (Some 2) afterOneCircle.2.1).1 2
  /\ (syncShapes (rt := demo) (onBoard circleAndArrow)
        (hashedShapes (rt := demo) circleAndArrow) demoBrushes
        (arrowDestsOf circleAndArrow) (Some 2) afterOneCircle.2.1).1 !! 5
     = afterOneCircle.2.1 !! 5.
Proof.
  destruct (@syncShapes_keeps_matched demo (onBoard circleAndArrow)
              (hashedShapes (rt := demo) circleAndArrow) demoBrushes
              (arrowDestsOf circleAndArrow) 2 afterOneCircle.2.1
              (syncShapes (rt := demo) (onBoard circleAndArrow)
                 (hashedShapes (rt := demo) circleAndArrow) demoBrushes
                 (arrowDestsOf circleAndArrow) (Some 2) afterOneCircle.2.1).1
              (with_childNodes [5] (newElement "g"))
              (Some tt))
    as [H _].
  - vm_compute. reflexivity.
  - vm_compute. intros H. inversion H as [|? ? ? H']. inversion H'.
  - vm_compute. reflexivity.
  - apply (H 5 "a1,green"); [constructor | vm_compute; reflexivity |].
    vm_compute. constructor.
Defined.

Lemma syncShapes_exact_when_distinct_witness :
  child_hashes
    (syncShapes (rt := demo) (onBoard circleAndArrow)
       (hashedShapes (rt := demo) circleAndArrow) demoBrushes
       (arrowDestsOf circleAndArrow) (Some 2) afterOneCircle.2.1).1 2
  ≡ₚ map Some (target_hashes (hashedShapes (rt := demo) circleAndArrow))
  /\ NoDup (child_hashes
              (syncShapes (rt := demo) (onBoard circleAndArrow)
                 (hashedShapes (rt := demo) circleAndArrow) demoBrushes
                 (arrowDestsOf circleAndArrow) (Some 2) afterOneCircle.2.1).1 2).
Proof.
  apply (@syncShapes_exact_when_distinct demo (onBoard circleAndArrow)
           (hashedShapes (rt := demo) circleAndArrow) demoBrushes
           (arrowDestsOf circleAndArrow) 2 afterOneCircle.2.1
           (syncShapes (rt := demo) (onBoard circleAndArrow)
              (hashedShapes (rt := demo) circleAndArrow) demoBrushes
              (arrowDestsOf circleAndArrow) (Some 2) afterOneCircle.2.1).1
           (with_childNodes [5] (newElement "g"))).
  - vm_compute. reflexivity.
  - apply (bool_decide_unpack (NoDup _)). vm_compute. exact I.
  - apply (bool_decide_unpack (NoDup _)). vm_compute. exact I.
  - vm_compute. reflexivity.
Defined.

(** C1 fails as stated, in two ways. On the empty overlay, a cycle for the
    same arrow twice is not short-circuited and leaves the hash of the
    arrow on two children of the container. After a cycle for one circle,
    a cycle for the same circle twice is not short-circuited either; its
    target list holds the hash twice, and the container keeps its one
    child. *)
Lemma syncShapes_duplicate_hashes :
  (fullHashOf (rt := demo) sameArrowTwice <> prevSvgHash sameArrowTwice
   /\ (renderSvg (rt := demo) (onBoard sameArrowTwice) 0 3 emptyOverlay).2.2
      = Some tt
   /\ target_hashes (hashedShapes (rt := demo) sameArrowTwice)
      = ["a1,h1,green,true"; "a1,h1,green,true"]
   /\ child_hashes
        (renderSvg (rt := demo) (onBoard sameArrowTwice) 0 3 emptyOverlay).2.1 2
      = [Some "a1,h1,green,true"; Some "a1,h1,green,true"])
  /\ (child_hashes afterOneCircle.2.1 2 = [Some "a1,green"]
      /\ prevSvgHash (drawable afterOneCircle.1) = prevSvgHash sameCircleTwice
      /\ fullHashOf (rt := demo) sameCircleTwice <> prevSvgHash sameCircleTwice
      /\ (renderSvg (rt := demo) (onBoard sameCircleTwice) 0 3
            afterOneCircle.2.1).2.2 = Some tt
      /\ target_hashes (hashedShapes (rt := demo) sameCircleTwice)
         = ["a1,green"; "a1,green"]
      /\ child_hashes
           (renderSvg (rt := demo) (onBoard sameCircleTwice) 0 3
              afterOneCircle.2.1).2.1 2
         = [Some "a1,green"]).
Proof.
  repeat split; try (vm_compute; reflexivity); vm_compute; discriminate.
Qed.

(** ** The line of an arrow *)

Section ArrowLine.
Context {rt : Runtime}.

Lemma forM_setAttribute_insert (el : nat) (attrs : list (string * JsValue))
    (e : Element) (σ : Dom) :
  forM_ (fun kv => setAttribute el kv.1 kv.2) attrs (<[el := e]> σ)
  = (<[el := with_attributes (set_all attrs (attributes e)) e]> σ, Some tt).
Proof.
  revert e. induction attrs as [|[k v] attrs IH]; intros e.
  - cbn [forM_ set_all fold_left]. now rewrite with_attributes_id.
  - cbn [forM_]. rewrite bind_run, setAttribute_run, lookup_insert_eq.
    rewrite insert_insert_eq, IH. reflexivity.
Qed.

Lemma setAttributes_insert (el : nat) (attrs : list (string * JsValue))
    (e : Element) (σ : Dom) :
  setAttributes el attrs (<[el := e]> σ)
  = (<[el := with_attributes (set_all attrs (attributes e)) e]> σ, Some el).
Proof.
  unfold setAttributes. now rewrite bind_run, forM_setAttribute_insert.
Qed.

Lemma renderArrow_run (brush : BrushValue) (orig dest : float * float)
    (current shorten : bool) (σ : Dom) :
  renderArrow (Some brush) orig dest current shorten σ
  = (<[fresh (dom σ) :=
         with_attributes
           (set_all (arrowAttributes brush orig dest current shorten) [])
           (newElement "line")]> σ,
     Some (fresh (dom σ))).
Proof.
  unfold renderArrow. rewrite bind_run. unfold createElement at 1. cbv zeta.
  rewrite bind_run. cbn [deref].
  change ((mret brush : M BrushValue) ?s) with (s, Some brush).
  cbv iota beta. now rewrite setAttributes_insert.
Qed.

End ArrowLine.

(** C9, as the code has it. The line of an arrow ends short of the centre
    of the destination by a margin, along the angle of the line. The margin
    is 20/64 for an arrow that has the shorten flag and is not the shape
    being drawn, and 10/64 otherwise: the shape being drawn keeps the
    margin 10/64 even with the shorten flag. The shape being drawn also has
    its stroke width scaled by 0.85 and its opacity by 0.9. *)
Theorem renderArrow_margin {rt : Runtime} (brush : DrawBrush)
    (orig dest : float * float) (current shorten : bool) (σ : Dom) :
  let m := (if shorten && negb current then 20 / 64 else 10 / 64)%float in
  let a := pos2user orig in
  let b := pos2user dest in
  let angle := Math_atan2 (b.2 - a.2)%float (b.1 - a.1)%float in
  let w := if num_truthy (brush_lineWidth brush)
           then brush_lineWidth brush else 10%float in
  let op := if num_truthy (brush_opacity brush)
            then brush_opacity brush else 1%float in
  let el := fresh (dom σ) in
  let σ' := (renderArrow (Some (own brush)) orig dest current shorten σ).1 in
  (renderArrow (Some (own brush)) orig dest current shorten σ).2 = Some el
  /\ attr_of σ' el "x1" = Some (num_toString a.1)
  /\ attr_of σ' el "y1" = Some (num_toString a.2)
  /\ attr_of σ' el "x2" = Some (num_toString (b.1 - Math_cos angle * m)%float)
  /\ attr_of σ' el "y2" = Some (num_toString (b.2 - Math_sin angle * m)%float)
  /\ attr_of σ' el "stroke-width"
     = Some (num_toString (w * (if current then 0.85 else 1) / 64)%float)
  /\ attr_of σ' el "opacity"
     = Some (num_toString (op * (if current then 0.9 else 1))%float).
Proof.
  intros m a b angle w op el σ'. subst σ'. rewrite renderArrow_run.
  cbn [fst snd]. fold el. unfold attr_of. rewrite lookup_insert_eq.
  split; [reflexivity|].
  unfold arrowAttributes, set_all, lineWidth, opacity, arrowMargin, js_or.
  cbn [own bv_key bv_color bv_opacity bv_lineWidth optNum optStr truthy].
  subst w op m.
  destruct (num_truthy (brush_lineWidth brush)),
    (num_truthy (brush_opacity brush)), shorten, current; repeat split.
Qed.

(** C9 fails as stated: the arrow a1-h1 with the shorten flag ends at
    7 - 20/64 when it is committed and at 7 - 10/64 when it is the shape
    being drawn. *)
Lemma preview_arrow_margin :
  attr_of (renderArrow (rt := demo) (Some (own green)) (0, 0)%float (7, 0)%float
             true true ∅).1 0 "x2" = Some "6.84375"
  /\ attr_of (renderArrow (rt := demo) (Some (own green)) (0, 0)%float
                (7, 0)%float false true ∅).1 0 "x2" = Some "6.6875"
  /\ demo_toString (7 - 20 / 64)%float = "6.6875"
  /\ demo_toString (7 - 10 / 64)%float = "6.84375".
Proof. repeat split; vm_compute; reflexivity. Qed.

(** ** The marker catalog *)

Section Catalog.
Context {rt : Runtime}.

Lemma collect_run (d : Drawable) (shapes : list Shape)
    (acc : list (option string * BrushValue)) (σ : Dom) :
  foldM (collectBrush d) shapes acc σ = (σ, collectAll d shapes acc).
Proof.
  revert acc. induction shapes as [|s shapes IH]; intros acc; [reflexivity|].
  cbn [foldM collectAll]. rewrite bind_run. unfold collectBrush, effectiveBrush.
  destruct (truthy (optStr (dest (sc_shape s)))).
  - rewrite bind_run.
    destruct (brushNamed (brushes d) (brush (sc_shape s))) as [base|];
      [|reflexivity].
    cbn [deref]. apply IH.
  - apply IH.
Qed.

Lemma map_set_keys {V : Type} (k : option string) (v : V)
    (m : list (option string * V)) :
  map fst (map_set k v m)
  = if bool_decide (k ∈ map fst m) then map fst m else map fst m ++ [k].
Proof.
  induction m as [|[k' v'] m IH]; cbn [map_set map fst].
  - rewrite bool_decide_eq_false_2; [reflexivity | apply not_elem_of_nil].
  - destruct (decide (k' = k)) as [->|N].
    + rewrite (bool_decide_eq_true_2 (k = k)) by reflexivity. cbn [map fst].
      rewrite bool_decide_eq_true_2; [reflexivity | constructor].
    + rewrite (bool_decide_eq_false_2 (k' = k)) by assumption. cbn [map fst].
      rewrite IH. destruct (decide (k ∈ map fst m)) as [I|I].
      * rewrite !bool_decide_eq_true_2; auto. now constructor.
      * rewrite !bool_decide_eq_false_2; auto.
        intros G. apply elem_of_cons in G as [G|G]; congruence.
Qed.

Lemma map_set_entries {V : Type} (k : option string) (v : V)
    (m : list (option string * V)) (P : option string * V -> Prop) :
  Forall P m -> P (k, v) -> Forall P (map_set k v m).
Proof.
  intros Hm Hk. induction m as [|[k' v'] m IH]; cbn [map_set].
  - now constructor.
  - inversion Hm; subst. destruct (bool_decide (k' = k)); constructor; auto.
Qed.

(** The map the first loop builds: one entry for each required key, under
    the key of its brush. *)
Lemma collectAll_spec (d : Drawable) (shapes : list Shape)
    (acc needed : list (option string * BrushValue)) :
  collectAll d shapes acc = Some needed ->
  NoDup (map fst acc) -> Forall (fun kb => bv_key kb.2 = kb.1) acc ->
  NoDup (map fst needed)
  /\ Forall (fun kb => bv_key kb.2 = kb.1) needed
  /\ forall k, k ∈ map fst needed
               <-> k ∈ map fst acc \/ k ∈ requiredKeys d shapes.
Proof.
  revert acc. induction shapes as [|s shapes IH]; intros acc Hc Hn Hk.
  - injection Hc as <-. split; [assumption|]. split; [assumption|].
    intros k. cbn. rewrite elem_of_nil. tauto.
  - cbn [collectAll] in Hc. unfold requiredKeys. cbn [omap list_omap].
    fold (requiredKeys d shapes).
    destruct (truthy (optStr (dest (sc_shape s)))).
    + destruct (effectiveBrush d (sc_shape s)) as [b|]; [|discriminate].
      cbn [fmap option_fmap option_map].
      destruct (IH _ Hc) as (I1 & I2 & I3).
      * rewrite map_set_keys. destruct (bool_decide _) eqn:E; [assumption|].
        apply bool_decide_eq_false_1 in E.
        apply NoDup_app. split; [assumption|]. split.
        -- intros x Hx Hx'. apply list_elem_of_singleton in Hx'. congruence.
        -- apply NoDup_singleton.
      * apply map_set_entries; [assumption | reflexivity].
      * split; [assumption|]. split; [assumption|].
        intros k. rewrite I3, map_set_keys, elem_of_cons.
        destruct (bool_decide _) eqn:E.
        -- apply bool_decide_eq_true_1 in E. split; [tauto|].
           intros [H | [-> | H]]; auto.
        -- rewrite elem_of_app, list_elem_of_singleton. tauto.
    + destruct (IH _ Hc) as (I1 & I2 & I3); auto.
Qed.

(** The Set of keys found in the catalog. *)
Lemma keys_run (els : list nat) (keys : gset (option string)) (σ : Dom) :
  exists r,
    foldM (fun (keys : gset (option string)) el =>
             k ← getAttribute el "cgKey"; mret ({[ k ]} ∪ keys)) els keys σ
    = (σ, r)
    /\ forall K, r = Some K ->
         Forall (fun c => is_Some (σ !! c)) els
         /\ forall x, x ∈ K <-> x ∈ keys \/ x ∈ map (fun c => attr_of σ c "cgKey") els.
Proof.
  revert keys. induction els as [|c els IH]; intros keys.
  - exists (Some keys). split; [reflexivity|]. intros K [= <-].
    split; [constructor|]. intros x. cbn. rewrite elem_of_nil. tauto.
  - cbn [foldM]. rewrite bind_run, bind_run, getAttribute_run.
    destruct (σ !! c) as [e|] eqn:Ec.
    + change ((mret ({[attr_get "cgKey" (attributes e)]} ∪ keys)
                 : M (gset (option string))) σ)
        with (σ, Some ({[attr_get "cgKey" (attributes e)]} ∪ keys)).
      cbv iota beta.
      destruct (IH ({[attr_get "cgKey" (attributes e)]} ∪ keys)) as (r & Hr & HK).
      exists r. split; [exact Hr|]. intros K HKr.
      destruct (HK K HKr) as [HF HK']. split; [constructor; eauto|].
      intros x. rewrite (HK' x).
      cbn [map]. unfold attr_of at 2. rewrite Ec.
      rewrite elem_of_union, elem_of_singleton, elem_of_cons. tauto.
    + exists None. split; [reflexivity | discriminate].
Qed.

Lemma if_negb {A : Type} (b : bool) (x y : A) :
  (if b then x else y) = (if negb b then y else x).
Proof. now destruct b. Qed.

(** [keysInDom.has], from what the catalog holds. *)
Lemma hasKey_present (K : gset (option string)) (σ : Dom) (defs : nat)
    (key : option string) :
  (forall x, x ∈ K <-> x ∈ (∅ : gset (option string)) \/ x ∈ child_keys σ defs) ->
  hasKey K key = keyPresent σ defs key.
Proof.
  intros HK. unfold hasKey, keyPresent. destruct key as [k|]; [|reflexivity].
  destruct (decide (Some k ∈ K)) as [I|I].
  - rewrite (bool_decide_eq_true_2 _ I). symmetry. apply bool_decide_eq_true_2.
    apply HK in I as [I|I]; [|assumption]. now apply not_elem_of_empty in I.
  - rewrite (bool_decide_eq_false_2 _ I). symmetry. apply bool_decide_eq_false_2.
    intros N. apply I, HK. now right.
Qed.

(** What one cycle of [syncDefs] does to the catalog: it gains new markers
    at its end and nothing else changes. When the cycle returns, the new
    markers carry the text of the required keys that are undefined or that
    no marker carried, once each. *)
Lemma syncDefs_spec (d : Drawable) (shapes : list Shape) (defs : nat)
    (σ σ' : Dom) (e0 : Element) (r : option unit) :
  σ !! defs = Some e0 ->
  syncDefs d shapes (Some defs) σ = (σ', r) ->
  exists news,
    σ' !! defs = Some (with_childNodes (childNodes e0 ++ news) e0)
    /\ (forall n e, n <> defs -> σ !! n = Some e -> σ' !! n = Some e)
    /\ Forall (fun el => σ !! el = None) news
    /\ NoDup news
    /\ (r = Some tt ->
        exists needed,
          collectAll d shapes [] = Some needed
          /\ Forall (fun c => is_Some (σ !! c)) (childNodes e0)
          /\ map (fun el => attr_of σ' el "cgKey") news
             = map (fun k => Some (keyText k))
                 (List.filter (fun k => negb (keyPresent σ defs k))
                    (map fst needed))).
Proof.
  intros Hroot Hrun.
  assert (Same : forall r0, r0 = None ->
            exists news,
              σ !! defs = Some (with_childNodes (childNodes e0 ++ news) e0)
              /\ (forall n e, n <> defs -> σ !! n = Some e -> σ !! n = Some e)
              /\ Forall (fun el => σ !! el = None) news
              /\ NoDup news
              /\ (r0 = Some tt ->
                  exists needed,
                    collectAll d shapes [] = Some needed
                    /\ Forall (fun c => is_Some (σ !! c)) (childNodes e0)
                    /\ map (fun el => attr_of σ el "cgKey") news
                       = map (fun k => Some (keyText k))
                           (List.filter (fun k => negb (keyPresent σ defs k))
                              (map fst needed)))).
  { intros r0 ->. exists []. rewrite app_nil_r, with_childNodes_id.
    repeat split; auto; try constructor. discriminate. }
  unfold syncDefs in Hrun. rewrite bind_run, collect_run in Hrun.
  destruct (collectAll d shapes []) as [needed|] eqn:Ec;
    [|injection Hrun as <- <-; now apply Same].
  rewrite bind_run in Hrun. cbn [deref] in Hrun.
  change ((mret defs : M nat) σ) with (σ, Some defs) in Hrun. cbv iota in Hrun.
  rewrite bind_run, children_run, Hroot in Hrun.
  cbn [fmap option_fmap option_map] in Hrun. rewrite bind_run in Hrun.
  destruct (keys_run (childNodes e0) ∅ σ) as (rk & Hk & HK).
  rewrite Hk in Hrun.
  destruct rk as [K|]; [|injection Hrun as <- <-; now apply Same].
  destruct (HK K eq_refl) as [HF HK']. clear HK. rename HK' into HK.
  rewrite (forM_ext _
             (fun kb : option string * BrushValue =>
                if negb (hasKey K kb.1)
                then el ← renderMarker kb.2; appendChild defs el else mret tt))
    in Hrun by (intros; apply if_negb).
  change (forM_ ?f needed) with
    (appendLoop (fun kb : option string * BrushValue => renderMarker kb.2)
       (fun kb => negb (hasKey K kb.1)) defs needed) in Hrun.
  destruct (appendLoop_spec (fun kb : option string * BrushValue => renderMarker kb.2)
              (fun kb => negb (hasKey K kb.1))
              "cgKey" (fun kb => keyText (bv_key kb.2))
              (fun kb σ0 σ1 H => keeps_renderMarker σ0 σ1 kb.2 H)
              needed defs σ e0 σ' r Hroot Hrun)
    as (news & R1 & R2 & R3 & R4 & R5).
  exists news. repeat (split; [assumption|]).
  intros Hr. exists needed. split; [reflexivity|]. split; [exact HF|].
  rewrite (R5 Hr).
  destruct (collectAll_spec d shapes [] needed Ec) as (_ & Hkeys & _);
    [constructor | constructor |].
  rewrite <- (filter_map_comm fst (fun k => negb (keyPresent σ defs k))).
  assert (Efilter :
    List.filter (fun kb : option string * BrushValue => negb (hasKey K kb.1)) needed
    = List.filter (fun kb => negb (keyPresent σ defs kb.1)) needed).
  { apply List.filter_ext. intros kb. f_equal. apply hasKey_present.
    unfold child_keys. now rewrite (children_of_root _ _ _ Hroot). }
  rewrite Efilter. rewrite map_map.
  apply map_ext_in. intros kb Hkb. apply filter_In in Hkb as [Hkb _].
  rewrite Forall_forall in Hkeys. f_equal. f_equal. apply Hkeys.
  now apply list_elem_of_In.
Qed.

(** One cycle that returns and whose required keys are defined, seen from
    the keys of the catalog. *)
Lemma syncDefs_cycle (d : Drawable) (shapes : list Shape) (defs : nat)
    (σ σ' : Dom) (e0 : Element) :
  σ !! defs = Some e0 ->
  NoDup (child_keys σ defs) ->
  None ∉ requiredKeys d shapes ->
  syncDefs d shapes (Some defs) σ = (σ', Some tt) ->
  (exists e1, σ' !! defs = Some e1 /\ Forall (alive σ') (childNodes e1))
  /\ NoDup (child_keys σ' defs)
  /\ (forall k, Some k ∈ child_keys σ' defs
                <-> Some k ∈ child_keys σ defs \/ Some k ∈ requiredKeys d shapes)
  /\ children_of σ defs `prefix_of` children_of σ' defs
  /\ child_keys σ defs `prefix_of` child_keys σ' defs
  /\ (forall n e, n <> defs -> σ !! n = Some e -> σ' !! n = Some e).
Proof.
  intros Hroot HN Hdef Hrun.
  destruct (syncDefs_spec _ _ _ _ _ _ _ Hroot Hrun)
    as (news & R1 & R2 & R3 & R4 & R5).
  destruct (R5 eq_refl) as (needed & Ec & HF & Hkeys). clear R5.
  destruct (collectAll_spec d shapes [] needed Ec) as (K1 & _ & K3);
    [constructor | constructor |].
  set (newkeys := List.filter (fun k => negb (keyPresent σ defs k))
                    (map fst needed)) in *.
  assert (Hch : children_of σ' defs = children_of σ defs ++ news).
  { now rewrite (children_of_root _ _ _ R1), (children_of_root _ _ _ Hroot). }
  assert (Hold : forall c, c ∈ childNodes e0 ->
            is_Some (σ' !! c) /\ attr_of σ' c "cgKey" = attr_of σ c "cgKey").
  { intros c Hc. rewrite Forall_forall in HF. destruct (HF c Hc) as [e He].
    unfold attr_of. destruct (decide (c = defs)) as [->|N].
    - rewrite R1, Hroot. split; [eauto | reflexivity].
    - rewrite (R2 c e N He), He. split; [eauto | reflexivity]. }
  assert (Hck : child_keys σ' defs
                = child_keys σ defs ++ map (fun k => Some (keyText k)) newkeys).
  { unfold child_keys at 1 2. rewrite Hch, map_app, Hkeys. f_equal.
    rewrite (children_of_root _ _ _ Hroot). apply map_ext_in. intros c Hc.
    now apply Hold, list_elem_of_In. }
  assert (Hnew : forall k, k ∈ newkeys
            <-> k ∈ requiredKeys d shapes /\ keyPresent σ defs k = false).
  { intros k. unfold newkeys. rewrite elem_of_Lfilter, K3, negb_true_iff.
    rewrite elem_of_nil. tauto. }
  assert (Hsome : forall k, k ∈ newkeys -> exists t, k = Some t).
  { intros [t|] Hk; [eauto|]. apply Hnew in Hk as [Hk _]. contradiction. }
  assert (Htext : forall x, x ∈ map (fun k => Some (keyText k)) newkeys
            <-> exists t, x = Some t /\ Some t ∈ newkeys).
  { intros x. rewrite list_elem_of_fmap. split.
    - intros (k & -> & Hk). destruct (Hsome k Hk) as [t ->]. eauto.
    - intros (t & -> & Ht). exists (Some t). auto. }
  split; [|split; [|split; [|split; [|split]]]].
  - eexists. split; [exact R1|]. cbn [childNodes with_childNodes].
    apply Forall_forall. intros c Hc. apply elem_of_app in Hc as [Hc|Hc].
    + now apply Hold.
    + assert (I : attr_of σ' c "cgKey" ∈ map (fun k => Some (keyText k)) newkeys).
      { rewrite <- Hkeys. apply list_elem_of_fmap. eauto. }
      apply list_elem_of_fmap in I as (k & Ek & _).
      unfold alive. unfold attr_of in Ek. destruct (σ' !! c); [eauto | discriminate].
  - rewrite Hck. apply NoDup_app. split; [assumption|]. split.
    + intros x Hx Hx'. apply Htext in Hx' as (t & -> & Ht).
      apply Hnew in Ht as [_ Ht]. unfold keyPresent in Ht.
      now apply bool_decide_eq_false_1 in Ht.
    + assert (ND : NoDup newkeys).
      { unfold newkeys. now apply NoDup_ListNoDup, List.NoDup_filter, NoDup_ListNoDup. }
      clear -ND Hsome. induction newkeys as [|k l IH]; [constructor|].
      apply NoDup_cons in ND as [N1 N2]. cbn [map]. apply NoDup_cons. split.
      * intros I. apply list_elem_of_fmap in I as (k' & E & Hk').
        destruct (Hsome k (list_elem_of_here _ _)) as [t ->].
        destruct (Hsome k' (list_elem_of_further _ _ _ Hk')) as [t' ->].
        injection E as E. change (t = t') in E. subst t'. exact (N1 Hk').
      * apply IH; [|assumption]. intros x Hx. apply Hsome. now constructor.
  - intros k. rewrite Hck, elem_of_app, Htext. split.
    + intros [H | (t & [= <-] & Ht)]; [now left|]. right. now apply Hnew in Ht.
    + intros [H | H]; [now left|].
      destruct (decide (Some k ∈ child_keys σ defs)) as [I|I]; [now left|].
      right. exists k. split; [reflexivity|]. apply Hnew. split; [assumption|].
      unfold keyPresent. now apply bool_decide_eq_false_2.
  - rewrite Hch. now apply prefix_app_r.
  - rewrite Hck. now apply prefix_app_r.
  - exact R2.
Qed.

End Catalog.

(** * Further properties of the code *)

(** ** Hashing *)

(** X1. The hash of a shape depends on the destination counts only through
    the shorten flag of its own destination: counts that give that flag the
    same value give the same hash, so a third arrow landing on a square
    leaves the hashes of the two arrows already there as they are. *)
Theorem shapeHash_only_flag {rt : Runtime} (s : DrawShape)
    (ad1 ad2 : gmap string nat) (c : bool) :
  (forall d, dest s = Some d -> manyArrows ad1 d = manyArrows ad2 d) ->
  shapeHash s ad1 c = shapeHash s ad2 c.
Proof.
  intros H. unfold shapeHash, shapeTokens.
  destruct (dest s) as [d|]; [|reflexivity]. now rewrite (H d eq_refl).
Qed.

Lemma shapeHash_only_flag_witness :
  shapeHash (rt := demo) (arrowShape "a1" "h1" "green") {[ "h1" := 2 ]} false
  = shapeHash (rt := demo) (arrowShape "a1" "h1" "green") {[ "h1" := 3 ]} false.
Proof.
  apply (@shapeHash_only_flag demo). intros d [= <-]. reflexivity.
Defined.

(** One step of the rolling hash is injective in the state and, on code
    units, in the code unit. *)
Lemma hashStep_inj_state (a b c : Z) :
  (0 <= a < 2 ^ 32)%Z -> (0 <= b < 2 ^ 32)%Z ->
  hashStep a c = hashStep b c -> a = b.
Proof.
  intros Ha Hb. rewrite !hashStep_31. intros E.
  pose proof (Z.div_mod (31 * a + c) (2 ^ 32) ltac:(lia)) as Da.
  pose proof (Z.div_mod (31 * b + c) (2 ^ 32) ltac:(lia)) as Db.
  rewrite E in Da.
  set (qa := ((31 * a + c) / 2 ^ 32)%Z) in *.
  set (qb := ((31 * b + c) / 2 ^ 32)%Z) in *.
  assert (D : (31 * (a - b) = 2 ^ 32 * (qa - qb))%Z) by lia.
  assert (D' : (a - b = 2 ^ 32 * (3186588639 * (qa - qb) - 23 * (a - b)))%Z) by lia.
  lia.
Qed.

Lemma hashStep_range (h c : Z) : (0 <= hashStep h c < 2 ^ 32)%Z.
Proof. rewrite hashStep_31. apply Z.mod_pos_bound. lia. Qed.

Lemma rolling_inj_state (l : list Z) (a b : Z) :
  (0 <= a < 2 ^ 32)%Z -> (0 <= b < 2 ^ 32)%Z ->
  fold_left hashStep l a = fold_left hashStep l b -> a = b.
Proof.
  revert a b. induction l as [|c l IH]; intros a b Ha Hb E; [exact E|].
  simpl in E. apply IH in E; try apply hashStep_range.
  now apply hashStep_inj_state in E.
Qed.

Lemma hashStep_inj_code (h c1 c2 : Z) :
  (0 <= c1 < 2 ^ 32)%Z -> (0 <= c2 < 2 ^ 32)%Z ->
  hashStep h c1 = hashStep h c2 -> c1 = c2.
Proof.
  intros B1 B2. rewrite !hashStep_31. intros E.
  pose proof (Z.div_mod (31 * h + c1) (2 ^ 32) ltac:(lia)) as D1.
  pose proof (Z.div_mod (31 * h + c2) (2 ^ 32) ltac:(lia)) as D2.
  rewrite E in D1. lia.
Qed.

Lemma codesHash_one_unit (pre post : list Z) (c1 c2 : Z) :
  (0 <= c1 < 65536)%Z -> (0 <= c2 < 65536)%Z ->
  codesHash (pre ++ c1 :: post) = codesHash (pre ++ c2 :: post) -> c1 = c2.
Proof.
  intros B1 B2 E. unfold codesHash in E. apply app_cancel_l in E.
  apply int_toString_inj in E. rewrite !fold_left_app in E. simpl in E.
  apply rolling_inj_state in E; try apply hashStep_range.
  apply hashStep_inj_code in E; [exact E | lia | lia].
Qed.

Lemma charCodes_range (t : string) :
  Forall (fun c => 0 <= c < 256)%Z (charCodes t).
Proof.
  unfold charCodes. apply Forall_forall. intros c Hc.
  apply list_elem_of_fmap in Hc as (a & -> & _).
  pose proof (nat_ascii_bounded a). lia.
Qed.

(** X2. Two markup texts that differ in exactly one UTF-16 code unit never
    share their hash: 31 is invertible modulo 2^32 and a code unit is below
    2^16. So a shape of the model whose markup is edited in one place gets
    a new hash and is rendered again. One character outside the basic
    plane is two code units, and two texts that differ in one such
    character can share their hash: U+1F61F and U+1FA00 do. *)
Theorem shapeHash_markup_one_code_unit {rt : Runtime} (s : DrawShape)
    (ad : gmap string nat) (c : bool) :
  (forall t, customSvgHash t = codesHash (charCodes t))
  /\ (forall pre post c1 c2,
        (0 <= c1 < 65536)%Z -> (0 <= c2 < 65536)%Z -> c1 <> c2 ->
        codesHash (pre ++ c1 :: post) <> codesHash (pre ++ c2 :: post))
  /\ (forall t1 t2 pre post c1 c2,
        charCodes t1 = pre ++ c1 :: post -> charCodes t2 = pre ++ c2 :: post ->
        c1 <> c2 ->
        shapeHash (with_customSvg (Some t1) s) ad c
        <> shapeHash (with_customSvg (Some t2) s) ad c)
  /\ codesHash [55357; 56863]%Z = codesHash [55358; 56832]%Z.
Proof.
  split; [reflexivity|].
  split.
  { intros pre post c1 c2 B1 B2 N E. now apply codesHash_one_unit in E. }
  split; [|vm_compute; reflexivity].
  intros t1 t2 pre post c1 c2 E1 E2 N.
  assert (B : forall t p q x, charCodes t = p ++ x :: q -> (0 <= x < 65536)%Z /\ t <> "").
  { intros t p q x E. split.
    - pose proof (charCodes_range t) as F. rewrite E in F.
      apply Forall_app in F as [_ F]. apply Forall_cons in F as [F _]. lia.
    - intros ->. destruct p; discriminate. }
  destruct (B _ _ _ _ E1) as [B1 N1], (B _ _ _ _ E2) as [B2 N2].
  intros E. apply hash_customSvg in E; [|assumption|assumption].
  apply N. apply (codesHash_one_unit pre post); [assumption | assumption|].
  rewrite <- E1, <- E2. unfold codesHash. fold (rollingHash t1) (rollingHash t2).
  now rewrite E.
Qed.

Lemma shapeHash_markup_one_code_unit_witness :
  shapeHash (rt := demo) (markupShape "a1" "<a/>") ∅ false
  <> shapeHash (rt := demo) (markupShape "a1" "<b/>") ∅ false.
Proof.
  destruct (@shapeHash_markup_one_code_unit demo (markupShape "a1" "") ∅ false)
    as (_ & _ & H & _).
  apply (H "<a/>" "<b/>" [60%Z] [47%Z; 62%Z] 97%Z 98%Z);
    [reflexivity | reflexivity | discriminate].
Defined.

Lemma sep_split (x : ascii) (a b p q : string) :
  free_of x a = true -> free_of x b = true ->
  (p = "" \/ exists p', p = String x p') ->
  (q = "" \/ exists q', q = String x q') ->
  a +:+ p = b +:+ q -> a = b /\ p = q.
Proof.
  revert b. induction a as [|y a IH]; intros b Ha Hb Hp Hq E.
  - destruct b as [|z b]; [now rewrite !app_nil_l in E|].
    rewrite app_nil_l, app_cons in E. simpl in Hb.
    destruct Hp as [-> | [p' ->]]; [discriminate|].
    injection E as E1 E2. subst z. now rewrite Ascii.eqb_refl in Hb.
  - destruct b as [|z b].
    + rewrite app_nil_l, app_cons in E. simpl in Ha.
      destruct Hq as [-> | [q' ->]]; [discriminate|].
      injection E as E1 E2. subst y. now rewrite Ascii.eqb_refl in Ha.
    + rewrite !app_cons in E. injection E as E1 E2. subst z.
      simpl in Ha, Hb. apply andb_prop in Ha as [_ Ha], Hb as [_ Hb].
      destruct (IH b Ha Hb Hp Hq E2) as [-> ->]. now split.
Qed.

Lemma sjoin_tail (sep : string) (Y : list string) :
  fold_right (fun y acc => sep +:+ y +:+ acc) "" Y
  = match Y with [] => "" | _ => sep +:+ sjoin sep Y end.
Proof. destruct Y as [|y Y]; [reflexivity|]. now rewrite sjoin_cons. Qed.

(** A join determines its elements when none of them is empty or holds the
    separator. *)
Lemma sjoin_inj (x : ascii) (l1 l2 : list string) :
  Forall (fun h => h <> "" /\ free_of x h = true) l1 ->
  Forall (fun h => h <> "" /\ free_of x h = true) l2 ->
  sjoin (String x "") l1 = sjoin (String x "") l2 -> l1 = l2.
Proof.
  revert l2. induction l1 as [|a l1 IH]; intros l2 H1 H2 E.
  - destruct l2 as [|b l2]; [reflexivity|]. exfalso.
    apply Forall_cons in H2 as [[Hb _] _]. rewrite sjoin_cons in E.
    destruct b; [congruence | discriminate].
  - apply Forall_cons in H1 as [[Ha Fa] H1].
    destruct l2 as [|b l2].
    + exfalso. rewrite sjoin_cons in E. destruct a; [congruence | discriminate].
    + apply Forall_cons in H2 as [[Hb Fb] H2].
      rewrite !sjoin_cons, !sjoin_tail in E.
      apply (sep_split x) in E; try assumption.
      * destruct E as [-> E]. f_equal. apply IH; try assumption.
        destruct l1, l2; try reflexivity; try discriminate.
        now apply (app_cancel_l (String x "")) in E.
      * destruct l1; [now left | right; eexists; reflexivity].
      * destruct l2; [now left | right; eexists; reflexivity].
Qed.

Lemma fullHashOf_sjoin {rt : Runtime} (d : Drawable) :
  fullHashOf d = sjoin ";" (target_hashes (hashedShapes d)).
Proof.
  unfold fullHashOf, target_hashes. rewrite join_sjoin, map_map. reflexivity.
Qed.

(** X3. The full hash determines the hashes of the shapes, in their order,
    as long as no hash of a shape is empty or holds a semicolon: two
    drawings with the same full hash then have the same list of shape
    hashes, so the short circuit of [renderSvg] skips a cycle only when
    every container already shows its targets. *)
Theorem fullHash_determines_hashes {rt : Runtime} (d1 d2 : Drawable) :
  Forall (fun h => h <> "" /\ free_of ";" h = true)
         (target_hashes (hashedShapes d1)) ->
  Forall (fun h => h <> "" /\ free_of ";" h = true)
         (target_hashes (hashedShapes d2)) ->
  fullHashOf d1 = fullHashOf d2 ->
  target_hashes (hashedShapes d1) = target_hashes (hashedShapes d2).
Proof.
  intros H1 H2 E. rewrite !fullHashOf_sjoin in E.
  now apply (sjoin_inj ";"%char).
Qed.

Lemma fullHash_determines_hashes_witness :
  target_hashes (hashedShapes (rt := demo)
    (drawing [arrowShape "a1" "h1" "green"; circleShape "a1" "red"] None ""))
  = target_hashes (hashedShapes (rt := demo)
    {| shapes := [arrowShape "a1" "h1" "green"];
       autoShapes := [circleShape "a1" "red"]; current := None;
       brushes := demoBrushes; pieces_baseUrl := "/pieces/";
       prevSvgHash := "a1" |}).
Proof.
  apply (@fullHash_determines_hashes demo).
  - vm_compute. repeat constructor; discriminate.
  - vm_compute. repeat constructor; discriminate.
  - vm_compute. reflexivity.
Defined.

(** X4. The key of a derived brush is the key of its base followed by the
    hash token of the modifiers (an undefined key of the base counts as the
    empty text), and its colour is that of the base: two arrows of one base
    brush share a marker exactly when their modifiers hash alike, and a
    falsy line width leaves the key of the base brush. For a brush [b] of
    the catalog the base is [own b], whose key is [brush_key b] and whose
    colour is [brush_color b]. *)
Theorem makeCustomBrush_key {rt : Runtime} (base : BrushValue)
    (m m' : DrawModifiers) :
  bv_key (makeCustomBrush base m)
  = Some (default "" (bv_key base) +:+ modifiersHash m)
  /\ bv_color (makeCustomBrush base m) = bv_color base
  /\ (bv_key (makeCustomBrush base m) = bv_key (makeCustomBrush base m')
      <-> modifiersHash m = modifiersHash m').
Proof.
  assert (K : forall n, bv_key (makeCustomBrush base n)
                        = Some (default "" (bv_key base) +:+ modifiersHash n)).
  { intros n. unfold makeCustomBrush. cbn [bv_key]. f_equal.
    rewrite hash_texts, modifiersHash_text.
    change [optStr (bv_key base); optNum (mod_lineWidth n)]
      with ([optStr (bv_key base)] ++ [optNum (mod_lineWidth n)]).
    rewrite texts_app, !texts_one, token_text_optStr.
    assert (E : truthy (optStr (bv_key base)) = false ->
                default "" (bv_key base) = "").
    { destruct (bv_key base) as [k|]; [|reflexivity]. cbn [optStr default].
      intros F. destruct (String.eqb_spec k "") as [->|N];
        [reflexivity | apply truthy_str in N; congruence]. }
    unfold token_text.
    destruct (truthy (optStr (bv_key base))) eqn:Tk;
      destruct (truthy (optNum (mod_lineWidth n))) eqn:Tn; cbn [app sjoin].
    - now rewrite app_nil_l.
    - now rewrite app_empty_r.
    - now rewrite (E eq_refl), !app_nil_l.
    - now rewrite (E eq_refl). }
  split; [apply K|]. split; [reflexivity|]. rewrite !K. split.
  - intros [= H]. now apply app_cancel_l in H.
  - now intros ->.
Qed.

(** X5. A destination that is the empty text counts as no destination in
    every place that reads it: the hash, the count of arrows, the catalog
    of markers and the renderer, which draws a circle. *)
Theorem empty_dest_is_absent {rt : Runtime} (s : DrawShape) (state : State)
    (d : Drawable) (bs : gmap string DrawBrush) (ad : gmap string nat)
    (c : bool) (h : string) (acc : list (option string * BrushValue)) :
  let empty := {| sc_shape := with_dest (Some "") s; sc_current := c; sc_hash := h |} in
  let absent := {| sc_shape := with_dest None s; sc_current := c; sc_hash := h |} in
  shapeHash (with_dest (Some "") s) ad c = shapeHash (with_dest None s) ad c
  /\ countArrow ad (with_dest (Some "") s) = ad
  /\ collectBrush d acc empty = mret acc
  /\ renderShape state empty bs ad = renderShape state absent bs ad.
Proof.
  repeat split.
Qed.

(** X6. On the coordinates of the board, 0 to 7, [orient] is its own
    inverse for every colour, and [orient] and [pos2user] lead to
    coordinates of the board again. *)
Theorem orient_involutive (pos : float * float) (color : string) :
  boardCoord pos.1 -> boardCoord pos.2 ->
  orient (orient pos color) color = pos
  /\ boardCoord (orient pos color).1 /\ boardCoord (orient pos color).2
  /\ boardCoord (pos2user pos).1 /\ boardCoord (pos2user pos).2.
Proof.
  destruct pos as [x y]. unfold boardCoord, orient, pos2user. cbn [fst snd In].
  intros Hx Hy. destruct (String.eqb color "white"); cbn [fst snd];
    repeat match goal with
           | H : _ \/ _ |- _ => destruct H as [<- | H]
           | H : False |- _ => destruct H
           end;
    (split; [reflexivity|]); vm_compute; tauto.
Qed.

Lemma orient_involutive_witness :
  orient (orient (2, 5)%float "black") "black" = (2, 5)%float.
Proof.
  apply (orient_involutive (2, 5)%float "black"); vm_compute; tauto.
Defined.

(** ** What the renderers build *)

Ltac lookups :=
  repeat (rewrite lookup_insert_eq || rewrite lookup_insert_ne by congruence).

Section Built.
Context {rt : Runtime}.

Lemma fresh_insert_ne (σ : Dom) (el : nat) (e : Element) :
  fresh (dom (<[el := e]> σ)) <> el.
Proof.
  intros E. pose proof (is_fresh (dom (<[el := e]> σ))) as F.
  rewrite E in F. apply F, elem_of_dom. rewrite lookup_insert_eq. eauto.
Qed.

Lemma create_set_run {B : Type} (t : string) (attrs : list (string * JsValue))
    (k : nat -> M B) (σ : Dom) :
  (createElement t ≫= (fun e0 => setAttributes e0 attrs ≫= k)) σ
  = k (fresh (dom σ)) (<[fresh (dom σ) := elementWith t attrs]> σ).
Proof.
  rewrite bind_run. unfold createElement at 1. cbv zeta.
  rewrite bind_run, setAttributes_insert. reflexivity.
Qed.

Lemma create_set_last (t : string) (attrs : list (string * JsValue)) (σ : Dom) :
  (createElement t ≫= (fun e0 => setAttributes e0 attrs)) σ
  = (<[fresh (dom σ) := elementWith t attrs]> σ, Some (fresh (dom σ))).
Proof.
  rewrite bind_run. unfold createElement at 1. cbv zeta.
  now rewrite setAttributes_insert.
Qed.

Lemma renderCircle_run (b : BrushValue) (pos : float * float) (cur : bool)
    (σ : Dom) :
  single (renderCircle (Some b) pos cur) "circle" σ.
Proof.
  eexists. unfold renderCircle. rewrite bind_run. unfold createElement at 1.
  cbv zeta. rewrite bind_run. cbn [deref].
  change ((mret b : M BrushValue) ?s) with (s, Some b).
  cbv iota beta. now rewrite setAttributes_insert.
Qed.

Lemma renderCircle_throws (pos : float * float) (cur : bool) (σ : Dom) :
  (renderCircle None pos cur σ).2 = None.
Proof. reflexivity. Qed.

Lemma renderArrow_single (b : BrushValue) (orig dest : float * float)
    (cur shorten : bool) (σ : Dom) :
  single (renderArrow (Some b) orig dest cur shorten) "line" σ.
Proof. eexists. apply renderArrow_run. Qed.

Lemma renderPiece_run (baseUrl : string) (pos : float * float)
    (p : DrawShapePiece) (σ : Dom) :
  piece_role p <> "" -> single (renderPiece baseUrl pos p) "image" σ.
Proof.
  intros N. unfold renderPiece. cbv zeta.
  destruct (String.eqb (piece_role p) "knight").
  - eexists. rewrite bind_run.
    change ((mret "n" : M string) ?s) with (s, Some "n"). cbv iota beta.
    apply create_set_last.
  - destruct (piece_role p) as [|c r]; [congruence|]. cbn [firstChar].
    eexists. rewrite bind_run.
    change ((mret (String c "") : M string) ?s) with (s, Some (String c "")).
    cbv iota beta. apply create_set_last.
Qed.

Lemma renderPiece_throws (baseUrl : string) (pos : float * float)
    (p : DrawShapePiece) (σ : Dom) :
  piece_role p = "" -> renderPiece baseUrl pos p σ = (σ, None).
Proof. intros E. unfold renderPiece. now rewrite E. Qed.

Lemma renderCustomSvg_run (t : string) (pos : float * float) (σ : Dom) :
  let g := fresh (dom σ) in
  let E1 := elementWith "g"
              [("transform",
                VStr ("translate(" +:+ num_toString (pos2user pos).1 +:+ ","
                      +:+ num_toString (pos2user pos).2 +:+ ")"))] in
  let svg := fresh (dom (<[g := E1]> σ)) in
  let E2 := elementWith "svg"
              [("width", VNum 1); ("height", VNum 1);
               ("viewBox", VStr "0 0 100 100")] in
  renderCustomSvg t pos σ
  = (<[svg := with_innerHTML t E2]> (<[g := with_childNodes [svg] E1]> σ), Some g).
Proof.
  intros g E1 svg E2. unfold renderCustomSvg. destruct pos as [x y].
  cbn [pos2user fst snd] in *. rewrite create_set_run, create_set_run.
  fold g E1 svg E2.
  assert (N : svg <> g) by apply fresh_insert_ne.
  rewrite bind_run, appendChild_run.
  rewrite lookup_insert_ne, lookup_insert_eq by congruence.
  rewrite bind_run, setInnerHTML_run.
  rewrite lookup_insert_ne, lookup_insert_eq by congruence.
  change ((mret g : M nat) ?s) with (s, Some g).
  f_equal. apply map_eq. intros i.
  destruct (decide (i = svg)) as [->|Ns]; [now lookups|].
  destruct (decide (i = g)) as [->|Ng]; now lookups.
Qed.

Lemma renderMarker_run (b : BrushValue) (σ : Dom) :
  let marker := fresh (dom σ) in
  let E1 := elementWith "marker"
              [("id", VStr ("arrowhead-" +:+ keyText (bv_key b)));
               ("orient", VStr "auto");
               ("markerWidth", VNum 4);
               ("markerHeight", VNum 8);
               ("refX", VNum 2.05);
               ("refY", VNum 2.01)] in
  let path := fresh (dom (<[marker := E1]> σ)) in
  let E2 := elementWith "path"
              [("d", VStr "M0,0 V4 L3,2 Z"); ("fill", optStr (bv_color b))] in
  renderMarker b σ
  = (<[marker := with_attributes
                   (attr_set "cgKey" (keyText (bv_key b)) (attributes E1))
                   (with_childNodes [path] E1)]>
       (<[path := E2]> σ),
     Some marker).
Proof.
  intros marker E1 path E2. unfold renderMarker. unfold keyText in *.
  rewrite create_set_run, create_set_run. fold marker E1 path E2.
  assert (N : path <> marker) by apply fresh_insert_ne.
  rewrite bind_run, appendChild_run.
  rewrite lookup_insert_ne, lookup_insert_eq by congruence.
  rewrite bind_run, setAttribute_run, lookup_insert_eq.
  change ((mret marker : M nat) ?s) with (s, Some marker).
  f_equal. apply map_eq. intros i.
  destruct (decide (i = marker)) as [->|Ns]; [now lookups|].
  destruct (decide (i = path)) as [->|Ng]; now lookups.
Qed.



Lemma fresh_insert_unused (σ : Dom) (el : nat) (e : Element) :
  σ !! fresh (dom (<[el := e]> σ)) = None.
Proof.
  pose proof (fresh_unused (<[el := e]> σ)) as F.
  now rewrite lookup_insert_ne in F by (apply not_eq_sym, fresh_insert_ne).
Qed.

Lemma unused_ne (σ : Dom) (n el : nat) (e : Element) :
  σ !! n = Some e -> σ !! el = None -> n <> el.
Proof. congruence. Qed.

(** The tag [renderShape] puts on what a renderer of one element made. *)
Lemma tag_single (m : M nat) (tag h : string) (σ : Dom) :
  single m tag σ ->
  let run := (m ≫= fun el => setAttribute el "cgHash" (VStr h) ;; mret el) σ in
  run.2 = Some (fresh (dom σ))
  /\ attr_of run.1 (fresh (dom σ)) "cgHash" = Some h
  /\ tagName <$> run.1 !! fresh (dom σ) = Some tag.
Proof.
  intros [attrs E]. cbv zeta. rewrite bind_run, E, bind_run, setAttribute_run.
  rewrite lookup_insert_eq. cbn [fst snd]. unfold attr_of.
  change ((mret (fresh (dom σ)) : M nat) ?s) with (s, Some (fresh (dom σ))).
  cbn [fst snd]. rewrite lookup_insert_eq. cbn [with_attributes attributes].
  split; [reflexivity|]. split; [apply attr_get_set_eq | reflexivity].
Qed.

End Built.

(** What [renderShape] returns, and when. *)
Lemma renderShape_outcome_parts {rt : Runtime} (state : State) (sc : Shape)
    (bs : gmap string DrawBrush) (ad : gmap string nat) (σ : Dom) :
  let run := renderShape state sc bs ad σ in
  σ ⊆ run.1
  /\ (renderable bs (sc_shape sc) = true ->
      run.2 = Some (fresh (dom σ))
      /\ attr_of run.1 (fresh (dom σ)) "cgHash" = Some (sc_hash sc)
      /\ tagName <$> run.1 !! fresh (dom σ) = Some (shapeTag (sc_shape sc)))
  /\ (renderable bs (sc_shape sc) = false -> run.2 = None).
Proof.
  cbv zeta. split.
  { apply (keeps_renderShape σ σ state sc bs ad). reflexivity. }
  unfold renderable, shapeTag, renderShape. cbv zeta.
  destruct (truthy (optStr (customSvg (sc_shape sc)))).
  { split; [intros _ | discriminate].
    rewrite bind_run, renderCustomSvg_run, bind_run, setAttribute_run.
    rewrite lookup_insert_ne by apply fresh_insert_ne.
    rewrite lookup_insert_eq.
    change ((mret (fresh (dom σ)) : M nat) ?s) with (s, Some (fresh (dom σ))).
    cbn [fst snd]. unfold attr_of. rewrite lookup_insert_eq.
    cbn [with_attributes attributes].
    split; [reflexivity|]. split; [apply attr_get_set_eq | reflexivity]. }
  destruct (piece (sc_shape sc)) as [p|].
  { destruct (String.eqb_spec (piece_role p) "") as [E|N]; cbn [negb].
    - split; [discriminate | intros _].
      now rewrite bind_run, renderPiece_throws.
    - split; [intros _ | discriminate].
      now apply tag_single, renderPiece_run. }
  destruct (brushNamed bs (brush (sc_shape sc))) as [base|].
  - split; [intros _ | discriminate].
    destruct (truthy (optStr (dest (sc_shape sc)))).
    + apply tag_single.
      destruct (modifiers (sc_shape sc)); apply renderArrow_single.
    + apply tag_single, renderCircle_run.
  - split; [discriminate | intros _].
    destruct (truthy (optStr (dest (sc_shape sc)))); [|reflexivity].
    destruct (modifiers (sc_shape sc)); reflexivity.
Qed.

(** X7. [renderShape] returns exactly for the shapes that can be rendered:
    markup always, a piece whose role is not empty, an arrow or a circle
    whose brush is defined, which an own brush of the catalog is and also
    what [Object.prototype] holds under a name such as constructor. It
    then returns the first unused node of the store, tagged with the hash
    of the shape, a g for markup, an image for a piece, a line for an arrow
    and a circle otherwise. In every other case it throws. In both cases
    the nodes of the store are left as they were. *)
Theorem renderShape_outcome {rt : Runtime} (state : State) (sc : Shape)
    (bs : gmap string DrawBrush) (ad : gmap string nat) (σ : Dom) :
  let run := renderShape state sc bs ad σ in
  σ ⊆ run.1
  /\ (renderable bs (sc_shape sc) = true ->
      run.2 = Some (fresh (dom σ))
      /\ attr_of run.1 (fresh (dom σ)) "cgHash" = Some (sc_hash sc)
      /\ tagName <$> run.1 !! fresh (dom σ) = Some (shapeTag (sc_shape sc)))
  /\ (renderable bs (sc_shape sc) = false -> run.2 = None).
Proof. apply renderShape_outcome_parts. Qed.

(** X8. [renderCustomSvg] returns a new g whose only child is a new svg:
    the g is translated to the square, the svg has a viewBox of 100 by 100
    and the width and height 1, and the nodes of the store are left as
    they were. It never throws. *)
Theorem renderCustomSvg_structure {rt : Runtime} (t : string)
    (pos : float * float) (σ : Dom) :
  let run := renderCustomSvg t pos σ in
  exists g svg,
    run.2 = Some g /\ σ !! g = None /\ σ !! svg = None /\ g <> svg
    /\ tagName <$> run.1 !! g = Some "g"
    /\ tagName <$> run.1 !! svg = Some "svg"
    /\ children_of run.1 g = [svg]
    /\ attr_of run.1 g "transform"
       = Some ("translate(" +:+ num_toString pos.1 +:+ ","
               +:+ num_toString (7 - pos.2)%float +:+ ")")
    /\ attr_of run.1 svg "viewBox" = Some "0 0 100 100"
    /\ attr_of run.1 svg "width" = Some (num_toString 1)
    /\ attr_of run.1 svg "height" = Some (num_toString 1)
    /\ forall n e, σ !! n = Some e -> run.1 !! n = Some e.
Proof.
  cbv zeta. rewrite renderCustomSvg_run. cbn [fst snd].
  set (g := fresh (dom σ)).
  set (E1 := elementWith "g" _).
  set (svg := fresh (dom (<[g := E1]> σ))).
  assert (N : svg <> g) by apply fresh_insert_ne.
  assert (Fg : σ !! g = None) by apply fresh_unused.
  assert (Fs : σ !! svg = None) by apply fresh_insert_unused.
  exists g, svg. unfold attr_of, children_of. lookups.
  repeat (split; [first [reflexivity | assumption | congruence]|]).
  intros n e Hn.
  rewrite !lookup_insert_ne by (apply not_eq_sym; eapply unused_ne; eauto).
  exact Hn.
Qed.

(** X9. The marker that [renderMarker] makes for a brush and the line that
    [renderArrow] makes with that brush fit: the line refers, in its
    marker-end, to the id of the marker, which is arrowhead- followed by
    the key of the brush; the marker is tagged with that key; and the path
    that is the only child of the marker is filled with the colour the
    line is stroked with. *)
Theorem arrow_refers_to_marker {rt : Runtime} (b : DrawBrush)
    (orig dest : float * float) (cur shorten : bool) (σ σ2 : Dom) :
  let m := renderMarker (own b) σ in
  let a := renderArrow (Some (own b)) orig dest cur shorten σ2 in
  exists marker path line,
    m.2 = Some marker /\ a.2 = Some line
    /\ σ !! marker = None /\ σ !! path = None /\ σ2 !! line = None
    /\ attr_of m.1 marker "id" = Some ("arrowhead-" +:+ brush_key b)
    /\ attr_of a.1 line "marker-end"
       = Some ("url(#" +:+ ("arrowhead-" +:+ brush_key b) +:+ ")")
    /\ attr_of m.1 marker "cgKey" = Some (brush_key b)
    /\ children_of m.1 marker = [path]
    /\ attr_of m.1 path "fill" = Some (brush_color b)
    /\ attr_of a.1 line "stroke" = Some (brush_color b).
Proof.
  cbv zeta. rewrite renderMarker_run, renderArrow_run. cbn [fst snd].
  set (marker := fresh (dom σ)).
  set (E1 := elementWith "marker" _).
  set (path := fresh (dom (<[marker := E1]> σ))).
  assert (N : path <> marker) by apply fresh_insert_ne.
  exists marker, path, (fresh (dom σ2)).
  unfold attr_of, children_of. lookups.
  repeat (split; [first [reflexivity | apply fresh_unused
                         | apply fresh_insert_unused]|]).
  reflexivity.
Qed.

(** ** The passes as functions of the store *)

Section Passes.
Context {rt : Runtime}.

Lemma loop_need_ext {A : Type} (render : A -> M nat) (need need' : A -> bool)
    (root : nat) (items : list A) :
  (forall x, x ∈ items -> need x = need' x) ->
  appendLoop render need root items = appendLoop render need' root items.
Proof.
  intros E. unfold appendLoop. apply forM_ext. intros x Hx. now rewrite (E x Hx).
Qed.

(** A pass of [syncShapes] on a container of the store: the scan and the
    removals computed, the appending loop left to run. *)
Lemma syncShapes_run (state : State) (shapes : list Shape)
    (bs : gmap string DrawBrush) (ad : gmap string nat) (root : nat)
    (σ : Dom) (e0 : Element) :
  σ !! root = Some e0 ->
  syncShapes state shapes bs ad (Some root) σ
  = if bool_decide (Forall (fun c => is_Some (σ !! c)) (childNodes e0)) then
      appendLoop (fun sc => renderShape state sc bs ad)
        (fun sc => bool_decide (Some (sc_hash sc) ∉ child_hashes σ root))
        root shapes
        (<[root := with_childNodes
                     (List.filter (stays σ shapes) (childNodes e0)) e0]> σ)
    else (σ, None).
Proof.
  intros Hroot. unfold syncShapes.
  fold (targetsMap shapes). cbn [deref].
  rewrite bind_run. change ((mret root : M nat) σ) with (σ, Some root).
  cbv iota. rewrite bind_run, children_run, Hroot.
  cbn [fmap option_fmap option_map].
  rewrite bind_run, scan_run.
  destruct (bool_decide (Forall (fun c => is_Some (σ !! c)) (childNodes e0)));
    [|reflexivity].
  destruct (scan_fold σ shapes (childNodes e0) (targetsMap shapes) []) as [S1 S2].
  { intros h. rewrite targetsMap_lookup.
    destruct (decide (h ∈ target_hashes shapes)) as [I|I].
    - rewrite bool_decide_eq_true_2 by assumption. split; eauto.
    - rewrite bool_decide_eq_false_2 by assumption. split; [intros [? ?]|]; easy. }
  set (scanned := fold_left (scanStep σ) (childNodes e0) (targetsMap shapes, [])) in *.
  rewrite bind_run. cbn [app] in S1. rewrite S1.
  rewrite (removal_run root (fun c => negb (stays σ shapes c)) (childNodes e0) [] e0 σ);
    [|assumption | reflexivity | constructor].
  cbn [app].
  assert (Ef : List.filter (fun c => negb (negb (stays σ shapes c))) (childNodes e0)
               = List.filter (stays σ shapes) (childNodes e0)).
  { apply List.filter_ext. intros c. apply negb_involutive. }
  rewrite Ef. clear Ef.
  change (forM_ ?f shapes) with
    (appendLoop (fun sc => renderShape state sc bs ad)
       (fun sc => negb (default false (scanned.1 !! sc_hash sc))) root shapes).
  rewrite (loop_need_ext _ _
             (fun sc => bool_decide (Some (sc_hash sc) ∉ child_hashes σ root)));
    [reflexivity|].
  intros sc Hsc. rewrite S2. unfold child_hashes.
  rewrite (children_of_root _ _ _ Hroot).
  assert (T : sc_hash sc ∈ target_hashes shapes).
  { unfold target_hashes. now apply list_elem_of_fmap_2. }
  destruct (decide (Some (sc_hash sc)
                    ∈ map (fun c => attr_of σ c "cgHash") (childNodes e0))) as [I|I].
  - rewrite decide_True by (split; assumption).
    rewrite bool_decide_eq_false_2; [reflexivity | tauto].
  - rewrite decide_False by tauto.
    rewrite targetsMap_lookup, (bool_decide_eq_true_2 _ T).
    now rewrite bool_decide_eq_true_2.
Qed.

Lemma appendLoop_idle {A : Type} (render : A -> M nat) (need : A -> bool)
    (root : nat) (items : list A) (σ : Dom) :
  (forall x, x ∈ items -> need x = false) ->
  appendLoop render need root items σ = (σ, Some tt).
Proof.
  induction items as [|x items IH]; intros E; [reflexivity|].
  unfold appendLoop. cbn [forM_]. fold (appendLoop render need root items).
  rewrite bind_run, (E x) by constructor.
  change ((mret tt : M unit) σ) with (σ, Some tt). cbv iota.
  apply IH. intros y Hy. apply E. now constructor.
Qed.

(** The appending loop returns exactly when every item it has to render
    can be rendered. *)
Lemma appendLoop_returns {A : Type} (render : A -> M nat) (need ok : A -> bool)
    (root : nat) :
  (forall x σ, σ ⊆ (render x σ).1) ->
  (forall x σ, (if ok x then is_Some (render x σ).2 else (render x σ).2 = None)) ->
  forall (items : list A) (σ : Dom),
    is_Some (σ !! root) ->
    (appendLoop render need root items σ).2 = Some tt
    <-> forall x, x ∈ items -> need x = true -> ok x = true.
Proof.
  intros Hk Hok items. induction items as [|x items IH]; intros σ Hroot.
  - split; [intros _ y Hy; now apply elem_of_nil in Hy | reflexivity].
  - unfold appendLoop. cbn [forM_]. fold (appendLoop render need root items).
    rewrite bind_run. destruct (need x) eqn:Nx.
    + rewrite bind_run. specialize (Hk x σ). specialize (Hok x σ).
      destruct (render x σ) as [σa [el|]] eqn:Er; cbn [fst snd] in *.
      * destruct Hroot as [e He].
        rewrite appendChild_run, (lookup_weaken _ _ _ _ He Hk).
        rewrite IH by (rewrite lookup_insert_eq; eauto).
        assert (Ox : ok x = true) by (destruct (ok x); [reflexivity | discriminate]).
        split.
        -- intros H y Hy Ny. apply elem_of_cons in Hy as [->|Hy]; auto.
        -- intros H y Hy Ny. apply H; [now constructor | assumption].
      * cbn [snd]. split; [discriminate|]. intros H.
        rewrite (H x) in Hok by (constructor || assumption).
        destruct Hok as [? Hok]. discriminate.
    + change ((mret tt : M unit) σ) with (σ, Some tt). cbv iota.
      rewrite IH by assumption. split.
      * intros H y Hy Ny. apply elem_of_cons in Hy as [->|Hy]; [congruence | auto].
      * intros H y Hy Ny. apply H; [now constructor | assumption].
Qed.

Lemma renderShape_ok (state : State) (bs : gmap string DrawBrush)
    (ad : gmap string nat) (sc : Shape) (σ : Dom) :
  if renderable bs (sc_shape sc)
  then is_Some (renderShape state sc bs ad σ).2
  else (renderShape state sc bs ad σ).2 = None.
Proof.
  destruct (renderShape_outcome_parts state sc bs ad σ) as (_ & Y & N).
  destruct (renderable bs (sc_shape sc)); [|auto].
  destruct (Y eq_refl) as [-> _]. eauto.
Qed.

End Passes.

Section PassProperties.
Context {rt : Runtime}.

Lemma renderShape_grows (state : State) (bs : gmap string DrawBrush)
    (ad : gmap string nat) (sc : Shape) (σ : Dom) :
  σ ⊆ (renderShape state sc bs ad σ).1.
Proof. apply (keeps_renderShape σ σ state sc bs ad). reflexivity. Qed.

Lemma syncShapes_returns (state : State) (shapes : list Shape)
    (bs : gmap string DrawBrush) (ad : gmap string nat) (root : nat)
    (σ : Dom) (e0 : Element) :
  σ !! root = Some e0 ->
  (syncShapes state shapes bs ad (Some root) σ).2 = Some tt
  <-> Forall (alive σ) (childNodes e0)
      /\ forall sc, sc ∈ shapes -> Some (sc_hash sc) ∉ child_hashes σ root ->
                    renderable bs (sc_shape sc) = true.
Proof.
  intros Hroot. rewrite (syncShapes_run _ _ _ _ _ _ _ Hroot).
  unfold alive.
  destruct (decide (Forall (fun c => is_Some (σ !! c)) (childNodes e0))) as [F|F].
  - rewrite (bool_decide_eq_true_2 _ F).
    rewrite (appendLoop_returns _ _ (fun sc => renderable bs (sc_shape sc)));
      [| intros; apply renderShape_grows | intros; apply renderShape_ok
       | rewrite lookup_insert_eq; eauto].
    split.
    + intros H. split; [assumption|]. intros sc Hsc Hn. apply H; [assumption|].
      now apply bool_decide_eq_true_2.
    + intros [_ H] sc Hsc Hn. apply H; [assumption|].
      now apply bool_decide_eq_true_1 in Hn.
  - rewrite (bool_decide_eq_false_2 _ F). cbn [snd]. split; [discriminate | tauto].
Qed.

(** The tags of the children after a pass that returns. *)
Lemma pass_tags (state : State) (shapes : list Shape)
    (bs : gmap string DrawBrush) (ad : gmap string nat) (root : nat)
    (σ σ' : Dom) (e0 : Element) :
  σ !! root = Some e0 ->
  syncShapes state shapes bs ad (Some root) σ = (σ', Some tt) ->
  child_hashes σ' root
  = map (fun c => attr_of σ c "cgHash")
        (List.filter (stays σ shapes) (childNodes e0))
    ++ map Some (List.filter (fun h => bool_decide (Some h ∉ child_hashes σ root))
                   (target_hashes shapes)).
Proof.
  intros Hroot Hrun.
  destruct (syncShapes_spec _ _ _ _ _ _ _ _ _ Hroot Hrun)
    as [[_ [=]] | (news & R1 & R2 & R3 & R4 & R5)].
  specialize (R5 eq_refl).
  unfold child_hashes at 1. rewrite (children_of_root _ _ _ R1).
  cbn [childNodes with_childNodes]. rewrite map_app, R5. f_equal.
  apply map_ext_in. intros c Hc. apply list_elem_of_In in Hc.
  apply elem_of_Lfilter in Hc as [_ Hs]. apply stays_spec in Hs as (h & Ha & _).
  eapply syncShapes_attrs; eauto.
  unfold attr_of in Ha. destruct (σ !! c); [eauto | discriminate].
Qed.

(** A container whose children are nodes of the store, all tagged with
    target hashes, and which shows every target hash: a pass leaves the
    store as it is. *)
Lemma syncShapes_fixed (state : State) (shapes : list Shape)
    (bs : gmap string DrawBrush) (ad : gmap string nat) (root : nat)
    (σ : Dom) (e0 : Element) :
  σ !! root = Some e0 ->
  Forall (alive σ) (childNodes e0) ->
  Forall (fun c => stays σ shapes c = true) (childNodes e0) ->
  (forall sc, sc ∈ shapes -> Some (sc_hash sc) ∈ child_hashes σ root) ->
  syncShapes state shapes bs ad (Some root) σ = (σ, Some tt).
Proof.
  intros Hroot Ha Hs Ht. rewrite (syncShapes_run _ _ _ _ _ _ _ Hroot).
  rewrite (bool_decide_eq_true_2 _ Ha).
  assert (Ef : List.filter (stays σ shapes) (childNodes e0) = childNodes e0).
  { clear Hroot Ha. induction (childNodes e0) as [|c l IH]; [reflexivity|].
    apply Forall_cons in Hs as [Hc Hs]. cbn [List.filter]. rewrite Hc.
    f_equal. now apply IH. }
  rewrite Ef, with_childNodes_id, insert_id by assumption.
  apply appendLoop_idle. intros sc Hsc.
  apply bool_decide_eq_false_2. intros N. apply N. now apply Ht.
Qed.

End PassProperties.

(** X10. A pass of [syncShapes] on a container of the store returns
    exactly when every child of the container is a node of the store and
    every target whose hash no child carries can be rendered ([renderable]:
    markup, a piece with a role, or a brush that is defined, be it an own
    brush of the catalog or inherited from [Object.prototype]); a target
    whose hash is already on a child is never rendered, renderable or
    not. *)
Theorem syncShapes_returns_iff {rt : Runtime} (state : State)
    (shapes : list Shape) (bs : gmap string DrawBrush) (ad : gmap string nat)
    (root : nat) (σ : Dom) (e0 : Element) :
  σ !! root = Some e0 ->
  (syncShapes state shapes bs ad (Some root) σ).2 = Some tt
  <-> Forall (alive σ) (childNodes e0)
      /\ forall sc, sc ∈ shapes -> Some (sc_hash sc) ∉ child_hashes σ root ->
                    renderable bs (sc_shape sc) = true.
Proof. apply syncShapes_returns. Qed.

Lemma syncShapes_returns_iff_witness :
  (syncShapes (rt := demo) (onBoard oneCircle)
     [ {| sc_shape := circleShape "a1" "blue"; sc_current := false;
          sc_hash := "a1,blue" |} ]
     demoBrushes ∅ (Some 2) emptyOverlay).2 <> Some tt.
Proof.
  intros H.
  apply (@syncShapes_returns_iff demo (onBoard oneCircle)
           [ {| sc_shape := circleShape "a1" "blue"; sc_current := false;
                sc_hash := "a1,blue" |} ]
           demoBrushes ∅ 2 emptyOverlay (newElement "g") eq_refl) in H.
  destruct H as [_ H].
  specialize (H _ (list_elem_of_here _ _)). vm_compute in H.
  discriminate H. intros I. inversion I.
Defined.

(** X11. With no target, a pass of [syncShapes] removes every child of the
    container, whatever its tag, creates nothing, leaves the removed nodes
    in the store and returns; unless a child is not a node of the store,
    and then it throws before it changes anything. *)
Theorem syncShapes_no_targets {rt : Runtime} (state : State)
    (bs : gmap string DrawBrush) (ad : gmap string nat)
    (root : nat) (σ : Dom) (e0 : Element) :
  σ !! root = Some e0 ->
  (Forall (alive σ) (childNodes e0) ->
     syncShapes state [] bs ad (Some root) σ
     = (<[root := with_childNodes [] e0]> σ, Some tt))
  /\ (~ Forall (alive σ) (childNodes e0) ->
        syncShapes state [] bs ad (Some root) σ = (σ, None)).
Proof.
  intros Hroot. rewrite (syncShapes_run _ _ _ _ _ _ _ Hroot). split; intros F.
  - rewrite (bool_decide_eq_true_2 _ F).
    assert (E : forall l, List.filter (stays σ []) l = []).
    { intros l. induction l as [|c l IH]; [reflexivity|].
      cbn [List.filter]. unfold stays at 1.
      destruct (attr_of σ c "cgHash"); [|now apply IH].
      rewrite bool_decide_eq_false_2 by apply not_elem_of_nil. now apply IH. }
    now rewrite E.
  - now rewrite (bool_decide_eq_false_2 _ F).
Qed.

Lemma syncShapes_no_targets_witness :
  children_of circlePass.1 2 = [5]
  /\ syncShapes (rt := demo) (onBoard oneCircle) [] demoBrushes ∅ (Some 2)
       circlePass.1
     = (<[2 := with_childNodes [] (with_childNodes [5] (newElement "g"))]>
          circlePass.1, Some tt).
Proof.
  split; [vm_compute; reflexivity|].
  apply (@syncShapes_no_targets demo (onBoard oneCircle) demoBrushes ∅ 2
           circlePass.1 (with_childNodes [5] (newElement "g"))).
  - vm_compute. reflexivity.
  - repeat constructor. vm_compute. eauto.
Defined.

(** X12. After a pass of [syncShapes] that returns, the children of the
    container are the children that stayed, in the order they had, followed
    by the new nodes; their tags are the tags of the children that stayed
    followed by the target hashes that no child carried, in the order of
    the target list. A new shape is therefore always the last child (drawn
    over the others), wherever it stands in the list of shapes. *)
Theorem syncShapes_tag_order {rt : Runtime} (state : State)
    (shapes : list Shape) (bs : gmap string DrawBrush) (ad : gmap string nat)
    (root : nat) (σ σ' : Dom) (e0 : Element) :
  σ !! root = Some e0 ->
  syncShapes state shapes bs ad (Some root) σ = (σ', Some tt) ->
  child_hashes σ' root
  = map (fun c => attr_of σ c "cgHash")
        (List.filter (stays σ shapes) (childNodes e0))
    ++ map Some (List.filter (fun h => bool_decide (Some h ∉ child_hashes σ root))
                   (target_hashes shapes)).
Proof. apply pass_tags. Qed.

Lemma syncShapes_tag_order_witness :
  target_hashes (hashedShapes (rt := demo)
                   (drawing [arrowShape "b1" "h1" "green"; circleShape "a1" "green"]
                      None ""))
  = ["b1,h1,green"; "a1,green"]
  /\ child_hashes
       (syncShapes (rt := demo) (onBoard oneCircle)
          (hashedShapes (rt := demo)
             (drawing [arrowShape "b1" "h1" "green"; circleShape "a1" "green"]
                None ""))
          demoBrushes ∅ (Some 2) circlePass.1).1 2
     = [Some "a1,green"; Some "b1,h1,green"].
Proof.
  split; [vm_compute; reflexivity|].
  rewrite (@syncShapes_tag_order demo (onBoard oneCircle)
             (hashedShapes (rt := demo)
                (drawing [arrowShape "b1" "h1" "green"; circleShape "a1" "green"]
                   None ""))
             demoBrushes ∅ 2 circlePass.1 _
             (with_childNodes [5] (newElement "g"))).
  - vm_compute. reflexivity.
  - vm_compute. reflexivity.
  - vm_compute. reflexivity.
Defined.

(** X13. A pass of [syncShapes] is idempotent: run again with the same
    targets on the store that a returning pass left, it returns and leaves
    the store as it is; nothing is removed and nothing is rendered. *)
Theorem syncShapes_idempotent {rt : Runtime} (state state' : State)
    (shapes : list Shape) (bs bs' : gmap string DrawBrush)
    (ad ad' : gmap string nat) (root : nat) (σ σ' : Dom) (e0 : Element) :
  σ !! root = Some e0 ->
  syncShapes state shapes bs ad (Some root) σ = (σ', Some tt) ->
  syncShapes state' shapes bs' ad' (Some root) σ' = (σ', Some tt).
Proof.
  intros Hroot Hrun.
  pose proof (pass_tags _ _ _ _ _ _ _ _ Hroot Hrun) as Htags.
  destruct (syncShapes_spec _ _ _ _ _ _ _ _ _ Hroot Hrun)
    as [[_ [=]] | (news & R1 & _)].
  set (kept := List.filter (stays σ shapes) (childNodes e0)) in *.
  set (inserted := List.filter
                     (fun h => bool_decide (Some h ∉ child_hashes σ root))
                     (target_hashes shapes)) in *.
  assert (Hall : forall c, c ∈ kept ++ news ->
            exists h, attr_of σ' c "cgHash" = Some h /\ h ∈ target_hashes shapes).
  { intros c Hc.
    assert (Ht : attr_of σ' c "cgHash" ∈ child_hashes σ' root).
    { unfold child_hashes. rewrite (children_of_root _ _ _ R1).
      apply list_elem_of_fmap. exists c. split; [reflexivity | assumption]. }
    rewrite Htags in Ht. apply elem_of_app in Ht as [Ht | Ht].
    - apply list_elem_of_fmap in Ht as (c' & -> & Hc').
      apply elem_of_Lfilter in Hc' as [_ Hs]. now apply stays_spec in Hs.
    - apply list_elem_of_fmap in Ht as (h & -> & Hh).
      apply elem_of_Lfilter in Hh as [Hh _]. eauto. }
  apply (syncShapes_fixed _ _ _ _ _ _ _ R1); cbn [childNodes with_childNodes].
  - apply Forall_forall. intros c Hc. destruct (Hall c Hc) as (h & Ha & _).
    unfold alive. unfold attr_of in Ha. destruct (σ' !! c); [eauto | discriminate].
  - apply Forall_forall. intros c Hc. apply stays_spec. now apply Hall.
  - intros sc Hsc. rewrite Htags. apply elem_of_app.
    assert (T : sc_hash sc ∈ target_hashes shapes).
    { unfold target_hashes. now apply list_elem_of_fmap_2. }
    destruct (decide (Some (sc_hash sc) ∈ child_hashes σ root)) as [I|I].
    + left. unfold child_hashes in I. rewrite (children_of_root _ _ _ Hroot) in I.
      apply list_elem_of_fmap in I as (c & Ea & Hc).
      apply list_elem_of_fmap. exists c. split; [assumption|].
      apply elem_of_Lfilter. split; [assumption|]. apply stays_spec. eauto.
    + right. apply list_elem_of_fmap. exists (sc_hash sc). split; [reflexivity|].
      apply elem_of_Lfilter. split; [assumption|]. now apply bool_decide_eq_true_2.
Qed.

Lemma syncShapes_idempotent_witness :
  syncShapes (rt := demo) (onBoard circleAndArrow)
    (hashedShapes (rt := demo) circleAndArrow)
    demoBrushes (arrowDestsOf circleAndArrow) (Some 2) circleAndArrowPass.1
  = (circleAndArrowPass.1, Some tt).
Proof.
  apply (@syncShapes_idempotent demo (onBoard circleAndArrow)
           (onBoard circleAndArrow) (hashedShapes (rt := demo) circleAndArrow)
           demoBrushes demoBrushes (arrowDestsOf circleAndArrow)
           (arrowDestsOf circleAndArrow) 2 circlePass.1 circleAndArrowPass.1
           (with_childNodes [5] (newElement "g"))).
  - vm_compute. reflexivity.
  - vm_compute. reflexivity.
Defined.

(** ** The catalog as a function of the store *)

Section CatalogRuns.
Context {rt : Runtime}.

Lemma keys_returns (els : list nat) (keys : gset (option string)) (σ : Dom) :
  Forall (alive σ) els ->
  exists K,
    foldM (fun (keys : gset (option string)) el =>
             k ← getAttribute el "cgKey"; mret ({[ k ]} ∪ keys)) els keys σ
    = (σ, Some K).
Proof.
  revert keys. induction els as [|c els IH]; intros keys F.
  - now exists keys.
  - apply Forall_cons in F as [[e Ec] F].
    cbn [foldM]. rewrite bind_run, bind_run, getAttribute_run, Ec.
    change ((mret ({[attr_get "cgKey" (attributes e)]} ∪ keys)
               : M (gset (option string))) σ)
      with (σ, Some ({[attr_get "cgKey" (attributes e)]} ∪ keys)).
    cbv iota beta. now apply IH.
Qed.

(** A cycle of [syncDefs] on a catalog of the store: the brushes collected
    and the keys read, the appending loop left to run. *)
Lemma syncDefs_run (d : Drawable) (shapes : list Shape) (defs : nat)
    (σ : Dom) (e0 : Element) :
  σ !! defs = Some e0 ->
  syncDefs d shapes (Some defs) σ
  = match collectAll d shapes [] with
    | Some needed =>
        if bool_decide (Forall (fun c => is_Some (σ !! c)) (childNodes e0)) then
          appendLoop (fun kb : option string * BrushValue => renderMarker kb.2)
            (fun kb => negb (keyPresent σ defs kb.1)) defs needed σ
        else (σ, None)
    | None => (σ, None)
    end.
Proof.
  intros Hroot. unfold syncDefs. rewrite bind_run, collect_run.
  destruct (collectAll d shapes []) as [needed|]; [|reflexivity].
  rewrite bind_run. cbn [deref].
  change ((mret defs : M nat) σ) with (σ, Some defs). cbv iota.
  rewrite bind_run, children_run, Hroot.
  cbn [fmap option_fmap option_map]. rewrite bind_run.
  destruct (keys_run (childNodes e0) ∅ σ) as (rk & Hk & HK).
  destruct (decide (Forall (fun c => is_Some (σ !! c)) (childNodes e0))) as [F|F].
  - rewrite (bool_decide_eq_true_2 _ F).
    destruct (keys_returns (childNodes e0) ∅ σ F) as [K HK'].
    rewrite HK'. rewrite HK' in Hk. injection Hk as <-.
    destruct (HK K eq_refl) as [_ HKm].
    rewrite (forM_ext _
               (fun kb : option string * BrushValue =>
                  if negb (hasKey K kb.1)
                  then el ← renderMarker kb.2; appendChild defs el else mret tt))
      by (intros; apply if_negb).
    change (forM_ ?f needed) with
      (appendLoop (fun kb : option string * BrushValue => renderMarker kb.2)
         (fun kb => negb (hasKey K kb.1)) defs needed).
    rewrite (loop_need_ext _ _ (fun kb => negb (keyPresent σ defs kb.1)));
      [reflexivity|].
    intros kb _. f_equal. apply hasKey_present.
    unfold child_keys. now rewrite (children_of_root _ _ _ Hroot).
  - rewrite (bool_decide_eq_false_2 _ F). rewrite Hk.
    destruct rk as [K|]; [|reflexivity].
    destruct (HK K eq_refl) as [F' _]. contradiction.
Qed.

Lemma renderMarker_grows (b : BrushValue) (σ : Dom) : σ ⊆ (renderMarker b σ).1.
Proof. apply (keeps_renderMarker σ σ b). reflexivity. Qed.

(** The appending loop of the catalog never throws. *)
Lemma markers_return (need : option string * BrushValue -> bool) (defs : nat)
    (needed : list (option string * BrushValue)) (σ : Dom) :
  is_Some (σ !! defs) ->
  (appendLoop (fun kb : option string * BrushValue => renderMarker kb.2) need defs needed σ).2
  = Some tt.
Proof.
  intros Hd.
  apply (appendLoop_returns (fun kb : option string * BrushValue => renderMarker kb.2)
           need (fun _ => true) defs); try assumption.
  - intros kb σ1. apply renderMarker_grows.
  - intros kb σ1. cbv beta. rewrite renderMarker_run. cbn [snd]. eauto.
  - reflexivity.
Qed.

(** The first loop of [syncDefs] fails exactly on an arrow whose brush the
    catalog of brushes does not hold. *)
Lemma collectAll_some (d : Drawable) (shapes : list Shape)
    (acc : list (option string * BrushValue)) :
  is_Some (collectAll d shapes acc)
  <-> forall sc, sc ∈ shapes -> truthy (optStr (dest (sc_shape sc))) = true ->
                 is_Some (brushNamed (brushes d) (brush (sc_shape sc))).
Proof.
  revert acc. induction shapes as [|s shapes IH]; intros acc.
  - cbn [collectAll]. split; [intros _ sc Hsc; now apply elem_of_nil in Hsc | eauto].
  - cbn [collectAll]. unfold effectiveBrush.
    destruct (truthy (optStr (dest (sc_shape s)))) eqn:Td.
    + destruct (brushNamed (brushes d) (brush (sc_shape s))) as [base|] eqn:Eb.
      * rewrite IH. split.
        -- intros H sc Hsc T. apply elem_of_cons in Hsc as [->|Hsc];
             [rewrite Eb; eauto | now apply H].
        -- intros H sc Hsc T. apply H; [now constructor | assumption].
      * split; [intros [? ?]; discriminate|]. intros H.
        specialize (H s (list_elem_of_here _ _) Td). rewrite Eb in H.
        destruct H; discriminate.
    + rewrite IH. split.
      * intros H sc Hsc T. apply elem_of_cons in Hsc as [->|Hsc];
          [congruence | now apply H].
      * intros H sc Hsc T. apply H; [now constructor | assumption].
Qed.

End CatalogRuns.

(** When a cycle of [syncDefs] returns, and what it leaves when it throws. *)
Lemma syncDefs_returns {rt : Runtime} (d : Drawable)
    (shapes : list Shape) (defs : nat) (σ : Dom) (e0 : Element) :
  σ !! defs = Some e0 ->
  ((syncDefs d shapes (Some defs) σ).2 = Some tt
   <-> Forall (alive σ) (childNodes e0)
       /\ forall sc, sc ∈ shapes ->
            truthy (optStr (dest (sc_shape sc))) = true ->
            is_Some (brushNamed (brushes d) (brush (sc_shape sc))))
  /\ ((syncDefs d shapes (Some defs) σ).2 = None ->
      (syncDefs d shapes (Some defs) σ).1 = σ).
Proof.
  intros Hroot. rewrite (syncDefs_run _ _ _ _ _ Hroot).
  pose proof (collectAll_some d shapes []) as C. unfold alive.
  destruct (collectAll d shapes []) as [needed|].
  - destruct (decide (Forall (fun c => is_Some (σ !! c)) (childNodes e0))) as [F|F].
    + rewrite (bool_decide_eq_true_2 _ F).
      rewrite markers_return by eauto. split; [|discriminate].
      split; [intros _; split; [assumption|]; apply C; eauto | reflexivity].
    + rewrite (bool_decide_eq_false_2 _ F). cbn [fst snd].
      split; [|reflexivity]. split; [discriminate | tauto].
  - cbn [fst snd]. split; [|reflexivity]. split; [discriminate|].
    intros [_ H]. apply C in H. destruct H; discriminate.
Qed.

Section CatalogCycles.
Context {rt : Runtime}.

(** After a cycle of [syncDefs] that returns, the catalog holds a marker
    tagged with the text of every required key, and its children are nodes
    of the store. *)
Lemma syncDefs_keys (d : Drawable) (shapes : list Shape)
    (defs : nat) (σ σ' : Dom) (e0 : Element) :
  σ !! defs = Some e0 ->
  syncDefs d shapes (Some defs) σ = (σ', Some tt) ->
  (forall key, key ∈ requiredKeys d shapes ->
               Some (keyText key) ∈ child_keys σ' defs)
  /\ Forall (alive σ') (children_of σ' defs).
Proof.
  intros Hroot Hrun.
  destruct (syncDefs_spec _ _ _ _ _ _ _ Hroot Hrun)
    as (news & R1 & R2 & R3 & R4 & R5).
  destruct (R5 eq_refl) as (needed & Ec & HF & Hkeys). clear R5.
  destruct (collectAll_spec d shapes [] needed Ec) as (_ & _ & K3);
    [constructor | constructor |].
  set (newkeys := List.filter (fun k => negb (keyPresent σ defs k))
                    (map fst needed)) in *.
  assert (Hold : forall c, c ∈ childNodes e0 ->
            is_Some (σ' !! c) /\ attr_of σ' c "cgKey" = attr_of σ c "cgKey").
  { intros c Hc. rewrite Forall_forall in HF. destruct (HF c Hc) as [e He].
    unfold attr_of. destruct (decide (c = defs)) as [->|N].
    - rewrite R1, Hroot. split; [eauto | reflexivity].
    - rewrite (R2 c e N He), He. split; [eauto | reflexivity]. }
  assert (Hnew : forall el, el ∈ news -> is_Some (σ' !! el)).
  { intros el Hel.
    assert (I : attr_of σ' el "cgKey" ∈ map (fun k => Some (keyText k)) newkeys).
    { rewrite <- Hkeys. apply list_elem_of_fmap. eauto. }
    apply list_elem_of_fmap in I as (k & Ek & _).
    unfold attr_of in Ek. destruct (σ' !! el); [eauto | discriminate]. }
  split.
  - intros key Hk. unfold child_keys. rewrite (children_of_root _ _ _ R1).
    cbn [childNodes with_childNodes]. rewrite map_app, Hkeys, elem_of_app.
    destruct (keyPresent σ defs key) eqn:P.
    + left. destruct key as [k|]; [|discriminate]. unfold keyPresent in P.
      apply bool_decide_eq_true_1 in P. unfold child_keys in P.
      rewrite (children_of_root _ _ _ Hroot) in P.
      apply list_elem_of_fmap in P as (c & Ea & Hc).
      apply list_elem_of_fmap. exists c. split; [|assumption].
      now rewrite (proj2 (Hold c Hc)).
    + right. apply list_elem_of_fmap. exists key. split; [reflexivity|].
      apply elem_of_Lfilter. split; [|now rewrite P].
      apply K3. now right.
  - rewrite (children_of_root _ _ _ R1). cbn [childNodes with_childNodes].
    apply Forall_forall. intros c Hc. apply elem_of_app in Hc as [Hc|Hc];
      [now apply Hold | now apply Hnew].
Qed.

(** One cycle, whatever its outcome, on a catalog whose children are nodes
    of the store: it returns exactly when its brushes resolve, and a cycle
    that throws leaves the store as it is. *)
Lemma cycle_outcome (d : Drawable) (shapes : list Shape) (defs : nat)
    (σ : Dom) (e0 : Element) :
  σ !! defs = Some e0 ->
  Forall (alive σ) (childNodes e0) ->
  (resolves d shapes /\ (syncDefs d shapes (Some defs) σ).2 = Some tt)
  \/ (~ resolves d shapes /\ syncDefs d shapes (Some defs) σ = (σ, None)).
Proof.
  intros Hroot Ha. unfold resolves.
  destruct (syncDefs_returns d shapes defs σ e0 Hroot) as [R T].
  destruct (syncDefs d shapes (Some defs) σ) as [σ1 [[]|]] eqn:E; cbn [fst snd] in *.
  - left. split; [|reflexivity]. now apply R.
  - right. rewrite (T eq_refl). split; [|reflexivity]. intros S.
    assert (X : @None unit = Some tt); [|discriminate X].
    apply R. now split.
Qed.

End CatalogCycles.

(** C2, as the code has it. Run any number of cycles of [syncDefs], each
    from the store the one before left, on a catalog whose children are
    nodes of the store and carry distinct keys (an empty catalog, to begin
    with), and let the key of the brush of every arrow be defined.
    Afterwards the markers still have distinct keys; a key is in the
    catalog exactly when it was there at the start or an arrow of one of
    the cycles that did not throw referred to it; and the catalog at the
    start is a prefix of the catalog at the end, node by node and key by
    key, with every node of the store other than the catalog itself left as
    it was. A cycle throws when the brush of one of its arrows is
    undefined, and then it changes nothing. *)
Theorem syncDefs_append_only {rt : Runtime}
    (cycles : list (Drawable * list Shape)) (defs : nat) (σ : Dom)
    (e0 : Element) :
  σ !! defs = Some e0 ->
  Forall (alive σ) (childNodes e0) ->
  NoDup (child_keys σ defs) ->
  Forall (fun c => None ∉ requiredKeys c.1 c.2) cycles ->
  let σ' := afterCycles cycles defs σ in
  NoDup (child_keys σ' defs)
  /\ (forall k, Some k ∈ child_keys σ' defs
                <-> Some k ∈ child_keys σ defs
                    \/ exists c, c ∈ cycles /\ resolves c.1 c.2
                                 /\ Some k ∈ requiredKeys c.1 c.2)
  /\ children_of σ defs `prefix_of` children_of σ' defs
  /\ child_keys σ defs `prefix_of` child_keys σ' defs
  /\ (forall n e, n <> defs -> σ !! n = Some e -> σ' !! n = Some e).
Proof.
  cbv zeta. revert σ e0. induction cycles as [|[d shapes] cycles IH];
    intros σ e0 Hroot Ha HN Hdef.
  - cbn [afterCycles fold_left]. split; [assumption|].
    split; [|split; [|split]]; auto.
    intros k. split; [now left|]. intros [H | (c & Hc & _)]; [assumption|].
    now apply elem_of_nil in Hc.
  - apply Forall_cons in Hdef as [Hd Hdef]. cbn [fst snd] in Hd.
    unfold afterCycles. cbn [fold_left fst snd].
    fold (afterCycles cycles defs (syncDefs d shapes (Some defs) σ).1).
    destruct (cycle_outcome d shapes defs σ e0 Hroot Ha) as [[Res Ret] | [Res Thr]].
    + destruct (syncDefs d shapes (Some defs) σ) as [σ1 r] eqn:E1.
      cbn [fst snd] in *. subst r.
      destruct (syncDefs_cycle _ _ _ _ _ _ Hroot HN Hd E1)
        as ((e1 & He1 & Ha1) & C1 & C2 & C3 & C4 & C5).
      destruct (IH σ1 e1 He1 Ha1 C1 Hdef) as (I1 & I2 & I3 & I4 & I5).
      split; [assumption|]. split; [|split; [|split]].
      * intros k. rewrite I2, C2. split.
        -- intros [[H | H] | (c & Hc & Hr & H)]; [now left | right | right].
           ++ exists (d, shapes). split; [constructor | now split].
           ++ exists c. split; [now constructor | now split].
        -- intros [H | (c & Hc & Hr & H)]; [now left; left|].
           apply elem_of_cons in Hc as [-> | Hc]; [left; now right | right; eauto].
      * etransitivity; eassumption.
      * etransitivity; eassumption.
      * intros n e Hn Hl. apply I5; [assumption|]. now apply C5.
    + rewrite Thr. cbn [fst].
      destruct (IH σ e0 Hroot Ha HN Hdef) as (I1 & I2 & I3 & I4 & I5).
      split; [assumption|]. split; [|split; [|split]]; try assumption.
      intros k. rewrite I2. split.
      * intros [H | (c & Hc & Hr & H)]; [now left | right].
        exists c. split; [now constructor | now split].
      * intros [H | (c & Hc & Hr & H)]; [now left|].
        apply elem_of_cons in Hc as [-> | Hc]; [contradiction | right; eauto].
Qed.

Lemma syncDefs_append_only_witness :
  NoDup (child_keys (afterCycles (rt := demo) fourCycles 1 emptyOverlay) 1)
  /\ child_keys (afterCycles (rt := demo) fourCycles 1 emptyOverlay) 1
     = [Some "g"; Some "r5"].
Proof.
  split; [|vm_compute; reflexivity].
  apply (@syncDefs_append_only demo fourCycles 1 emptyOverlay (newElement "defs")).
  - vm_compute. reflexivity.
  - constructor.
  - apply (bool_decide_unpack (NoDup _)). vm_compute. exact I.
  - repeat constructor; vm_compute; intros H;
      repeat (apply elem_of_cons in H as [H | H]; [discriminate H|]);
      now apply elem_of_nil in H.
Defined.

(** C2 fails as stated. The name constructor is no brush of the catalog,
    but [brushes[name]] answers it with a value of [Object.prototype],
    whose key is undefined. The cycle returns; the Set of the keys of the
    catalog never holds undefined, so that every cycle appends one more
    marker, tagged with the text undefined: after two cycles for the same
    arrow the catalog holds two markers with the same key. *)
Lemma syncDefs_inherited_duplicates :
  requiredKeys (rt := demo) (drawing [arrowShape "a1" "h1" "constructor"] None "")
    (hashedShapes (rt := demo) (drawing [arrowShape "a1" "h1" "constructor"] None ""))
  = [None]
  /\ (syncDefs (rt := demo) (drawing [arrowShape "a1" "h1" "constructor"] None "")
        (hashedShapes (rt := demo)
           (drawing [arrowShape "a1" "h1" "constructor"] None ""))
        (Some 1) emptyOverlay).2 = Some tt
  /\ child_keys (afterCycles (rt := demo) inheritedCycles 1 emptyOverlay) 1
     = [Some "undefined"; Some "undefined"]
  /\ ~ NoDup (child_keys (afterCycles (rt := demo) inheritedCycles 1 emptyOverlay) 1).
Proof.
  assert (E : child_keys (afterCycles (rt := demo) inheritedCycles 1 emptyOverlay) 1
              = [Some "undefined"; Some "undefined"]) by (vm_compute; reflexivity).
  split; [vm_compute; reflexivity|]. split; [vm_compute; reflexivity|].
  split; [exact E|]. rewrite E. intros N.
  apply NoDup_cons in N as [N _]. apply N. constructor.
Qed.

(** X14. A cycle of [syncDefs] on a catalog of the store returns exactly
    when every child of the catalog is a node of the store and the brush of
    every shape with a destination is defined: its name is an own property
    of the catalog of brushes or a property of [Object.prototype]. A cycle
    that throws leaves the store as it is: the brushes are resolved and the
    keys are read before the first marker is made, and making and appending
    a marker never throws. *)
Theorem syncDefs_returns_iff {rt : Runtime} (d : Drawable)
    (shapes : list Shape) (defs : nat) (σ : Dom) (e0 : Element) :
  σ !! defs = Some e0 ->
  ((syncDefs d shapes (Some defs) σ).2 = Some tt
   <-> Forall (alive σ) (childNodes e0)
       /\ forall sc, sc ∈ shapes ->
            truthy (optStr (dest (sc_shape sc))) = true ->
            is_Some (brushNamed (brushes d) (brush (sc_shape sc))))
  /\ ((syncDefs d shapes (Some defs) σ).2 = None ->
      (syncDefs d shapes (Some defs) σ).1 = σ).
Proof. apply syncDefs_returns. Qed.

Lemma syncDefs_returns_iff_witness :
  (syncDefs (rt := demo) blueArrow (hashedShapes (rt := demo) blueArrow)
     (Some 1) emptyOverlay).1 = emptyOverlay.
Proof.
  destruct (@syncDefs_returns_iff demo blueArrow
              (hashedShapes (rt := demo) blueArrow) 1 emptyOverlay
              (newElement "defs") eq_refl) as [_ H].
  apply H. vm_compute. reflexivity.
Defined.

(** X15. A cycle of [syncDefs] is idempotent when the key of the brush of
    every arrow is defined: run again for the same shapes on the store that
    a returning cycle left, it returns and leaves the store as it is. *)
Theorem syncDefs_idempotent {rt : Runtime} (d : Drawable) (shapes : list Shape)
    (defs : nat) (σ σ' : Dom) (e0 : Element) :
  σ !! defs = Some e0 ->
  None ∉ requiredKeys d shapes ->
  syncDefs d shapes (Some defs) σ = (σ', Some tt) ->
  syncDefs d shapes (Some defs) σ' = (σ', Some tt).
Proof.
  intros Hroot Hdef Hrun.
  destruct (syncDefs_keys _ _ _ _ _ _ Hroot Hrun) as [M A].
  destruct (syncDefs_spec _ _ _ _ _ _ _ Hroot Hrun) as (news & R1 & _ & _ & _ & R5).
  destruct (R5 eq_refl) as (needed & Ec & _ & _). clear R5.
  destruct (collectAll_spec d shapes [] needed Ec) as (_ & _ & K3);
    [constructor | constructor |].
  rewrite (children_of_root _ _ _ R1) in A.
  rewrite (syncDefs_run _ _ _ _ _ R1), Ec.
  rewrite (bool_decide_eq_true_2 _ A).
  apply appendLoop_idle. intros kb Hkb.
  assert (Hk : kb.1 ∈ requiredKeys d shapes).
  { destruct (K3 kb.1) as [K _]. destruct K as [K|K]; [| |exact K].
    - apply list_elem_of_fmap. eauto.
    - now apply elem_of_nil in K. }
  destruct kb as [[k|] v]; cbn [fst] in *; [|contradiction].
  apply negb_false_iff. unfold keyPresent. apply bool_decide_eq_true_2.
  exact (M (Some k) Hk).
Qed.

Lemma syncDefs_idempotent_witness :
  syncDefs (rt := demo) (drawing [arrowShape "a1" "h1" "green"] None "")
    (hashedShapes (rt := demo) (drawing [arrowShape "a1" "h1" "green"] None ""))
    (Some 1) greenArrowCycle.1
  = (greenArrowCycle.1, Some tt).
Proof.
  apply (@syncDefs_idempotent demo (drawing [arrowShape "a1" "h1" "green"] None "")
           (hashedShapes (rt := demo) (drawing [arrowShape "a1" "h1" "green"] None ""))
           1 emptyOverlay greenArrowCycle.1 (newElement "defs")).
  - vm_compute. reflexivity.
  - vm_compute. intros H. apply elem_of_cons in H as [H | H]; [discriminate H|].
    now apply elem_of_nil in H.
  - vm_compute. reflexivity.
Defined.

(** ** One call of [renderSvg] *)

Section Calls.
Context {rt : Runtime}.

Lemma querySelector_run (root : nat) (tag : string) (σ : Dom) :
  (querySelector root tag σ).1 = σ.
Proof.
  unfold querySelector. rewrite bind_run. unfold getElement.
  destruct (σ !! root); reflexivity.
Qed.

Lemma hashedShapes_shapes (d : Drawable) :
  map sc_shape (hashedShapes d) = allShapes d.
Proof.
  unfold hashedShapes, allShapes. rewrite map_app, map_map. cbn [sc_shape].
  rewrite map_id. f_equal. now destruct (currentShape d).
Qed.

Lemma same_but_children_refl (e : Element) : same_but_children e e.
Proof. repeat split. Qed.

Lemma same_but_children_trans (e1 e2 e3 : Element) :
  same_but_children e1 e2 -> same_but_children e2 e3 -> same_but_children e1 e3.
Proof. unfold same_but_children. intros (? & ?) (? & ?). split; congruence. Qed.

(** What a pass of [syncShapes] and a cycle of [syncDefs] can change of a
    node of the store, whatever their container is and whether they return
    or throw: the children of the container. *)
Lemma syncShapes_changes (state : State) (shapes : list Shape)
    (bs : gmap string DrawBrush) (ad : gmap string nat) (root : option nat)
    (σ : Dom) (n : nat) (e : Element) :
  σ !! n = Some e ->
  exists e', (syncShapes state shapes bs ad root σ).1 !! n = Some e'
             /\ same_but_children e e' /\ (root <> Some n -> e' = e).
Proof.
  intros Hn.
  assert (Same : exists e', σ !! n = Some e'
                       /\ same_but_children e e' /\ (root <> Some n -> e' = e)).
  { exists e. split; [assumption|].
    split; [apply same_but_children_refl | reflexivity]. }
  destruct root as [r|]; [|exact Same].
  destruct (σ !! r) as [e0|] eqn:Hr.
  - destruct (syncShapes state shapes bs ad (Some r) σ) as [σ' res] eqn:Hrun.
    destruct (syncShapes_spec _ _ _ _ _ _ _ _ _ Hr Hrun)
      as [[-> ->] | (news & R1 & R2 & _)]; [exact Same|].
    cbn [fst]. destruct (decide (n = r)) as [->|N].
    + exists (with_childNodes
                (List.filter (stays σ shapes) (childNodes e0) ++ news) e0).
      split; [assumption|]. rewrite Hr in Hn. injection Hn as <-.
      split; [repeat split | congruence].
    + exists e. split; [now apply R2|].
      split; [apply same_but_children_refl | reflexivity].
  - assert (E : syncShapes state shapes bs ad (Some r) σ = (σ, None)).
    { unfold syncShapes. cbn [deref].
      rewrite bind_run. change ((mret r : M nat) σ) with (σ, Some r).
      cbv iota. now rewrite bind_run, children_run, Hr. }
    rewrite E. exact Same.
Qed.

Lemma syncDefs_changes (d : Drawable) (shapes : list Shape)
    (defsEl : option nat) (σ : Dom) (n : nat) (e : Element) :
  σ !! n = Some e ->
  exists e', (syncDefs d shapes defsEl σ).1 !! n = Some e'
             /\ same_but_children e e' /\ (defsEl <> Some n -> e' = e).
Proof.
  intros Hn.
  assert (Same : exists e', σ !! n = Some e'
                       /\ same_but_children e e' /\ (defsEl <> Some n -> e' = e)).
  { exists e. split; [assumption|].
    split; [apply same_but_children_refl | reflexivity]. }
  destruct (collectAll d shapes []) as [needed|] eqn:Ec.
  2:{ assert (E : syncDefs d shapes defsEl σ = (σ, None)).
      { unfold syncDefs. now rewrite bind_run, collect_run, Ec. }
      rewrite E. exact Same. }
  destruct defsEl as [r|].
  2:{ assert (E : syncDefs d shapes None σ = (σ, None)).
      { unfold syncDefs. now rewrite bind_run, collect_run, Ec. }
      rewrite E. exact Same. }
  destruct (σ !! r) as [e0|] eqn:Hr.
  - destruct (syncDefs d shapes (Some r) σ) as [σ' res] eqn:Hrun.
    destruct (syncDefs_spec _ _ _ _ _ _ _ Hr Hrun) as (news & R1 & R2 & _).
    cbn [fst]. destruct (decide (n = r)) as [->|N].
    + exists (with_childNodes (childNodes e0 ++ news) e0).
      split; [assumption|]. rewrite Hr in Hn. injection Hn as <-.
      split; [repeat split | congruence].
    + exists e. split; [now apply R2|].
      split; [apply same_but_children_refl | reflexivity].
  - assert (E : syncDefs d shapes (Some r) σ = (σ, None)).
    { unfold syncDefs. rewrite bind_run, collect_run, Ec.
      rewrite bind_run. cbn [deref]. change ((mret r : M nat) σ) with (σ, Some r).
      cbv iota. now rewrite bind_run, children_run, Hr. }
    rewrite E. exact Same.
Qed.

Lemma reconcile_changes (state : State) (svg customSvg : nat) (σ : Dom)
    (n : nat) (e : Element) :
  σ !! n = Some e ->
  exists e', (reconcile state svg customSvg σ).1 !! n = Some e'
             /\ same_but_children e e'
             /\ (found σ svg "defs" <> Some n -> found σ svg "g" <> Some n ->
                 found σ customSvg "g" <> Some n -> e' = e).
Proof.
  intros Hn. unfold reconcile, found. cbv zeta.
  assert (Id : exists e', σ !! n = Some e' /\ same_but_children e e').
  { exists e. split; [assumption | apply same_but_children_refl]. }
  rewrite bind_run.
  pose proof (querySelector_run svg "defs" σ) as Q1.
  destruct (querySelector svg "defs" σ) as [σ1 [defsEl|]]; cbn [fst snd] in *;
    subst σ1; [|destruct Id as (e' & ? & ?); exists e; eauto using same_but_children_refl].
  rewrite bind_run.
  pose proof (querySelector_run svg "g" σ) as Q2.
  destruct (querySelector svg "g" σ) as [σ1 [shapesEl|]]; cbn [fst snd] in *;
    subst σ1; [|exists e; eauto using same_but_children_refl].
  rewrite bind_run.
  pose proof (querySelector_run customSvg "g" σ) as Q3.
  destruct (querySelector customSvg "g" σ) as [σ1 [customEl|]]; cbn [fst snd] in *;
    subst σ1; [|exists e; eauto using same_but_children_refl].
  rewrite bind_run.
  destruct (syncDefs_changes (drawable state) (hashedShapes (drawable state))
              defsEl σ n e Hn) as (e1 & H1 & S1 & F1).
  destruct (syncDefs (drawable state) (hashedShapes (drawable state)) defsEl σ)
    as [σa [[]|]]; cbn [fst snd] in *.
  2:{ exists e1. split; [assumption|]. split; [assumption|].
      intros N1 _ _. apply F1. destruct defsEl; congruence. }
  rewrite bind_run.
  destruct (syncShapes_changes state
              (List.filter (fun s => negb (isCustom s)) (hashedShapes (drawable state)))
              (brushes (drawable state)) (arrowDestsOf (drawable state))
              shapesEl σa n e1 H1) as (e2 & H2 & S2 & F2).
  destruct (syncShapes state _ (brushes (drawable state))
              (arrowDestsOf (drawable state)) shapesEl σa)
    as [σb [[]|]]; cbn [fst snd] in *.
  2:{ exists e2. split; [assumption|].
      split; [eapply same_but_children_trans; eauto|].
      intros N1 N2 _. rewrite F2, F1; [reflexivity | |];
        [destruct defsEl | destruct shapesEl]; congruence. }
  destruct (syncShapes_changes state
              (List.filter isCustom (hashedShapes (drawable state)))
              (brushes (drawable state)) (arrowDestsOf (drawable state))
              customEl σb n e2 H2) as (e3 & H3 & S3 & F3).
  exists e3. split; [assumption|].
  split; [eauto using same_but_children_trans|].
  intros N1 N2 N3. rewrite F3, F2, F1; [reflexivity | | |];
    [destruct defsEl | destruct shapesEl | destruct customEl]; congruence.
Qed.

End Calls.

(** X16. Whatever it is called with, and whether it returns or throws,
    [renderSvg] leaves every node of the store in the store with its tag
    and its attributes; and it leaves the list of the children of the node
    as it is, unless the node is one of the three containers that
    [querySelector] finds: the defs and the g of the first svg and the g of
    the second. *)
Theorem renderSvg_frame {rt : Runtime} (state : State) (svg customSvg : nat)
    (σ : Dom) (n : nat) (e : Element) :
  σ !! n = Some e ->
  exists e', (renderSvg state svg customSvg σ).2.1 !! n = Some e'
             /\ same_but_children e e'
             /\ (found σ svg "defs" <> Some n -> found σ svg "g" <> Some n ->
                 found σ customSvg "g" <> Some n ->
                 childNodes e' = childNodes e).
Proof.
  intros Hn. unfold renderSvg. cbv zeta.
  destruct (String.eqb _ _); cbn [fst snd].
  - exists e. split; [assumption|]. split; [repeat split | reflexivity].
  - destruct (reconcile_changes state svg customSvg σ n e Hn) as (e' & H & S & F).
    exists e'. split; [exact H|]. split; [exact S|].
    intros N1 N2 N3. now rewrite (F N1 N2 N3).
Qed.

(** After the cycle for one circle on the empty overlay the two svg roots
    have the children they had, and the g that holds the shapes, which had
    none, holds the circle. *)
Lemma renderSvg_frame_witness :
  (exists e', afterOneCircle.2.1 !! 0 = Some e' /\ tagName e' = "svg"
              /\ childNodes e' = [1; 2])
  /\ (exists e', afterOneCircle.2.1 !! 3 = Some e' /\ tagName e' = "svg"
                 /\ childNodes e' = [4])
  /\ children_of emptyOverlay 2 = []
  /\ children_of afterOneCircle.2.1 2 = [5].
Proof.
  split; [|split; [|split; vm_compute; reflexivity]].
  - destruct (@renderSvg_frame demo (onBoard oneCircle) 0 3 emptyOverlay 0
                (with_childNodes [1; 2] (newElement "svg")) eq_refl)
      as (e' & H & (T & _) & F).
    exists e'. split; [exact H|]. split; [exact T|].
    apply F; vm_compute; discriminate.
  - destruct (@renderSvg_frame demo (onBoard oneCircle) 0 3 emptyOverlay 3
                (with_childNodes [4] (newElement "svg")) eq_refl)
      as (e' & H & (T & _) & F).
    exists e'. split; [exact H|]. split; [exact T|].
    apply F; vm_compute; discriminate.
Defined.

(** X17. When the drawing holds a shape with a destination whose brush is
    undefined (its name is neither an own property of the catalog of
    brushes nor a property of [Object.prototype]), a call of [renderSvg]
    that is not short-circuited throws and leaves the store as it is, but
    it has replaced the snapshot by then: the next call for the same
    drawing returns at once, so that none of its shapes is ever
    rendered. *)
Theorem renderSvg_unresolved_brush {rt : Runtime} (state : State)
    (svg customSvg : nat) (σ : Dom) (s : DrawShape) :
  s ∈ allShapes (drawable state) ->
  truthy (optStr (dest s)) = true ->
  brushNamed (brushes (drawable state)) (brush s) = None ->
  fullHashOf (drawable state) <> prevSvgHash (drawable state) ->
  let state' := setPrevSvgHash state (fullHashOf (drawable state)) in
  renderSvg state svg customSvg σ = (state', (σ, None))
  /\ forall svg' customSvg' σ',
       renderSvg state' svg' customSvg' σ' = (state', (σ', Some tt)).
Proof.
  intros Hs Hd Hb Hne state'. split.
  - unfold renderSvg. cbv zeta.
    rewrite (proj2 (String.eqb_neq _ _) Hne). fold state'. f_equal.
    assert (Ec : collectAll (drawable state') (hashedShapes (drawable state')) []
                 = None).
    { destruct (collectAll _ _ _) eqn:E; [exfalso | reflexivity].
      rewrite <- hashedShapes_shapes in Hs.
      apply list_elem_of_fmap in Hs as (sc & -> & Hsc).
      assert (S : is_Some (collectAll (drawable state')
                             (hashedShapes (drawable state')) [])) by eauto.
      apply collectAll_some with (sc := sc) in S; [| exact Hsc | exact Hd].
      change (brushes (drawable state')) with (brushes (drawable state)) in S.
      rewrite Hb in S. destruct S; discriminate. }
    unfold reconcile. cbv zeta. rewrite bind_run.
    pose proof (querySelector_run svg "defs" σ) as Q1.
    destruct (querySelector svg "defs" σ) as [σ1 [defsEl|]]; cbn [fst snd] in *;
      subst σ1; [|reflexivity].
    rewrite bind_run.
    pose proof (querySelector_run svg "g" σ) as Q2.
    destruct (querySelector svg "g" σ) as [σ1 [shapesEl|]]; cbn [fst snd] in *;
      subst σ1; [|reflexivity].
    rewrite bind_run.
    pose proof (querySelector_run customSvg "g" σ) as Q3.
    destruct (querySelector customSvg "g" σ) as [σ1 [customEl|]]; cbn [fst snd] in *;
      subst σ1; [|reflexivity].
    rewrite bind_run. unfold syncDefs at 1.
    now rewrite bind_run, collect_run, Ec.
  - intros svg' customSvg' σ'. unfold renderSvg. cbv zeta.
    subst state'. rewrite fullHashOf_setPrevSvgHash.
    cbn [setPrevSvgHash drawable prevSvgHash].
    now rewrite String.eqb_refl.
Qed.

Lemma renderSvg_unresolved_brush_witness :
  renderSvg (rt := demo) (onBoard blueArrow) 0 3 emptyOverlay
  = (setPrevSvgHash (onBoard blueArrow) "a1,green;a1,h1,blue", (emptyOverlay, None)).
Proof.
  apply (@renderSvg_unresolved_brush demo (onBoard blueArrow) 0 3 emptyOverlay
           (arrowShape "a1" "h1" "blue")).
  - apply list_elem_of_In. vm_compute. tauto.
  - reflexivity.
  - vm_compute. reflexivity.
  - vm_compute. discriminate.
Defined.

(** ** A whole cycle on a well-formed overlay *)

Section Cycle.
Context {rt : Runtime}.

Lemma firstWithTag_alive (fuel : nat) (σ : Dom) (tag : string) (ids : list nat)
    (el : nat) :
  firstWithTag fuel σ tag ids = Some el ->
  exists e, σ !! el = Some e /\ tagName e = tag.
Proof.
  revert ids. induction fuel as [|fuel IH]; intros ids H; [discriminate|].
  cbn [firstWithTag] in H. destruct ids as [|id rest]; [discriminate|].
  destruct (σ !! id) as [e|] eqn:E; [|now apply IH in H].
  destruct (String.eqb_spec (tagName e) tag) as [T|T]; [|now apply IH in H].
  injection H as <-. eauto.
Qed.

Lemma found_run (σ : Dom) (root : nat) (tag : string) (el : nat) :
  found σ root tag = Some el ->
  querySelector root tag σ = (σ, Some (Some el))
  /\ exists e, σ !! el = Some e /\ tagName e = tag.
Proof.
  unfold found. pose proof (querySelector_run root tag σ) as Q.
  destruct (querySelector root tag σ) as [σ1 [[x|]|]] eqn:E; try discriminate.
  cbn [fst snd] in *. subst σ1. intros [= ->]. split; [reflexivity|].
  unfold querySelector in E. rewrite bind_run in E. unfold getElement in E.
  destruct (σ !! root) as [e|]; [|discriminate].
  unfold readDom in E.
  apply (firstWithTag_alive (S (size σ)) σ tag (childNodes e)). congruence.
Qed.

Lemma attr_kept (σ σ' : Dom) (n : nat) (e e' : Element) (k : string) :
  σ !! n = Some e -> σ' !! n = Some e' -> same_but_children e e' ->
  attr_of σ' n k = attr_of σ n k.
Proof.
  intros H H' (_ & A). unfold attr_of. now rewrite H, H', A.
Qed.

Lemma hashes_filter_NoDup (P : Shape -> bool) (shapes : list Shape) :
  NoDup (target_hashes shapes) -> NoDup (target_hashes (List.filter P shapes)).
Proof.
  unfold target_hashes. induction shapes as [|sc shapes IH]; intros H; [constructor|].
  cbn [map] in H. apply NoDup_cons in H as [H1 H2]. cbn [List.filter].
  destruct (P sc); [|now apply IH]. cbn [map]. apply NoDup_cons.
  split; [|now apply IH]. intros I. apply H1.
  apply list_elem_of_fmap in I as (x & -> & Hx).
  apply elem_of_Lfilter in Hx as [Hx _]. now apply list_elem_of_fmap_2.
Qed.

(** A pass that returns, on targets of distinct hashes and children of
    distinct tags: the tags become the target hashes. *)
Lemma pass_exact (state : State) (shapes : list Shape)
    (bs : gmap string DrawBrush) (ad : gmap string nat)
    (root : nat) (σ σ' : Dom) (e0 : Element) :
  σ !! root = Some e0 ->
  NoDup (target_hashes shapes) ->
  NoDup (child_hashes σ root) ->
  syncShapes state shapes bs ad (Some root) σ = (σ', Some tt) ->
  child_hashes σ' root ≡ₚ map Some (target_hashes shapes)
  /\ NoDup (child_hashes σ' root).
Proof.
  intros Hroot HT HK Hrun.
  pose proof (pass_tags _ _ _ _ _ _ _ _ Hroot Hrun) as Htags.
  set (kept := List.filter (stays σ shapes) (childNodes e0)) in *.
  set (inserted := List.filter
                     (fun h => bool_decide (Some h ∉ child_hashes σ root))
                     (target_hashes shapes)) in *.
  assert (HK' : NoDup (map (fun c => attr_of σ c "cgHash") kept)).
  { unfold child_hashes in HK. rewrite (children_of_root _ _ _ Hroot) in HK.
    unfold kept. clear -HK. induction (childNodes e0) as [|c l IH]; [constructor|].
    cbn [map] in HK. apply NoDup_cons in HK as [H1 H2]. cbn [List.filter].
    destruct (stays σ shapes c); [|now apply IH]. cbn [map]. apply NoDup_cons.
    split; [|now apply IH]. intros I. apply H1.
    apply list_elem_of_fmap in I as (x & -> & Hx).
    apply elem_of_Lfilter in Hx as [Hx _].
    apply list_elem_of_fmap. eauto. }
  assert (Hkept_in : forall x, x ∈ map (fun c => attr_of σ c "cgHash") kept ->
            x ∈ child_hashes σ root /\ x ∈ map Some (target_hashes shapes)).
  { intros x Hx. apply list_elem_of_fmap in Hx as (c & -> & Hc).
    apply elem_of_Lfilter in Hc as [Hc Hs]. split.
    - unfold child_hashes. rewrite (children_of_root _ _ _ Hroot).
      apply list_elem_of_fmap. eauto.
    - apply stays_spec in Hs as (h & -> & Ht). apply list_elem_of_fmap. eauto. }
  assert (Hins : forall h, h ∈ inserted
            <-> h ∈ target_hashes shapes /\ Some h ∉ child_hashes σ root).
  { intros h. unfold inserted. rewrite elem_of_Lfilter, bool_decide_eq_true.
    reflexivity. }
  assert (ND : NoDup (child_hashes σ' root)).
  { rewrite Htags. apply NoDup_app. split; [exact HK'|]. split.
    - intros x Hx Hi. apply Hkept_in in Hx as [Hx _].
      apply list_elem_of_fmap in Hi as (h & -> & Hi).
      apply Hins in Hi as [_ Hi]. contradiction.
    - apply (NoDup_fmap_2 Some). unfold inserted.
      now apply NoDup_ListNoDup, List.NoDup_filter, NoDup_ListNoDup. }
  split; [|exact ND].
  apply NoDup_Permutation; [exact ND | now apply (NoDup_fmap_2 Some) |].
  intros x. rewrite Htags, elem_of_app. split.
  - intros [Hx | Hx]; [now apply Hkept_in|].
    apply list_elem_of_fmap in Hx as (h & -> & Hi).
    apply Hins in Hi as [Hi _]. apply list_elem_of_fmap. eauto.
  - intros Hx. apply list_elem_of_fmap in Hx as (h & -> & Ht).
    destruct (decide (Some h ∈ child_hashes σ root)) as [I|I].
    + left. unfold child_hashes in I. rewrite (children_of_root _ _ _ Hroot) in I.
      apply list_elem_of_fmap in I as (c & Ea & Hc).
      apply list_elem_of_fmap. exists c. split; [assumption|].
      apply elem_of_Lfilter. split; [assumption|]. apply stays_spec. eauto.
    + right. apply list_elem_of_fmap. exists h. split; [reflexivity|].
      apply Hins. auto.
Qed.

(** The tags of the children of a node that a computation leaves as it
    is, when the children are nodes of the store and keep their
    attributes. *)
Lemma tags_kept (σ σ' : Dom) (root : nat) (e0 : Element) (k : string) :
  σ !! root = Some e0 -> σ' !! root = Some e0 ->
  Forall (alive σ) (childNodes e0) ->
  (forall n e, σ !! n = Some e ->
     exists e', σ' !! n = Some e' /\ same_but_children e e') ->
  map (fun c => attr_of σ' c k) (children_of σ' root)
  = map (fun c => attr_of σ c k) (children_of σ root)
  /\ Forall (alive σ') (childNodes e0).
Proof.
  intros H H' Ha Hk.
  rewrite (children_of_root _ _ _ H), (children_of_root _ _ _ H'). split.
  - apply map_ext_in. intros c Hc. apply list_elem_of_In in Hc.
    rewrite Forall_forall in Ha. destruct (Ha c Hc) as [e He].
    destruct (Hk c e He) as (e' & He' & S). eapply attr_kept; eauto.
  - eapply Forall_impl; [exact Ha|]. intros c [e He].
    destruct (Hk c e He) as (e' & He' & _). unfold alive. eauto.
Qed.



End Cycle.

Section CycleRuns.
Context {rt : Runtime}.

(** The children of a container whose tags are all present are nodes of
    the store. *)
Lemma tagged_alive (σ : Dom) (root : nat) (l : list string) :
  child_hashes σ root ≡ₚ map Some l -> Forall (alive σ) (children_of σ root).
Proof.
  intros P. apply Forall_forall. intros c Hc.
  assert (I : attr_of σ c "cgHash" ∈ child_hashes σ root).
  { unfold child_hashes. apply list_elem_of_fmap. eauto. }
  rewrite P in I. apply list_elem_of_fmap in I as (h & E & _).
  unfold alive. unfold attr_of in E. destruct (σ !! c); [eauto | discriminate].
Qed.

Lemma reconcile_found (state : State) (svg customSvg : nat) (σ : Dom)
    (defsEl shapesEl customSvgsEl : nat) :
  found σ svg "defs" = Some defsEl ->
  found σ svg "g" = Some shapesEl ->
  found σ customSvg "g" = Some customSvgsEl ->
  reconcile state svg customSvg σ
  = (syncDefs (drawable state) (hashedShapes (drawable state)) (Some defsEl) ;;
     syncShapes state
       (List.filter (fun s => negb (isCustom s)) (hashedShapes (drawable state)))
       (brushes (drawable state)) (arrowDestsOf (drawable state)) (Some shapesEl) ;;
     syncShapes state (List.filter isCustom (hashedShapes (drawable state)))
       (brushes (drawable state)) (arrowDestsOf (drawable state))
       (Some customSvgsEl)) σ.
Proof.
  intros Fd Fg Fc.
  destruct (found_run _ _ _ _ Fd) as [Qd _].
  destruct (found_run _ _ _ _ Fg) as [Qg _].
  destruct (found_run _ _ _ _ Fc) as [Qc _].
  unfold reconcile. cbv zeta.
  now rewrite bind_run, Qd, bind_run, Qg, bind_run, Qc.
Qed.

End CycleRuns.

(** X18. A call of [renderSvg] that is not short-circuited and returns, on
    a well-formed overlay and for shapes of pairwise distinct hashes, shows
    the drawing: the children of the first group carry exactly the hashes
    of the shapes without markup, the children of the second group exactly
    the hashes of the shapes with markup, each hash on one child, and the
    catalog holds, for the brush of every arrow, a marker tagged with the
    text of its key (the text undefined when the brush has no key). *)
Theorem renderSvg_shows_drawing {rt : Runtime} (state : State)
    (svg customSvg : nat) (σ : Dom) (defsEl shapesEl customSvgsEl : nat) :
  overlay σ svg customSvg defsEl shapesEl customSvgsEl ->
  NoDup (target_hashes (hashedShapes (drawable state))) ->
  fullHashOf (drawable state) <> prevSvgHash (drawable state) ->
  (renderSvg state svg customSvg σ).2.2 = Some tt ->
  let σ' := (renderSvg state svg customSvg σ).2.1 in
  let shapes := hashedShapes (drawable state) in
  child_hashes σ' shapesEl
  ≡ₚ map Some (target_hashes (List.filter (fun s => negb (isCustom s)) shapes))
  /\ child_hashes σ' customSvgsEl
     ≡ₚ map Some (target_hashes (List.filter isCustom shapes))
  /\ NoDup (child_hashes σ' shapesEl)
  /\ NoDup (child_hashes σ' customSvgsEl)
  /\ (forall key, key ∈ requiredKeys (drawable state) shapes ->
                  Some (keyText key) ∈ child_keys σ' defsEl).
Proof.
  intros (Fd & Fg & Fc & Ngc & Ag & Ac & Kg & Kc) HT Hne Hret.
  cbv zeta. revert Hret. unfold renderSvg. cbv zeta.
  rewrite (proj2 (String.eqb_neq _ _) Hne). cbn [fst snd].
  set (state' := setPrevSvgHash state (fullHashOf (drawable state))).
  rewrite (reconcile_found state' _ _ _ _ _ _ Fd Fg Fc).
  change (drawable state') with
    (drawable (setPrevSvgHash state (fullHashOf (drawable state)))).
  change (hashedShapes (drawable (setPrevSvgHash state (fullHashOf (drawable state)))))
    with (hashedShapes (drawable state)).
  change (brushes (drawable (setPrevSvgHash state (fullHashOf (drawable state)))))
    with (brushes (drawable state)).
  change (arrowDestsOf (drawable (setPrevSvgHash state (fullHashOf (drawable state)))))
    with (arrowDestsOf (drawable state)).
  set (shapes := hashedShapes (drawable state)).
  set (d' := drawable (setPrevSvgHash state (fullHashOf (drawable state)))).
  destruct (found_run _ _ _ _ Fd) as [_ (ed & Ed & Td)].
  destruct (found_run _ _ _ _ Fg) as [_ (eg & Eg & Tg)].
  destruct (found_run _ _ _ _ Fc) as [_ (ec & Ec & Tc)].
  assert (Ndg : defsEl <> shapesEl).
  { intros ->. rewrite Ed in Eg. injection Eg as <-. rewrite Td in Tg. discriminate. }
  assert (Ndc : defsEl <> customSvgsEl).
  { intros ->. rewrite Ed in Ec. injection Ec as <-. rewrite Td in Tc. discriminate. }
  rewrite bind_run.
  destruct (syncDefs d' shapes (Some defsEl) σ) as [σ1 r1] eqn:R1.
  destruct r1 as [[]|]; [|discriminate].
  rewrite bind_run.
  destruct (syncShapes state' (List.filter (fun s => negb (isCustom s)) shapes)
              (brushes (drawable state)) (arrowDestsOf (drawable state))
              (Some shapesEl) σ1) as [σ2 r2] eqn:R2.
  destruct r2 as [[]|]; [|discriminate].
  destruct (syncShapes state' (List.filter isCustom shapes)
              (brushes (drawable state)) (arrowDestsOf (drawable state))
              (Some customSvgsEl) σ2) as [σ3 r3] eqn:R3.
  cbn [fst snd]. intros ->.
  (* what each step keeps *)
  assert (K1 : forall n e, σ !! n = Some e ->
            exists e', σ1 !! n = Some e' /\ same_but_children e e'
                       /\ (Some defsEl <> Some n -> e' = e)).
  { intros n e Hn. pose proof (syncDefs_changes d' shapes (Some defsEl) σ n e Hn) as C.
    now rewrite R1 in C. }
  assert (K2 : forall n e, σ1 !! n = Some e ->
            exists e', σ2 !! n = Some e' /\ same_but_children e e'
                       /\ (Some shapesEl <> Some n -> e' = e)).
  { intros n e Hn.
    pose proof (syncShapes_changes state'
                  (List.filter (fun s => negb (isCustom s)) shapes)
                  (brushes (drawable state))
                  (arrowDestsOf (drawable state)) (Some shapesEl) σ1 n e Hn) as C.
    now rewrite R2 in C. }
  assert (K3 : forall n e, σ2 !! n = Some e ->
            exists e', σ3 !! n = Some e' /\ same_but_children e e'
                       /\ (Some customSvgsEl <> Some n -> e' = e)).
  { intros n e Hn.
    pose proof (syncShapes_changes state' (List.filter isCustom shapes)
                  (brushes (drawable state))
                  (arrowDestsOf (drawable state)) (Some customSvgsEl) σ2 n e Hn) as C.
    now rewrite R3 in C. }
  assert (W1 : forall n e, σ !! n = Some e ->
            exists e', σ1 !! n = Some e' /\ same_but_children e e').
  { intros n e Hn. destruct (K1 n e Hn) as (e' & ? & ? & _). eauto. }
  assert (W2 : forall n e, σ1 !! n = Some e ->
            exists e', σ2 !! n = Some e' /\ same_but_children e e').
  { intros n e Hn. destruct (K2 n e Hn) as (e' & ? & ? & _). eauto. }
  assert (W3 : forall n e, σ2 !! n = Some e ->
            exists e', σ3 !! n = Some e' /\ same_but_children e e').
  { intros n e Hn. destruct (K3 n e Hn) as (e' & ? & ? & _). eauto. }
  (* the first group *)
  assert (Eg1 : σ1 !! shapesEl = Some eg).
  { destruct (K1 _ _ Eg) as (e' & He' & _ & F). rewrite F in He' by congruence.
    exact He'. }
  rewrite (children_of_root _ _ _ Eg) in Ag.
  destruct (tags_kept σ σ1 shapesEl eg "cgHash" Eg Eg1 Ag W1) as [Tg1 Ag1].
  fold (child_hashes σ1 shapesEl) (child_hashes σ shapesEl) in Tg1.
  destruct (pass_exact _ _ _ _ _ _ _ _ Eg1
              (hashes_filter_NoDup _ _ HT) ltac:(now rewrite Tg1) R2) as [P2 N2].
  (* the second group *)
  assert (Ec1 : σ1 !! customSvgsEl = Some ec).
  { destruct (K1 _ _ Ec) as (e' & He' & _ & F). rewrite F in He' by congruence.
    exact He'. }
  assert (Ec2 : σ2 !! customSvgsEl = Some ec).
  { destruct (K2 _ _ Ec1) as (e' & He' & _ & F). rewrite F in He' by congruence.
    exact He'. }
  rewrite (children_of_root _ _ _ Ec) in Ac.
  destruct (tags_kept σ σ1 customSvgsEl ec "cgHash" Ec Ec1 Ac W1) as [Tc1 Ac1].
  destruct (tags_kept σ1 σ2 customSvgsEl ec "cgHash" Ec1 Ec2 Ac1 W2) as [Tc2 Ac2].
  fold (child_hashes σ1 customSvgsEl) (child_hashes σ customSvgsEl) in Tc1.
  fold (child_hashes σ2 customSvgsEl) (child_hashes σ1 customSvgsEl) in Tc2.
  destruct (pass_exact _ _ _ _ _ _ _ _ Ec2
              (hashes_filter_NoDup _ _ HT) ltac:(now rewrite Tc2, Tc1) R3) as [P3 N3].
  (* the first group after the second pass *)
  destruct (σ2 !! shapesEl) as [eg2|] eqn:Eg2.
  2:{ destruct (K2 _ _ Eg1) as (e' & He' & _). congruence. }
  assert (Eg3 : σ3 !! shapesEl = Some eg2).
  { destruct (K3 _ _ Eg2) as (e' & He' & _ & F). rewrite F in He' by congruence.
    exact He'. }
  pose proof (tagged_alive _ _ _ P2) as Ag2.
  rewrite (children_of_root _ _ _ Eg2) in Ag2.
  destruct (tags_kept σ2 σ3 shapesEl eg2 "cgHash" Eg2 Eg3 Ag2 W3) as [Tg3 _].
  fold (child_hashes σ3 shapesEl) (child_hashes σ2 shapesEl) in Tg3.
  (* the catalog *)
  destruct (syncDefs_keys _ _ _ _ _ _ Ed R1) as [M1 Ad1].
  destruct (σ1 !! defsEl) as [ed1|] eqn:Ed1.
  2:{ destruct (K1 _ _ Ed) as (e' & He' & _). congruence. }
  assert (Ed2 : σ2 !! defsEl = Some ed1).
  { destruct (K2 _ _ Ed1) as (e' & He' & _ & F). rewrite F in He' by congruence.
    exact He'. }
  assert (Ed3 : σ3 !! defsEl = Some ed1).
  { destruct (K3 _ _ Ed2) as (e' & He' & _ & F). rewrite F in He' by congruence.
    exact He'. }
  rewrite (children_of_root _ _ _ Ed1) in Ad1.
  destruct (tags_kept σ1 σ2 defsEl ed1 "cgKey" Ed1 Ed2 Ad1 W2) as [Td2 Ad2].
  destruct (tags_kept σ2 σ3 defsEl ed1 "cgKey" Ed2 Ed3 Ad2 W3) as [Td3 _].
  fold (child_keys σ2 defsEl) (child_keys σ1 defsEl) in Td2.
  fold (child_keys σ3 defsEl) (child_keys σ2 defsEl) in Td3.
  rewrite Tg3, Td3, Td2. auto.
Qed.

Lemma renderSvg_shows_drawing_witness :
  child_hashes (renderSvg (rt := demo) (onBoard mixedDrawing) 0 3 emptyOverlay).2.1 2
  ≡ₚ [Some "a1,green"; Some "b1,h1,green"]
  /\ child_hashes (renderSvg (rt := demo) (onBoard mixedDrawing) 0 3 emptyOverlay).2.1 4
     ≡ₚ [Some "c3,custom-775707151"].
Proof.
  destruct (@renderSvg_shows_drawing demo (onBoard mixedDrawing) 0 3 emptyOverlay
              1 2 4) as (H1 & H2 & _).
  - unfold overlay. repeat split; try (vm_compute; reflexivity);
      try discriminate; vm_compute; constructor.
  - apply (bool_decide_unpack (NoDup _)). vm_compute. exact I.
  - vm_compute. discriminate.
  - vm_compute. reflexivity.
  - split; [exact H1 | exact H2].
Defined.

(** X19. On a well-formed overlay whose catalog holds nodes of the store,
    a call of [renderSvg] that is not short-circuited returns exactly when
    the brush of every shape with a destination is defined, as an own
    brush of the catalog of brushes or as a property of [Object.prototype]
    (a shape with markup included), and every shape without markup whose
    hash is on no child of the first group can be rendered. *)
Theorem renderSvg_returns_iff {rt : Runtime} (state : State)
    (svg customSvg : nat) (σ : Dom) (defsEl shapesEl customSvgsEl : nat) :
  overlay σ svg customSvg defsEl shapesEl customSvgsEl ->
  Forall (alive σ) (children_of σ defsEl) ->
  fullHashOf (drawable state) <> prevSvgHash (drawable state) ->
  (renderSvg state svg customSvg σ).2.2 = Some tt
  <-> (forall s, s ∈ allShapes (drawable state) ->
         truthy (optStr (dest s)) = true ->
         is_Some (brushNamed (brushes (drawable state)) (brush s)))
      /\ (forall sc, sc ∈ hashedShapes (drawable state) -> isCustom sc = false ->
            Some (sc_hash sc) ∉ child_hashes σ shapesEl ->
            renderable (brushes (drawable state)) (sc_shape sc) = true).
Proof.
  intros (Fd & Fg & Fc & Ngc & Ag & Ac & Kg & Kc) Ad Hne.
  unfold renderSvg. cbv zeta.
  rewrite (proj2 (String.eqb_neq _ _) Hne). cbn [fst snd].
  set (state' := setPrevSvgHash state (fullHashOf (drawable state))).
  rewrite (reconcile_found state' _ _ _ _ _ _ Fd Fg Fc).
  change (drawable state') with
    (drawable (setPrevSvgHash state (fullHashOf (drawable state)))).
  change (hashedShapes (drawable (setPrevSvgHash state (fullHashOf (drawable state)))))
    with (hashedShapes (drawable state)).
  change (brushes (drawable (setPrevSvgHash state (fullHashOf (drawable state)))))
    with (brushes (drawable state)).
  change (arrowDestsOf (drawable (setPrevSvgHash state (fullHashOf (drawable state)))))
    with (arrowDestsOf (drawable state)).
  set (shapes := hashedShapes (drawable state)).
  set (d' := drawable (setPrevSvgHash state (fullHashOf (drawable state)))).
  destruct (found_run _ _ _ _ Fd) as [_ (ed & Ed & Td)].
  destruct (found_run _ _ _ _ Fg) as [_ (eg & Eg & Tg)].
  destruct (found_run _ _ _ _ Fc) as [_ (ec & Ec & Tc)].
  assert (Ndg : defsEl <> shapesEl).
  { intros ->. rewrite Ed in Eg. injection Eg as <-. rewrite Td in Tg. discriminate. }
  assert (Ndc : defsEl <> customSvgsEl).
  { intros ->. rewrite Ed in Ec. injection Ec as <-. rewrite Td in Tc. discriminate. }
  (* the brushes *)
  assert (Hb : (forall s, s ∈ allShapes (drawable state) ->
                  truthy (optStr (dest s)) = true ->
                  is_Some (brushNamed (brushes (drawable state)) (brush s)))
               <-> forall sc, sc ∈ shapes ->
                     truthy (optStr (dest (sc_shape sc))) = true ->
                     is_Some (brushNamed (brushes d') (brush (sc_shape sc)))).
  { rewrite <- hashedShapes_shapes. fold shapes. split.
    - intros H sc Hsc. apply H. now apply list_elem_of_fmap_2.
    - intros H s Hs. apply list_elem_of_fmap in Hs as (sc & -> & Hsc). now apply H. }
  rewrite Hb. clear Hb.
  destruct (syncDefs_returns d' shapes defsEl σ ed Ed) as [D _].
  rewrite (children_of_root _ _ _ Ed) in Ad.
  rewrite bind_run.
  destruct (syncDefs d' shapes (Some defsEl) σ) as [σ1 r1] eqn:R1.
  cbn [fst snd] in D.
  destruct r1 as [[]|].
  2:{ cbn [snd]. split; [discriminate|]. intros [H _].
      assert (X : @None unit = Some tt) by (apply D; split; assumption).
      discriminate X. }
  destruct (proj1 D eq_refl) as [_ HB].
  assert (W1 : forall n e, σ !! n = Some e ->
            exists e', σ1 !! n = Some e' /\ same_but_children e e'
                       /\ (Some defsEl <> Some n -> e' = e)).
  { intros n e Hn. pose proof (syncDefs_changes d' shapes (Some defsEl) σ n e Hn) as C.
    now rewrite R1 in C. }
  assert (W1' : forall n e, σ !! n = Some e ->
            exists e', σ1 !! n = Some e' /\ same_but_children e e').
  { intros n e Hn. destruct (W1 n e Hn) as (e' & ? & ? & _). eauto. }
  assert (Eg1 : σ1 !! shapesEl = Some eg).
  { destruct (W1 _ _ Eg) as (e' & He' & _ & F). rewrite F in He' by congruence.
    exact He'. }
  assert (Ec1 : σ1 !! customSvgsEl = Some ec).
  { destruct (W1 _ _ Ec) as (e' & He' & _ & F). rewrite F in He' by congruence.
    exact He'. }
  rewrite (children_of_root _ _ _ Eg) in Ag.
  rewrite (children_of_root _ _ _ Ec) in Ac.
  destruct (tags_kept σ σ1 shapesEl eg "cgHash" Eg Eg1 Ag W1') as [Tg1 Ag1].
  fold (child_hashes σ1 shapesEl) (child_hashes σ shapesEl) in Tg1.
  destruct (tags_kept σ σ1 customSvgsEl ec "cgHash" Ec Ec1 Ac W1') as [_ Ac1].
  rewrite bind_run.
  pose proof (syncShapes_returns state'
                (List.filter (fun s => negb (isCustom s)) shapes)
                (brushes (drawable state)) (arrowDestsOf (drawable state))
                shapesEl σ1 eg Eg1) as S2.
  rewrite Tg1 in S2.
  assert (W2 : forall n e, σ1 !! n = Some e ->
            exists e', (syncShapes state'
                          (List.filter (fun s => negb (isCustom s)) shapes)
                          (brushes (drawable state)) (arrowDestsOf (drawable state))
                          (Some shapesEl) σ1).1 !! n = Some e'
                       /\ same_but_children e e'
                       /\ (Some shapesEl <> Some n -> e' = e)).
  { intros n e Hn. now apply syncShapes_changes. }
  destruct (syncShapes state' (List.filter (fun s => negb (isCustom s)) shapes)
              (brushes (drawable state)) (arrowDestsOf (drawable state))
              (Some shapesEl) σ1) as [σ2 r2] eqn:R2.
  cbn [fst snd] in S2, W2.
  assert (Hneed : (forall sc, sc ∈ List.filter (fun s => negb (isCustom s)) shapes ->
                     Some (sc_hash sc) ∉ child_hashes σ shapesEl ->
                     renderable (brushes (drawable state)) (sc_shape sc) = true)
                  <-> (forall sc, sc ∈ shapes -> isCustom sc = false ->
                         Some (sc_hash sc) ∉ child_hashes σ shapesEl ->
                         renderable (brushes (drawable state)) (sc_shape sc) = true)).
  { split.
    - intros H sc Hsc Hc. apply H. apply elem_of_Lfilter. split; [assumption|].
      now rewrite Hc.
    - intros H sc Hsc. apply elem_of_Lfilter in Hsc as [Hsc Hc]. apply H; [assumption|].
      now destruct (isCustom sc). }
  rewrite Hneed in S2. clear Hneed.
  destruct r2 as [[]|].
  2:{ cbn [snd]. split; [discriminate|]. intros [_ H].
      assert (X : @None unit = Some tt) by (apply S2; split; assumption).
      discriminate X. }
  destruct (proj1 S2 eq_refl) as [_ HR].
  assert (Ec2 : σ2 !! customSvgsEl = Some ec).
  { destruct (W2 _ _ Ec1) as (e' & He' & _ & F). rewrite F in He' by congruence.
    exact He'. }
  assert (W2' : forall n e, σ1 !! n = Some e ->
            exists e', σ2 !! n = Some e' /\ same_but_children e e').
  { intros n e Hn. destruct (W2 n e Hn) as (e' & ? & ? & _). eauto. }
  destruct (tags_kept σ1 σ2 customSvgsEl ec "cgHash" Ec1 Ec2 Ac1 W2') as [_ Ac2].
  split; [intros _; now split | intros _].
  apply (syncShapes_returns state' (List.filter isCustom shapes)
           (brushes (drawable state)) (arrowDestsOf (drawable state))
           customSvgsEl σ2 ec Ec2).
  split; [assumption|]. intros sc Hsc _.
  apply elem_of_Lfilter in Hsc as [_ Hc]. unfold renderable.
  unfold isCustom in Hc. now rewrite Hc.
Qed.

Lemma renderSvg_returns_iff_witness :
  (renderSvg (rt := demo) (onBoard mixedDrawing) 0 3 emptyOverlay).2.2 = Some tt.
Proof.
  apply (@renderSvg_returns_iff demo (onBoard mixedDrawing) 0 3 emptyOverlay 1 2 4).
  - unfold overlay. repeat split; try (vm_compute; reflexivity);
      try discriminate; vm_compute; constructor.
  - vm_compute. constructor.
  - vm_compute. discriminate.
  - split.
    + intros s Hs Hd. apply list_elem_of_In in Hs. vm_compute in Hs.
      destruct Hs as [<- | [<- | [<- | []]]]; try discriminate Hd.
      vm_compute. eauto.
    + intros sc Hsc Hc _. apply list_elem_of_In in Hsc. vm_compute in Hsc.
      destruct Hsc as [<- | [<- | [<- | []]]]; try discriminate Hc;
        vm_compute; reflexivity.
Defined.

(** ** Attributes *)

Section Attributes.
Context {rt : Runtime}.

Lemma attr_get_set_other (k k' v : string) (attrs : list (string * string)) :
  k <> k' -> attr_get k (attr_set k' v attrs) = attr_get k attrs.
Proof.
  intros N. induction attrs as [|[k0 v0] attrs IH]; cbn [attr_set attr_get].
  - destruct (String.eqb_spec k' k); congruence.
  - destruct (String.eqb_spec k0 k') as [->|N0]; cbn [attr_get].
    + destruct (String.eqb_spec k' k); congruence.
    + destruct (String.eqb_spec k0 k); [reflexivity | exact IH].
Qed.

Lemma set_all_other (k : string) (attrs : list (string * JsValue))
    (a0 : list (string * string)) :
  k ∉ map fst attrs -> attr_get k (set_all attrs a0) = attr_get k a0.
Proof.
  revert a0. induction attrs as [|[k' v'] attrs IH]; intros a0 N; [reflexivity|].
  unfold set_all. cbn [fold_left fst snd]. fold (set_all attrs (attr_set k' (js_toString v') a0)).
  cbn [map fst] in N. rewrite IH by (intros I; apply N; now constructor).
  apply attr_get_set_other. intros ->. apply N. constructor.
Qed.

Lemma set_all_get (k : string) (v : JsValue) (attrs : list (string * JsValue))
    (a0 : list (string * string)) :
  NoDup (map fst attrs) -> (k, v) ∈ attrs ->
  attr_get k (set_all attrs a0) = Some (js_toString v).
Proof.
  revert a0. induction attrs as [|[k' v'] attrs IH]; intros a0 ND I.
  - now apply elem_of_nil in I.
  - cbn [map fst] in ND. apply NoDup_cons in ND as [N1 N2].
    unfold set_all. cbn [fold_left fst snd].
    fold (set_all attrs (attr_set k' (js_toString v') a0)).
    apply elem_of_cons in I as [[= -> ->] | I].
    + rewrite set_all_other by assumption. apply attr_get_set_eq.
    + now apply IH.
Qed.

End Attributes.

(** X20. [setAttributes] on an element of the store, with an attribute
    object (its keys are distinct): it returns the element; every key of
    the object then reads back as the text of its value; every other
    attribute, the tag, the children and the inner HTML of the element and
    every other node are left as they were. *)
Theorem setAttributes_reads_back {rt : Runtime} (el : nat)
    (attrs : list (string * JsValue)) (σ : Dom) (e : Element) :
  σ !! el = Some e ->
  NoDup (map fst attrs) ->
  let run := setAttributes el attrs σ in
  run.2 = Some el
  /\ (forall k v, (k, v) ∈ attrs -> attr_of run.1 el k = Some (js_toString v))
  /\ (forall k, k ∉ map fst attrs -> attr_of run.1 el k = attr_of σ el k)
  /\ (exists e', run.1 !! el = Some e' /\ tagName e' = tagName e
                 /\ childNodes e' = childNodes e /\ innerHTML e' = innerHTML e)
  /\ (forall n, n <> el -> run.1 !! n = σ !! n).
Proof.
  intros He ND. cbv zeta.
  assert (E : setAttributes el attrs σ
              = (<[el := with_attributes (set_all attrs (attributes e)) e]> σ,
                 Some el)).
  { rewrite <- (insert_id σ el e He) at 1. apply setAttributes_insert. }
  rewrite E. cbn [fst snd]. unfold attr_of.
  rewrite lookup_insert_eq, He. cbn [with_attributes attributes].
  split; [reflexivity|]. split; [|split; [|split]].
  - intros k v I. now apply set_all_get.
  - intros k N. now apply set_all_other.
  - eexists. split; [reflexivity|]. repeat split.
  - intros n N. now rewrite lookup_insert_ne by congruence.
Qed.

Lemma setAttributes_reads_back_witness :
  attr_of (setAttributes (rt := demo) 2 [("width", VNum 1); ("fill", VStr "none")]
             emptyOverlay).1 2 "width" = Some "1".
Proof.
  destruct (@setAttributes_reads_back demo 2
              [("width", VNum 1); ("fill", VStr "none")]
              emptyOverlay (newElement "g") eq_refl) as (_ & H & _).
  - apply (bool_decide_unpack (NoDup _)). vm_compute. exact I.
  - apply (H "width" (VNum 1)). constructor.
Defined.

Lemma fullHashOf_shapes {rt : Runtime} (d1 d2 : Drawable) :
  shapes d1 = shapes d2 -> autoShapes d1 = autoShapes d2 ->
  current d1 = current d2 -> fullHashOf d1 = fullHashOf d2.
Proof.
  intros E1 E2 E3.
  unfold fullHashOf, hashedShapes, arrowDestsOf, allShapes, currentShape.
  now rewrite E1, E2, E3.
Qed.

(** X21. The short circuit of [renderSvg] looks at the shapes, the auto
    shapes and the shape being drawn only: when the snapshot is the full
    hash of a drawing with the same three, the call returns at once and
    changes nothing, whatever the orientation of the board, the catalog of
    brushes and the base URL of the pieces have become. *)
Theorem short_circuit_ignores_board {rt : Runtime} (state : State) (d : Drawable)
    (svg customSvg : nat) (σ : Dom) :
  shapes (drawable state) = shapes d ->
  autoShapes (drawable state) = autoShapes d ->
  current (drawable state) = current d ->
  prevSvgHash (drawable state) = fullHashOf d ->
  renderSvg state svg customSvg σ = (state, (σ, Some tt)).
Proof.
  intros E1 E2 E3 E4. unfold renderSvg. cbv zeta.
  rewrite E4, (fullHashOf_shapes _ d E1 E2 E3). now rewrite String.eqb_refl.
Qed.

Lemma short_circuit_ignores_board_witness :
  let flipped :=
    {| drawable := {| shapes := [arrowShape "a1" "h1" "green"]; autoShapes := [];
                      current := None; brushes := ∅; pieces_baseUrl := "";
                      prevSvgHash := "a1,h1,green" |};
       orientation := "black" |} in
  renderSvg (rt := demo) flipped 0 3 emptyOverlay = (flipped, (emptyOverlay, Some tt)).
Proof.
  apply (@short_circuit_ignores_board demo _
           (drawing [arrowShape "a1" "h1" "green"] None "")); reflexivity.
Defined.

(** ** The circle and the piece *)

(** X22. The circle that [renderCircle] makes for a brush of the catalog is
    centred on the square, at the file and at 7 minus the rank; its radius
    is 0.46875 whatever the brush, so that the stroke of a circle that is
    not being drawn, 4/64 wide, ends on the border of the square, half a
    square from the centre; the circle being drawn has a stroke of 3/64
    and nine tenths of the opacity; an opacity of the brush that is 0 or
    NaN counts as 1. *)
Theorem renderCircle_geometry {rt : Runtime} (b : DrawBrush)
    (pos : float * float) (cur : bool) (σ : Dom) :
  let run := renderCircle (Some (own b)) pos cur σ in
  let el := fresh (dom σ) in
  let op := if num_truthy (brush_opacity b) then brush_opacity b else 1%float in
  run.2 = Some el
  /\ attr_of run.1 el "cx" = Some (num_toString pos.1)
  /\ attr_of run.1 el "cy" = Some (num_toString (7 - pos.2)%float)
  /\ attr_of run.1 el "r" = Some (num_toString 0.46875)
  /\ attr_of run.1 el "stroke-width"
     = Some (num_toString (if cur then 0.046875 else 0.0625)%float)
  /\ attr_of run.1 el "stroke" = Some (brush_color b)
  /\ attr_of run.1 el "fill" = Some "none"
  /\ attr_of run.1 el "opacity"
     = Some (num_toString (op * (if cur then 0.9 else 1))%float)
  /\ (0.46875 + circleWidth.2 / 2 = 0.5)%float.
Proof.
  cbv zeta.
  assert (E : renderCircle (Some (own b)) pos cur σ
              = (<[fresh (dom σ) :=
                     elementWith "circle"
                       [("stroke", VStr (brush_color b));
                        ("stroke-width",
                         VNum (if cur then circleWidth.1 else circleWidth.2));
                        ("fill", VStr "none");
                        ("opacity", VNum (opacity (own b) cur));
                        ("cx", VNum (pos2user pos).1);
                        ("cy", VNum (pos2user pos).2);
                        ("r", VNum (0.5 - circleWidth.2 / 2)%float)]]> σ,
                 Some (fresh (dom σ)))).
  { unfold renderCircle. cbv zeta.
    rewrite bind_run. unfold createElement at 1. cbv zeta.
    rewrite bind_run. cbn [deref].
    change ((mret (own b) : M BrushValue) ?s) with (s, Some (own b)).
    cbv iota beta. now rewrite setAttributes_insert. }
  rewrite E. cbn [fst snd].
  unfold attr_of. rewrite lookup_insert_eq.
  unfold opacity, js_or.
  cbn [own bv_key bv_color bv_opacity bv_lineWidth optNum optStr truthy].
  destruct (num_truthy (brush_opacity b)), cur; repeat split.
Qed.

(** X23. [renderPiece] throws, before it touches the store, exactly when
    the role of the piece is the empty text. Otherwise it returns a new
    image of one square by one square whose top left corner is half a
    square from the centre of the square; the image is named by the base
    URL, the first character of the colour and the upper case of the first
    character of the role, but n for the knight; it is scaled by the scale
    of the piece, or by 1 when the scale is absent, 0 or NaN. *)
Theorem renderPiece_image {rt : Runtime} (baseUrl : string)
    (pos : float * float) (p : DrawShapePiece) (σ : Dom) :
  let run := renderPiece baseUrl pos p σ in
  let el := fresh (dom σ) in
  let initial := if String.eqb (piece_role p) "knight" then "n"
                 else match piece_role p with
                      | String c _ => String c ""
                      | EmptyString => ""
                      end in
  let scale := match piece_scale p with
               | Some x => if num_truthy x then x else 1%float
               | None => 1%float
               end in
  (piece_role p = "" -> run = (σ, None))
  /\ (piece_role p <> "" ->
      run.2 = Some el
      /\ tagName <$> run.1 !! el = Some "image"
      /\ attr_of run.1 el "href"
         = Some (baseUrl +:+ (js_toString (firstChar (piece_color p))
                              +:+ toUpperCase initial) +:+ ".svg")
      /\ attr_of run.1 el "className"
         = Some (piece_role p +:+ " " +:+ piece_color p)
      /\ attr_of run.1 el "x" = Some (num_toString (pos.1 - 0.5)%float)
      /\ attr_of run.1 el "y" = Some (num_toString (7 - pos.2 - 0.5)%float)
      /\ attr_of run.1 el "width" = Some (num_toString 1)
      /\ attr_of run.1 el "height" = Some (num_toString 1)
      /\ attr_of run.1 el "transform"
         = Some ("scale(" +:+ num_toString scale +:+ ")")
      /\ forall n e, σ !! n = Some e -> run.1 !! n = Some e).
Proof.
  cbv zeta. split; [apply renderPiece_throws|]. intros N.
  assert (F : forall n e, σ !! n = Some e ->
            forall x, <[fresh (dom σ) := x]> σ !! n = Some e).
  { intros n e Hn x. rewrite lookup_insert_ne; [assumption|].
    intros <-. now rewrite fresh_unused in Hn. }
  assert (S : js_toString (js_or (optNum (piece_scale p)) (VNum 1))
              = num_toString match piece_scale p with
                             | Some x => if num_truthy x then x else 1%float
                             | None => 1%float
                             end).
  { unfold js_or. destruct (piece_scale p) as [x|]; [|reflexivity].
    cbn [optNum truthy]. now destruct (num_truthy x). }
  set (initial := if String.eqb (piece_role p) "knight" then "n"
                  else match piece_role p with
                       | String c _ => String c ""
                       | EmptyString => ""
                       end).
  assert (E : renderPiece baseUrl pos p σ
              = (<[fresh (dom σ) :=
                     elementWith "image"
                       [("className", VStr (piece_role p +:+ " " +:+ piece_color p));
                        ("x", VNum ((pos2user pos).1 - 0.5)%float);
                        ("y", VNum ((pos2user pos).2 - 0.5)%float);
                        ("width", VNum 1);
                        ("height", VNum 1);
                        ("href",
                         VStr (baseUrl +:+ (js_toString (firstChar (piece_color p))
                                            +:+ toUpperCase initial) +:+ ".svg"));
                        ("transform",
                         VStr ("scale("
                               +:+ js_toString (js_or (optNum (piece_scale p)) (VNum 1))
                               +:+ ")"));
                        ("transform-origin",
                         VStr (num_toString (pos2user pos).1 +:+ " "
                               +:+ num_toString (pos2user pos).2))]]> σ,
                 Some (fresh (dom σ)))).
  { unfold renderPiece, initial. cbv zeta.
    destruct (String.eqb (piece_role p) "knight").
    - rewrite bind_run. change ((mret "n" : M string) ?s) with (s, Some "n").
      cbv iota beta. now rewrite create_set_last.
    - destruct (piece_role p) as [|c r] eqn:Er; [congruence|]. cbn [firstChar].
      rewrite bind_run.
      change ((mret (String c "") : M string) ?s) with (s, Some (String c "")).
      cbv iota beta. now rewrite create_set_last. }
  rewrite E. cbn [fst snd]. unfold attr_of. rewrite lookup_insert_eq.
  rewrite <- S.
  repeat (split; [reflexivity|]). intros n e Hn. now apply F.
Qed.
